(** * Land-productivity pipeline: quality masking, vegetation index,
      temporal aggregation

    A shallow embedding of the numeric cells of the land-productivity
    notebooks (HLS and Landsat variants):

    - [apply_quality_mask] / [mask_landsat_clouds]: bit-flag masks;
    - [scale_offset], [calculate_evi], [calculate_evi2]: scaling and the
      three-band and two-band vegetation indices;
    - the reductions applied after [resample]: maximum, median and mean
      that skip "no value" entries, and the anchored-quarter selection;
    - the cells that run these on whole datasets, the array that the
      plotting helper hands to the drawing, and the loops that query and
      load the trend years.

    Array code is element-wise, so every function is given on one array
    element and lifted to rasters with [map] and [zip_with].  The element
    type is abstract ([dtype]); it is instantiated with the IEEE-754
    formats binary32 and binary64 (Rocq's [SpecFloat], bit-exact). *)

From Stdlib Require Import ZArith QArith Lia Lqa List Bool.
From Stdlib Require Import Floats.SpecFloat Qpower.
From stdpp Require Import gmap strings list fin_maps.

Open Scope Z_scope.

(** ** Element types *)

(** The arithmetic an array element type offers to the notebooks:
    conversion of integers, Python float literals, NaN, the four
    operations, the comparisons [>] and [==], and [isnan]. *)
Class dtype := Dtype {
  elt : Type;
  of_int : Z -> elt;
  lit : Q -> elt;
  nan : elt;
  add : elt -> elt -> elt;
  sub : elt -> elt -> elt;
  mul : elt -> elt -> elt;
  div : elt -> elt -> elt;
  gtb : elt -> elt -> bool;
  eqb : elt -> elt -> bool;
  isnan : elt -> bool
}.

Declare Scope dt_scope.
Delimit Scope dt_scope with dt.
Infix "+" := add : dt_scope.
Infix "-" := sub : dt_scope.
Infix "*" := mul : dt_scope.
Infix "/" := div : dt_scope.
Infix ">" := gtb : dt_scope.
Infix "==" := eqb (at level 70, no associativity) : dt_scope.

(** *** IEEE-754 binary formats *)

Inductive float_format := binary32 | binary64.

Definition prec (f : float_format) : Z :=
  match f with binary32 => 24 | binary64 => 53 end.

Definition emax (f : float_format) : Z :=
  match f with binary32 => 128 | binary64 => 1024 end.

(** Integer to float, round to nearest even (exact below [2^prec]). *)
Definition sf_of_int (f : float_format) (z : Z) : spec_float :=
  binary_normalize (prec f) (emax f) z 0 false.

(** Rounding of a float into format [f] (the cast of a Python float to the
    array's element type). *)
Definition sf_round (f : float_format) (x : spec_float) : spec_float :=
  match x with
  | S754_finite s m e => binary_round (prec f) (emax f) s m e
  | _ => x
  end.

(** A Python float literal [n/d]: the binary64 number nearest to it (one
    correctly rounded division of two exactly representable integers), then
    cast to the format of the array it is combined with. *)
Definition sf_lit (f : float_format) (q : Q) : spec_float :=
  sf_round f (SFdiv (prec binary64) (emax binary64)
                (sf_of_int binary64 (Qnum q))
                (sf_of_int binary64 (Zpos (Qden q)))).

Definition sf_isnan (x : spec_float) : bool :=
  match x with S754_nan => true | _ => false end.

Definition ieee (f : float_format) : dtype := {|
  elt := spec_float;
  of_int := sf_of_int f;
  lit := sf_lit f;
  nan := S754_nan;
  add := SFadd (prec f) (emax f);
  sub := SFsub (prec f) (emax f);
  mul := SFmul (prec f) (emax f);
  div := SFdiv (prec f) (emax f);
  gtb := fun x y => SFltb y x;
  eqb := SFeqb;
  isnan := sf_isnan
|}.

Definition float32 : dtype := ieee binary32.
Definition float64 : dtype := ieee binary64.

(** ** Array primitives used by the notebooks *)

Section Primitives.
Context {D : dtype}.
Local Open Scope dt_scope.

(** [x.where(cond, other)]: keep [x] where [cond] holds. *)
Definition where_ (cond : bool) (x other : elt) : elt :=
  if cond then x else other.

(** numpy's clip kernel: [min(max(x, lo), hi)], where [max a b] is
    [a] if [a] is NaN or [a > b], else [b], and likewise for [min]. *)
Definition np_max (a b : elt) : elt := if isnan a || (a > b) then a else b.
Definition np_min (a b : elt) : elt := if isnan a || (b > a) then a else b.
Definition clip (x lo hi : elt) : elt := np_min (np_max x lo) hi.
End Primitives.

(** ** Quality Mask Builder *)

(** A raster is a flat list of elements (time x row x column); a dataset
    maps band names to rasters of one shape. *)

Section QualityMask.
(** [(code & reject_bitmask) != 0] *)
Definition reject_mask (reject_bitmask : Z) (code : Z) : bool :=
  negb (Z.land code reject_bitmask =? 0).

(** [code == nodata]; a band without a nodata value in its metadata
    ([None]) compares unequal everywhere. *)
Definition nodata_eq (nodata : option Z) (code : Z) : bool :=
  match nodata with
  | Some s => code =? s
  | None => false
  end.

(** The combined mask of one raster of quality codes. *)
Definition quality_mask (reject_bitmask : Z) (nodata : option Z)
    (quality : list Z) : list bool :=
  let pq_mask := map (reject_mask reject_bitmask) quality in
  let nodata_mask := map (nodata_eq nodata) quality in
  zip_with orb pq_mask nodata_mask.
End QualityMask.

Module HLS.
Section HLS.
Context {D : dtype}.
Local Open Scope dt_scope.

(** bit 1 (cloud), 2 (adjacent cloud) and 3 (cloud shadow) *)
Definition pq_bin : Z := 14.  (* 0b00001110 *)

(** [Dataset.drop_vars]: a new dataset without the named variable. *)
Definition drop_vars {A} (name : string) (ds : gmap string (list A)) :
    gmap string (list A) :=
  delete name ds.

(** [apply_quality_mask(data)]; [nodata] is [data.fmask.odc.nodata].
    [data.where(~mask, other=np.nan)] acts on every variable of the
    dataset and turns the integer bands into floating point.  The result
    of [drop_vars] is not bound to anything: [masked] itself is returned.
    [None] stands for the AttributeError of a dataset without [fmask]. *)
Definition apply_quality_mask (nodata : option Z)
    (data : gmap string (list Z)) : option (gmap string (list elt)) :=
  match data !! "fmask"%string with
  | None => None
  | Some fmask =>
      let mask := quality_mask pq_bin nodata fmask in
      let masked :=
        (fun band => zip_with (fun m x => where_ (negb m) (of_int x) nan)
                       mask band) <$> data in
      let _ := drop_vars "fmask" masked in
      Some masked
  end.

(** [scale_offset(band)]: scale by 0.0001, keep only values above 0. *)
Definition scale_offset (band : elt) : elt :=
  let band := band * lit 0.0001 in
  let band := where_ (band > of_int 0) band nan in
  band.

(** Three-band index, [calculate_evi(data)], on one element of
    [data.nir], [data.red], [data.blue]. *)
Definition calculate_evi (data_nir data_red data_blue : elt) : elt :=
  let nir := scale_offset data_nir in
  let red := scale_offset data_red in
  let blue := scale_offset data_blue in
  let evi :=
    lit 2.5 * ((nir - red) /
               (nir + of_int 6 * red - lit 7.5 * blue + of_int 1)) in
  evi.

(** Two-band index, [calculate_evi2(data)], on one element of
    [data.nir] and [data.red]. *)
Definition calculate_evi2 (data_nir data_red : elt) : elt :=
  let nir := scale_offset data_nir in
  let red := scale_offset data_red in
  let evi2 := lit 2.4 * ((nir - red) / (nir + red + of_int 1)) in
  evi2.
End HLS.
End HLS.

(** The notebook that masks through the raster helper: same scaling, the
    index written without the inner parentheses. *)
Module HLSRaster.
Section HLSRaster.
Context {D : dtype}.
Local Open Scope dt_scope.

Definition scale_offset (band : elt) : elt :=
  let band := band * lit 0.0001 in
  let band := where_ (band > of_int 0) band nan in
  band.

Definition calculate_evi2 (data_nir data_red : elt) : elt :=
  let nir := scale_offset data_nir in
  let red := scale_offset data_red in
  let evi2 := lit 2.4 * (nir - red) / (nir + red + of_int 1) in
  evi2.
End HLSRaster.
End HLSRaster.

Module Landsat.
Section Landsat.
Context {D : dtype}.
Local Open Scope dt_scope.

(** bit 3 (high confidence cloud) and bit 4 (high confidence shadow) *)
Definition bitflags : Z := 24.  (* 0b00011000 *)

(** [mask_landsat_clouds(data)]: [data.where(~cloud_mask)], no nodata
    comparison. *)
Definition mask_landsat_clouds (data : gmap string (list Z)) :
    option (gmap string (list elt)) :=
  match data !! "qa_pixel"%string with
  | None => None
  | Some qa_pixel =>
      let cloud_mask := map (reject_mask bitflags) qa_pixel in
      Some ((fun band =>
               zip_with (fun m x => where_ (negb m) (of_int x) nan)
                 cloud_mask band) <$> data)
  end.

(** [scale_offset(band)]: raw 0 is nodata; everything else is scaled,
    offset and clipped to [0, 1]. *)
Definition scale_offset (band : elt) : elt :=
  let nodata := band == of_int 0 in
  let band := band * lit 0.0000275 + lit (-0.2) in
  let band := clip band (of_int 0) (of_int 1) in
  where_ (negb nodata) band nan.

(** [calculate_evi2(data)] on one element of [data.nir08], [data.red]. *)
Definition calculate_evi2 (data_nir08 data_red : elt) : elt :=
  let nir := scale_offset data_nir08 in
  let red := scale_offset data_red in
  let evi2 := lit 2.4 * (nir - red) / (nir + red + of_int 1) in
  evi2.
End Landsat.
End Landsat.

(** ** Temporal Aggregator and Area Summary *)

(** The reductions themselves ([max], [median], [mean] of the array
    library) are not part of the notebooks; the notebooks only call them on
    the groups made by [resample].  The mean, which needs the numbers
    that the floats stand for, comes with the float formats further
    down. *)
Section Reductions.
Context {D : dtype}.
Local Open Scope dt_scope.

Definition valid (x : elt) : bool := negb (isnan x).

(** The larger of two values that are not "no value". *)
Definition max2 (a b : elt) : elt := if b > a then b else a.

(** Modelled from the spec: the [max] reduction of the array library,
    "max ignoring missing"; a group with zero valid observations yields
    "no value". *)
Definition nanmax (xs : list elt) : elt :=
  match List.filter valid xs with
  | [] => nan
  | y :: ys => fold_left max2 ys y
  end.

Fixpoint insert_sorted (x : elt) (l : list elt) : list elt :=
  match l with
  | [] => [x]
  | y :: l' => if x > y then y :: insert_sorted x l' else x :: l
  end.

Definition sort_values (l : list elt) : list elt :=
  foldr insert_sorted [] l.

(** Modelled from the spec: the [median] reduction of the array library,
    "median ignoring missing": the middle of the sorted valid values (the
    mean of the two middle ones when their number is even), "no value"
    when there is none. *)
Definition nanmedian (xs : list elt) : elt :=
  let ys := sort_values (List.filter valid xs) in
  let n := length ys in
  match n with
  | O => nan
  | _ =>
      if Nat.even n
      then (nth (n / 2 - 1)%nat ys nan + nth (n / 2)%nat ys nan) / of_int 2
      else nth (n / 2)%nat ys nan
  end.

(** The values of pixel [i] through the scenes of one group. *)
Definition pixel_series (group : list (list elt)) (i : nat) : list elt :=
  map (fun scene => nth i scene nan) group.

(** Reduction of the time axis of one group of scenes of [npix] pixels. *)
Definition reduce_time (stat : list elt -> elt) (npix : nat)
    (group : list (list elt)) : list elt :=
  map (fun i => stat (pixel_series group i)) (seq 0 npix).
End Reductions.

(** A period label: the first day of a month. *)
Record period := Period { year : Z; month : Z }.

Section Resample.
Context {D : dtype}.

(** [resample(time=...).max()] and [.median()] on the groups of scenes
    that [resample] made, each under its period label. *)
Definition resample_max (npix : nat)
    (groups : list (period * list (list elt))) : list (period * list elt) :=
  map (fun g => (g.1, reduce_time nanmax npix g.2)) groups.

Definition resample_median (npix : nat)
    (groups : list (period * list (list elt))) : list (period * list elt) :=
  map (fun g => (g.1, reduce_time nanmedian npix g.2)) groups.

End Resample.

Section AnchoredQuarters.
Context {A : Type}.

(** [q.sel(time=q.time.dt.month == m)]: the entries of [q], in order,
    whose label is in month [m]. *)
Definition sel_month (m : Z) (q : list (period * A)) : list (period * A) :=
  List.filter (fun g => month g.1 =? m) q.

(** [feb_quarters_max = quarters_max.sel(time=quarters_max.time.dt.month == 2)] *)
Definition feb_quarters_max (quarters_max : list (period * A)) :=
  sel_month 2 quarters_max.

(** [dec_quarters_median = quarters_median.sel(time=quarters_median.time.dt.month == 12)] *)
Definition dec_quarters_median (quarters_median : list (period * A)) :=
  sel_month 12 quarters_median.
End AnchoredQuarters.

(** The labels [resample] gives to quarters anchored at month [anchor]
    ("QS-FEB" is anchor 2, "QS-DEC" anchor 12): the quarter of a date starts
    at the latest month not after it that differs from the anchor by a
    multiple of three. *)
Definition quarter_start (anchor : Z) (t : period) : period :=
let m := month t - (month t - anchor) mod 3 in
if m <? 1 then {| year := year t - 1; month := m + 12 |}
else {| year := year t; month := m |}.

Definition next_quarter (t : period) : period :=
if 12 <? month t + 3 then {| year := year t + 1; month := month t + 3 - 12 |}
else {| year := year t; month := month t + 3 |}.

Fixpoint quarter_labels (start : period) (n : nat) : list period :=
match n with
| O => []
| S k => start :: quarter_labels (next_quarter start) k
end.

(** ** The range promised for the index *)

Section UnitRange.
Context {D : dtype}.
Local Open Scope dt_scope.

(** [v] is "no value" or lies within [-1, 1]: it is NaN, or neither
    below -1 nor above 1. *)
Definition in_unit_range (v : elt) : Prop :=
  isnan v = true \/ ((of_int (-1) > v) = false /\ (v > of_int 1) = false).
End UnitRange.

(** ** Shapes of floats *)

(** A float that is +0 or finite and positive. *)
Definition sf_nonneg_finite (x : spec_float) : bool :=
  match x with
  | S754_zero false | S754_finite false _ _ => true
  | _ => false
  end.

Definition sf_isinf (x : spec_float) : bool :=
  match x with
  | S754_infinity _ => true
  | _ => false
  end.

Definition sf_pos_finite (x : spec_float) : bool :=
  match x with
  | S754_finite false _ _ => true
  | _ => false
  end.

(** [m * 2^n] on mantissas, for [n >= 0] (the left shift of [shl_align]). *)
Definition shl (m : positive) (n : Z) : positive :=
  match n with
  | Zpos q => Pos.iter xO m q
  | _ => m
  end.

(** A float that is a zero or a finite number. *)
Definition sf_finite_or_zero (x : spec_float) : bool :=
  match x with
  | S754_zero _ | S754_finite _ _ _ => true
  | _ => false
  end.

(** A float of sign [s] with a full mantissa whose magnitude lies in
    [2^(mu-1), 2^mu) for some [mu] between [lo] and [hi]. *)
Definition normal (f : float_format) (s : bool) (lo hi : Z)
    (x : spec_float) : Prop :=
  exists (m : positive) (e : Z),
    x = S754_finite s m e /\
    Zpos (digits2_pos m) = prec f /\
    lo <= e + prec f <= hi.

(** ** The notebook cells on whole datasets *)

(** A band is read from a dataset as an attribute ([data.nir]); [None]
    stands for the AttributeError of a dataset without it.  Arithmetic on
    two bands of one dataset goes element by element. *)

(** The notebook with the two-band index on HLS data. *)
Module HLSCells.
Section HLSCells.
Context {D : dtype}.

(** [calculate_evi2(data)] on the dataset. *)
Definition calculate_evi2 (data : gmap string (list elt)) :
    option (list elt) :=
  nir ← data !! "nir"%string;
  red ← data !! "red"%string;
  Some (zip_with HLS.calculate_evi2 nir red).

(** [trend_data_masked = apply_quality_mask(trend_data)], then
    [trend_data_masked["evi2"] = calculate_evi2(trend_data_masked)]: the
    dataset bound to [trend_data_masked] after the cell. *)
Definition trend_data_masked (nodata : option Z)
    (trend_data : gmap string (list Z)) : option (gmap string (list elt)) :=
  masked ← HLS.apply_quality_mask nodata trend_data;
  evi2 ← calculate_evi2 masked;
  Some (<["evi2"%string := evi2]> masked).
End HLSCells.
End HLSCells.

(** The notebook with the three-band index on HLS data. *)
Module SDG15Cells.
Section SDG15Cells.
Context {D : dtype}.

(** [calculate_evi(data)] on the dataset. *)
Definition calculate_evi (data : gmap string (list elt)) :
    option (list elt) :=
  nir ← data !! "nir"%string;
  red ← data !! "red"%string;
  blue ← data !! "blue"%string;
  Some (zip_with (fun nr b => HLS.calculate_evi nr.1 nr.2 b)
          (zip nir red) blue).

(** [trend_data_masked = apply_quality_mask(trend_data)], then
    [trend_data_masked["evi"] = calculate_evi(trend_data_masked)]. *)
Definition trend_data_masked (nodata : option Z)
    (trend_data : gmap string (list Z)) : option (gmap string (list elt)) :=
  masked ← HLS.apply_quality_mask nodata trend_data;
  evi ← calculate_evi masked;
  Some (<["evi"%string := evi]> masked).
End SDG15Cells.
End SDG15Cells.

(** The Landsat notebook. *)
Module LandsatCells.
Section LandsatCells.
Context {D : dtype}.

(** [calculate_evi2(data)] on the dataset. *)
Definition calculate_evi2 (data : gmap string (list elt)) :
    option (list elt) :=
  nir ← data !! "nir08"%string;
  red ← data !! "red"%string;
  Some (zip_with Landsat.calculate_evi2 nir red).

(** [trend_data = mask_landsat_clouds(trend_data)], then
    [trend_data["evi2"] = calculate_evi2(trend_data)]: the dataset bound
    to [trend_data] after the cell. *)
Definition trend_data (trend_data : gmap string (list Z)) :
    option (gmap string (list elt)) :=
  trend_data ← Landsat.mask_landsat_clouds trend_data;
  evi2 ← calculate_evi2 trend_data;
  Some (<["evi2"%string := evi2]> trend_data).
End LandsatCells.
End LandsatCells.

(** ** The array that the plotting helper draws *)

Section Plots.
Context {A : Type}.

(** Python's [l[start:stop]] for bounds that are not negative. *)
Definition slice (start stop : nat) (l : list A) : list A :=
  take (stop - start) (drop start l).

(** [data[names]]: the listed variables in the order of the list; [None]
    stands for the KeyError of a dataset without one of them. *)
Definition select_vars (names : list string) (data : gmap string (list A)) :
    option (list (string * list A)) :=
  mapM (fun name => pair name <$> data !! name) names.

(** The local variable [rgb_subset] of [plot_rgb(data)], as it stands
    when the last statement of the function, the drawing call
    [rgb_subset.plot.imshow(col="time", col_wrap=3, ...)], is reached.
    A variable holds its scenes in time order; [isel(time=slice(4, 7))]
    slices every variable and [to_array()] stacks the variables in their
    order.  [None] stands for the KeyError of the selection
    [data[["red", "green", "blue"]]], raised before anything is drawn.
    The drawing call itself belongs to the plotting library and is not
    modelled: [Some] says that the drawing is reached and with which
    array, not that it succeeds. *)
Definition rgb_subset (data : gmap string (list A)) :
    option (list (list A)) :=
  rgb ← select_vars ["red"; "green"; "blue"]%string data;
  Some ((fun v : string * list A => slice 4 7 v.2) <$> (rgb : list _)).
End Plots.

(** ** Loading the years of the trend *)

Module Trend.
Section Trend.
Context {A : Type}.

(** The raster helper's object: bands and masks, each a list of scenes in
    time order. *)
Record RasterBase := { data : list A; masks : list A }.

(** [range(start, stop)] *)
Definition range (start stop : Z) : list Z := seqZ start (stop - start).

(** The loop over [year_range] that loads one raster per year and
    concatenates along time; [from_stac_query year] stands for the query
    and load of that year.  [None] is the initial [hls_trend_raster]. *)
Definition hls_trend_raster (from_stac_query : Z -> RasterBase)
    (year_range : list Z) : option RasterBase :=
  fold_left
    (fun hls_trend_raster year =>
       let hls_year_raster := from_stac_query year in
       match hls_trend_raster with
       | None => Some hls_year_raster
       | Some r =>
           Some {| data := data r ++ data hls_year_raster;
                   masks := masks r ++ masks hls_year_raster |}
       end)
    year_range None.
End Trend.
End Trend.

(** ** Comparing floats as arrays are compared *)

(** Equal as numbers, or both "no value" (array equality with
    [equal_nan]). *)
Definition sf_equal_nan (a b : spec_float) : bool :=
  SFeqb a b || (sf_isnan a && sf_isnan b).

Definition sf_is_zero (x : spec_float) : bool :=
  match x with
  | S754_zero _ => true
  | _ => false
  end.

(** The integer a float holds, when it holds one. *)
Definition sf_to_Z (x : spec_float) : option Z :=
  match x with
  | S754_zero _ => Some 0
  | S754_finite s m e =>
      if 0 <=? e then Some (cond_Zopp s (Zpos m * 2 ^ e))
      else if (Zpos m mod 2 ^ (- e) =? 0) then
        Some (cond_Zopp s (Zpos m / 2 ^ (- e)))
      else None
  | _ => None
  end.

(** [b] is [-a], or both are zeros (of either sign). *)
Definition sf_negated (a b : spec_float) : Prop :=
  b = SFopp a \/ (sf_is_zero a = true /\ sf_is_zero b = true).

(** A float that is a zero or a finite number below [2^hi] in
    magnitude. *)
Definition sf_below (hi : Z) (x : spec_float) : Prop :=
  match x with
  | S754_zero _ => True
  | S754_finite _ m e => Zpos (digits2_pos m) + e <= hi
  | _ => False
  end.

(** ** The queries of the trend years *)

(** A calendar day; the date strings of the queries ([f"{year}-12-01"])
    are kept as year, month and day. *)
Record date := Date { dyear : Z; dmonth : Z; dday : Z }.

Definition date_leb (a b : date) : bool :=
  (dyear a <? dyear b)
  || ((dyear a =? dyear b)
      && ((dmonth a <? dmonth b)
          || ((dmonth a =? dmonth b) && (dday a <=? dday b)))).

(** The month a day falls in, as the resampling sees it. *)
Definition period_of (d : date) : period :=
  {| year := dyear d; month := dmonth d |}.

(** [datetime=f"{start_date}/{end_date}"]: the days from [start_date] to
    [end_date], both included. *)
Definition in_date_range (date_range : date * date) (d : date) : bool :=
  date_leb date_range.1 d && date_leb d date_range.2.

(** The HLS notebooks with the December quarter. *)
Module PeakQuery.
Definition date_range (year : Z) : date * date :=
  let start_date := Date year 12 1 in
  let end_date := Date (year + 1) 2 28 in
  (start_date, end_date).
End PeakQuery.

(** The HLS notebook with the raster helper. *)
Module RasterQuery.
Definition date_range (year : Z) : date * date :=
  let start_date := Date year 2 1 in
  let end_date := Date year 4 30 in
  (start_date, end_date).
End RasterQuery.

(** The Landsat notebook. *)
Module LandsatQuery.
Definition date_range (year : Z) : date * date :=
  (Date year 1 1, Date year 12 31).
End LandsatQuery.

(** ** Floats as numbers *)

(** The number a float stands for (0 for the special values). *)
Definition sf_val (x : spec_float) : Q :=
  match x with
  | S754_finite s m e =>
      ((if s then -1 else 1) * inject_Z (Zpos m) * 2 ^ e)%Q
  | _ => 0%Q
  end.

(** The relative error allowed to one operation: [2^-22], two units of
    the last place of binary32. *)
Definition eps : Q := 1 # 4194304.

(** [r] is [t] up to the relative error [eps] of [r]. *)
Definition close_to (r t : Q) : Prop :=
  ((1 - eps) * r <= t /\ t <= (1 + eps) * r)%Q.


(** ** Area Summary *)

Section Mean.
Variable f : float_format.

(** The value of a finite float in units of [2^E], for [E] not above its
    exponent (0 for a zero). *)
Definition scaled_mantissa (E : Z) (x : spec_float) : Z :=
  match x with
  | S754_finite s m e => cond_Zopp s (Zpos m * 2 ^ (e - E))
  | _ => 0
  end.

(** The least exponent among finite floats (and 0). *)
Definition min_exponent (xs : list spec_float) : Z :=
  foldr (fun x E => match x with
                    | S754_finite _ _ e => Z.min e E
                    | _ => E
                    end) 0 xs.

(** The sum of finite floats, exactly: an integer [M] and an exponent [E]
    that stand for [M * 2^E]. *)
Definition exact_sum (xs : list spec_float) : Z * Z :=
  let E := min_exponent xs in
  (foldr (fun x acc => scaled_mantissa E x + acc) 0 xs, E).

Definition has_infinity (s : bool) (xs : list spec_float) : bool :=
  existsb (fun x => match x with
                    | S754_infinity s' => Bool.eqb s s'
                    | _ => false
                    end) xs.

(** [M * 2^E] as an operand of a float operation (not rounded). *)
Definition sf_of_scaled (M E : Z) : spec_float :=
  match M with
  | 0 => S754_zero false
  | Zpos m => S754_finite false m E
  | Zneg m => S754_finite true m E
  end.

(** Modelled from the spec: the [mean] reduction of the array library
    (not part of the notebooks), "an arithmetic mean that ignores 'no
    value' entries; if all pixels in a period are 'no value', the
    period's summary is itself 'no value'".  The spec fixes the value, the
    arithmetic mean, and not the order in which a library adds up: the
    valid entries are summed exactly and their sum is divided by their
    number with one rounding to the element format.  An infinite entry
    makes the mean that infinity, entries of both infinities make it "no
    value". *)
Definition nanmean (xs : list spec_float) : spec_float :=
  let ys := List.filter (valid (D := ieee f)) xs in
  match ys with
  | [] => S754_nan
  | _ :: _ =>
      if has_infinity false ys
      then (if has_infinity true ys then S754_nan else S754_infinity false)
      else if has_infinity true ys then S754_infinity true
      else
        let '(M, E) := exact_sum ys in
        SFdiv (prec f) (emax f) (sf_of_scaled M E)
          (S754_finite false (Pos.of_nat (length ys)) 0)
  end.

(** [x.mean(["x", "y"])]: one scalar per period. *)
Definition mean_xy (periods : list (period * list spec_float)) :
    list (period * spec_float) :=
  map (fun g => (g.1, nanmean g.2)) periods.
End Mean.

(** The sum of the numbers that a list of floats stands for. *)
Definition sum_values (xs : list spec_float) : Q :=
  foldr (fun x acc => (sf_val x + acc)%Q) 0%Q xs.

(** * Properties *)

(** ** Quality Mask Builder *)

Lemma reject_mask_true (b c : Z) :
reject_mask b c = true <-> Z.land c b <> 0.
Proof.
unfold reject_mask. rewrite negb_true_iff, Z.eqb_neq. reflexivity.
Qed.

Lemma nodata_eq_true (s c : Z) : nodata_eq (Some s) c = true <-> c = s.
Proof. simpl. apply Z.eqb_eq. Qed.

Lemma quality_mask_lookup (b : Z) (nodata : option Z) (quality : list Z)
  (i : nat) :
quality_mask b nodata quality !! i
= (fun c => reject_mask b c || nodata_eq nodata c) <$> quality !! i.
Proof.
unfold quality_mask. rewrite lookup_zip_with, !list_lookup_fmap.
destruct (quality !! i); reflexivity.
Qed.

Lemma quality_mask_length (b : Z) (nodata : option Z) (quality : list Z) :
length (quality_mask b nodata quality) = length quality.
Proof.
unfold quality_mask. rewrite length_zip_with, !length_map. lia.
Qed.

Section MaskSpec.
Context {D : dtype}.

(** C1. For every integer quality code [c] at any position [i] of the
    quality raster, with no exception for any code:

    - the combined mask expression, for every reject bitmask [b] and
      sentinel [s], has the shape of the raster and is [true] at [i]
      exactly when [(c & b) != 0] or [c == s];
    - [apply_quality_mask], on any dataset with this quality band,
      returns every band with the length it has in common with the
      quality band, and pixel [i] of every band is masked exactly when
      [(c & 0b00001110) != 0] or [c] is the nodata value of the quality
      band;
    - [mask_landsat_clouds] does the same with the test
      [(c & 0b00011000) != 0] alone: its mask has no sentinel term. *)
Theorem quality_mask_spec (b s : Z) (quality : list Z) (i : nat) (c : Z) :
  quality !! i = Some c ->
  (length (quality_mask b (Some s) quality) = length quality /\
   exists m : bool,
     quality_mask b (Some s) quality !! i = Some m /\
     (m = true <-> (Z.land c b <> 0 \/ c = s))) /\
  (forall (nodata : option Z) (data : gmap string (list Z)),
     data !! "fmask"%string = Some quality ->
     exists masked : gmap string (list elt),
       HLS.apply_quality_mask nodata data = Some masked /\
       forall (band : string) (v : list Z),
         data !! band = Some v ->
         exists v' : list elt,
           masked !! band = Some v' /\
           length v' = Nat.min (length quality) (length v) /\
           forall x : Z,
             v !! i = Some x ->
             exists m : bool,
               (m = true <->
                (Z.land c HLS.pq_bin <> 0 \/ nodata = Some c)) /\
               v' !! i = Some (if m then nan else of_int x)) /\
  (forall data : gmap string (list Z),
     data !! "qa_pixel"%string = Some quality ->
     exists masked : gmap string (list elt),
       Landsat.mask_landsat_clouds data = Some masked /\
       forall (band : string) (v : list Z),
         data !! band = Some v ->
         exists v' : list elt,
           masked !! band = Some v' /\
           length v' = Nat.min (length quality) (length v) /\
           forall x : Z,
             v !! i = Some x ->
             exists m : bool,
               (m = true <-> Z.land c Landsat.bitflags <> 0) /\
               v' !! i = Some (if m then nan else of_int x)).
Proof.
  intros Hc. split; [| split].
  - split; [apply quality_mask_length |].
    exists (reject_mask b c || nodata_eq (Some s) c). split.
    + rewrite quality_mask_lookup, Hc. reflexivity.
    + rewrite orb_true_iff, reject_mask_true, nodata_eq_true. reflexivity.
  - intros nodata data Hf. unfold HLS.apply_quality_mask. rewrite Hf.
    eexists. split; [reflexivity |].
    intros band v Hv. eexists. split; [| split].
    + rewrite lookup_fmap, Hv. reflexivity.
    + rewrite length_zip_with, quality_mask_length. reflexivity.
    + intros x Hx.
      exists (reject_mask HLS.pq_bin c || nodata_eq nodata c). split.
      * rewrite orb_true_iff, reject_mask_true.
        destruct nodata as [s' |]; simpl.
        -- rewrite Z.eqb_eq.
           split; (intros [H | H]; [left; exact H | right; congruence]).
        -- split; (intros [H | H]; [left; exact H | discriminate H]).
      * rewrite lookup_zip_with, quality_mask_lookup, Hc, Hx. simpl.
        destruct (reject_mask HLS.pq_bin c || nodata_eq nodata c);
          reflexivity.
  - intros data Hq. unfold Landsat.mask_landsat_clouds. rewrite Hq.
    eexists. split; [reflexivity |].
    intros band v Hv. eexists. split; [| split].
    + rewrite lookup_fmap, Hv. reflexivity.
    + rewrite length_zip_with, length_map. reflexivity.
    + intros x Hx. exists (reject_mask Landsat.bitflags c). split.
      * apply reject_mask_true.
      * rewrite lookup_zip_with, list_lookup_fmap, Hc, Hx. simpl.
        destruct (reject_mask Landsat.bitflags c); reflexivity.
Qed.
End MaskSpec.

(** The quality code 2 (cloud bit) at position 1 of a quality band. *)
Lemma quality_mask_spec_witness :
  (length (quality_mask 14 (Some 255) [0; 2; 255; 64]) = 4%nat /\
   exists m : bool,
     quality_mask 14 (Some 255) [0; 2; 255; 64] !! 1%nat = Some m /\
     (m = true <-> (Z.land 2 14 <> 0 \/ 2 = 255))) /\
  (forall (nodata : option Z) (data : gmap string (list Z)),
     data !! "fmask"%string = Some [0; 2; 255; 64] ->
     exists masked : gmap string (list (@elt float64)),
       HLS.apply_quality_mask nodata data = Some masked /\
       forall (band : string) (v : list Z),
         data !! band = Some v ->
         exists v' : list (@elt float64),
           masked !! band = Some v' /\
           length v' = Nat.min 4 (length v) /\
           forall x : Z,
             v !! 1%nat = Some x ->
             exists m : bool,
               (m = true <-> (Z.land 2 HLS.pq_bin <> 0 \/ nodata = Some 2)) /\
               v' !! 1%nat = Some (if m then nan else of_int x)) /\
  (forall data : gmap string (list Z),
     data !! "qa_pixel"%string = Some [0; 2; 255; 64] ->
     exists masked : gmap string (list (@elt float64)),
       Landsat.mask_landsat_clouds data = Some masked /\
       forall (band : string) (v : list Z),
         data !! band = Some v ->
         exists v' : list (@elt float64),
           masked !! band = Some v' /\
           length v' = Nat.min 4 (length v) /\
           forall x : Z,
             v !! 1%nat = Some x ->
             exists m : bool,
               (m = true <-> Z.land 2 Landsat.bitflags <> 0) /\
               v' !! 1%nat = Some (if m then nan else of_int x)).
Proof.
  apply (quality_mask_spec (D := float64) 14 255 [0; 2; 255; 64] 1 2).
  reflexivity.
Defined.

(** The claim as stated fails for the Landsat mask: a [qa_pixel] code
    equal to the sentinel (1, the fill code of the band) satisfies
    [(c & b) != 0 or c == s], yet its mask element is [false] and the
    pixel is returned with its value. *)
Lemma landsat_mask_ignores_sentinel :
  (Z.land 1 Landsat.bitflags <> 0 \/ 1 = 1) /\
  map (reject_mask Landsat.bitflags) [1] = [false] /\
  Landsat.mask_landsat_clouds (D := float64)
    (<["qa_pixel"%string := [1]]> {["red"%string := [7000]]})
  = Some (<["qa_pixel"%string := [sf_of_int binary64 1]]>
            {["red"%string := [sf_of_int binary64 7000]]}) /\
  sf_isnan (sf_of_int binary64 7000) = false.
Proof.
  split; [right; reflexivity |]. split; [reflexivity |].
  split; [| reflexivity].
  unfold Landsat.mask_landsat_clouds.
  rewrite lookup_insert_eq. rewrite fmap_insert, map_fmap_singleton.
  reflexivity.
Qed.

(** With a reject bitmask of zero the mask is the nodata check alone. *)
Lemma quality_mask_zero_bitmask (s : Z) (quality : list Z) :
quality_mask 0 (Some s) quality = map (fun c => c =? s) quality.
Proof.
unfold quality_mask. induction quality as [| c q IH]; [reflexivity |].
simpl. rewrite <- IH. unfold reject_mask at 1. rewrite Z.land_0_r.
reflexivity.
Qed.

(** The Landsat mask has no sentinel term: it is the bit test alone. *)
Lemma landsat_cloud_mask_spec (qa_pixel : list Z) (i : nat) (c : Z) :
qa_pixel !! i = Some c ->
exists m : bool,
  map (reject_mask Landsat.bitflags) qa_pixel !! i = Some m /\
  (m = true <-> Z.land c 24 <> 0).
Proof.
intros Hc. exists (reject_mask Landsat.bitflags c). split.
- rewrite list_lookup_fmap, Hc. reflexivity.
- apply reject_mask_true.
Qed.

Section MaskFrame.
Context {D : dtype}.

(** C9. [apply_quality_mask] on a dataset that has the quality band
    returns a dataset with the same variables, the quality band among
    them (dropping it had no effect on the returned value).  Every band,
    the quality band included, comes back with the pixels it has in
    common with the quality band, no more and no fewer (all of them,
    for bands of the quality band's shape); each of these pixels is "no
    value" where the combined mask is set and its own value, converted
    to floating point, everywhere else. *)
Theorem apply_quality_mask_frame (nodata : option Z)
    (data : gmap string (list Z)) (fmask : list Z) :
  data !! "fmask"%string = Some fmask ->
  exists masked : gmap string (list elt),
    HLS.apply_quality_mask nodata data = Some masked /\
    dom masked = dom data /\
    is_Some (masked !! "fmask"%string) /\
    masked <> HLS.drop_vars "fmask" masked /\
    forall (band : string) (v : list Z),
      data !! band = Some v ->
      exists v' : list elt,
        masked !! band = Some v' /\
        length v' = Nat.min (length fmask) (length v) /\
        (length v = length fmask -> length v' = length v) /\
        (forall (i : nat) (x : Z) (m : bool),
           v !! i = Some x ->
           quality_mask HLS.pq_bin nodata fmask !! i = Some m ->
           v' !! i = Some (if m then nan else of_int x)) /\
        (forall (i : nat) (x c : Z),
           v !! i = Some x -> fmask !! i = Some c ->
           v' !! i
           = Some (if reject_mask HLS.pq_bin c || nodata_eq nodata c
                   then nan else of_int x)).
Proof.
  intros Hf. unfold HLS.apply_quality_mask. rewrite Hf.
  eexists. split; [reflexivity |].
  assert (Hin : is_Some
    (((fun band : list Z =>
         zip_with (fun (m : bool) (x : Z) => where_ (negb m) (of_int x) nan)
           (quality_mask HLS.pq_bin nodata fmask) band) <$> data)
       !! "fmask"%string)).
  { rewrite lookup_fmap, Hf. eexists; reflexivity. }
  split; [apply dom_fmap_L |].
  split; [exact Hin |].
  split.
  - intros Heq. rewrite Heq in Hin. unfold HLS.drop_vars in Hin.
    rewrite lookup_delete_eq in Hin. destruct Hin as [? Hx]. discriminate.
  - intros band v Hv. eexists. split.
    + rewrite lookup_fmap, Hv. reflexivity.
    + split; [| split; [| split]].
      * rewrite length_zip_with, quality_mask_length. reflexivity.
      * intros Hl. rewrite length_zip_with, quality_mask_length. lia.
      * intros i x m Hx Hm. rewrite lookup_zip_with, Hm, Hx. simpl.
        destruct m; reflexivity.
      * intros i x c Hx Hc.
        rewrite lookup_zip_with, quality_mask_lookup, Hc, Hx. simpl.
        destruct (reject_mask HLS.pq_bin c || nodata_eq nodata c);
          reflexivity.
Qed.
End MaskFrame.

Lemma apply_quality_mask_frame_witness :
exists masked : gmap string (list (@elt float64)),
  HLS.apply_quality_mask (Some 255)
    (<["fmask"%string := [0; 2; 255]]> {["red"%string := [300; 400; 500]]})
  = Some masked /\
  dom masked
  = dom (<["fmask"%string := [0; 2; 255]]>
           ({["red"%string := [300; 400; 500]]} : gmap string (list Z))) /\
  is_Some (masked !! "fmask"%string) /\
  masked <> HLS.drop_vars "fmask" masked /\
  forall (band : string) (v : list Z),
    (<["fmask"%string := [0; 2; 255]]> {["red"%string := [300; 400; 500]]}
      : gmap string (list Z)) !! band = Some v ->
    exists v' : list (@elt float64),
      masked !! band = Some v' /\
      length v' = Nat.min 3 (length v) /\
      (length v = 3%nat -> length v' = length v) /\
      (forall (i : nat) (x : Z) (m : bool),
         v !! i = Some x ->
         quality_mask HLS.pq_bin (Some 255) [0; 2; 255] !! i = Some m ->
         v' !! i = Some (if m then nan else of_int x)) /\
      (forall (i : nat) (x c : Z),
         v !! i = Some x -> [0; 2; 255] !! i = Some c ->
         v' !! i
         = Some (if reject_mask HLS.pq_bin c || nodata_eq (Some 255) c
                 then nan else of_int x)).
Proof.
apply (apply_quality_mask_frame (D := float64) (Some 255)
         (<["fmask"%string := [0; 2; 255]]> {["red"%string := [300; 400; 500]]})
         [0; 2; 255]).
reflexivity.
Defined.

(** ** Floats of small integers

    Below [2^prec] the integers are floats. *)

Lemma digits2_pos_log2 (m : positive) :
  Zpos (digits2_pos m) = Z.log2 (Zpos m) + 1.
Proof.
  induction m as [m IH | m IH |]; simpl; try reflexivity.
  - destruct m; simpl in *; lia.
  - destruct m; simpl in *; lia.
Qed.

Lemma shl_spec (m : positive) (n : Z) :
  0 <= n -> Zpos (shl m n) = Zpos m * 2 ^ n.
Proof.
  intros Hn. destruct n as [| q | q]; simpl; [lia | | lia]. clear Hn.
  induction q as [| q IH] using Pos.peano_ind.
  - simpl. lia.
  - rewrite Pos.iter_succ, Pos2Z.inj_succ, Z.pow_succ_r by lia.
    rewrite Pos2Z.inj_xO, IH. lia.
Qed.

Lemma shl_digits (m : positive) (n : Z) :
  0 <= n -> Zpos (digits2_pos (shl m n)) = Zpos (digits2_pos m) + n.
Proof.
  intros Hn. rewrite !digits2_pos_log2, shl_spec by exact Hn.
  rewrite Z.log2_mul_pow2 by lia. lia.
Qed.

Lemma shl_align_le (m : positive) (e e' : Z) :
  e' <= e -> shl_align m e e' = (shl m (e - e'), e').
Proof.
  intros H. unfold shl_align, shl.
  destruct (e' - e) as [| q | q] eqn:E.
  - replace (e - e') with 0 by lia. f_equal. lia.
  - lia.
  - replace (e - e') with (Zpos q) by lia. reflexivity.
Qed.

Lemma shl_align_ge (m : positive) (e e' : Z) :
  e <= e' -> shl_align m e e' = (m, e).
Proof.
  intros H. unfold shl_align. destruct (e' - e) eqn:E; try reflexivity. lia.
Qed.

Lemma iter_shr_1_exact (q : positive) (m : positive) :
  SpecFloat.iter_pos shr_1 q
    {| shr_m := Zpos (Pos.iter xO m q); shr_r := false; shr_s := false |}
  = {| shr_m := Zpos m; shr_r := false; shr_s := false |}.
Proof.
  revert m. induction q as [q IH | q IH |]; intros m; simpl.
  - rewrite IH, IH. reflexivity.
  - rewrite IH, IH. reflexivity.
  - reflexivity.
Qed.

Lemma shr_exact (m : positive) (e n : Z) :
  0 <= n ->
  shr {| shr_m := Zpos (shl m n); shr_r := false; shr_s := false |} e n
  = ({| shr_m := Zpos m; shr_r := false; shr_s := false |}, e + n).
Proof.
  intros Hn. destruct n as [| q | q]; simpl; [| | lia].
  - rewrite Z.add_0_r. reflexivity.
  - rewrite iter_shr_1_exact. reflexivity.
Qed.

Section IntegerFloats.
Variable f : float_format.

Lemma format_bounds : 2 <= prec f <= emax f.
Proof. destruct f; simpl; lia. Qed.

(** Rounding a mantissa of exactly [prec] digits followed by [n] zero bits
    is exact. *)
Lemma binary_round_aux_exact (s : bool) (m : positive) (e n : Z) :
  Zpos (digits2_pos m) = prec f -> 0 <= n ->
  3 - emax f - prec f <= e + n <= emax f - prec f ->
  binary_round_aux (prec f) (emax f) s (Zpos (shl m n)) e loc_Exact
  = S754_finite s m (e + n).
Proof.
  intros Hd Hn He. pose proof format_bounds as Hf.
  unfold binary_round_aux, shr_fexp, shr_record_of_loc, Zdigits2.
  rewrite shl_digits by exact Hn. unfold fexp, emin.
  replace (Z.max (Zpos (digits2_pos m) + n + e - prec f)
             (3 - emax f - prec f) - e) with n by lia.
  rewrite shr_exact by exact Hn. simpl.
  replace (Z.max (Zpos (digits2_pos m) + (e + n) - prec f)
             (3 - emax f - prec f) - (e + n)) with 0 by lia.
  simpl. destruct (e + n <=? emax f - prec f) eqn:E; [reflexivity |].
  apply Z.leb_gt in E. lia.
Qed.

(** The float of a positive integer below [2^prec]: its bits, shifted
    left to [prec] digits. *)
Lemma sf_of_int_pos (k : positive) :
  Zpos (digits2_pos k) <= prec f ->
  sf_of_int f (Zpos k)
  = S754_finite false (shl k (prec f - Zpos (digits2_pos k)))
      (Zpos (digits2_pos k) - prec f).
Proof.
  intros Hd. pose proof format_bounds as Hf.
  unfold sf_of_int, binary_normalize, binary_round.
  unfold fexp, emin. rewrite Z.add_0_r.
  replace (Z.max (Zpos (digits2_pos k) - prec f) (3 - emax f - prec f))
    with (Zpos (digits2_pos k) - prec f) by lia.
  rewrite shl_align_le by lia.
  replace (0 - (Zpos (digits2_pos k) - prec f))
    with (prec f - Zpos (digits2_pos k)) by lia.
  replace (shl k (prec f - Zpos (digits2_pos k)))
    with (shl (shl k (prec f - Zpos (digits2_pos k))) 0) at 1 by reflexivity.
  rewrite binary_round_aux_exact.
  - rewrite Z.add_0_r. reflexivity.
  - rewrite shl_digits by lia. lia.
  - lia.
  - lia.
Qed.

Lemma digits2_pos_bound (k : positive) :
  Zpos k < 2 ^ prec f -> Zpos (digits2_pos k) <= prec f.
Proof.
  intros H. pose proof format_bounds as Hf. rewrite digits2_pos_log2.
  apply Z.log2_lt_pow2 in H; lia.
Qed.

End IntegerFloats.

(** ** Rounding in the normal range *)

Lemma shr_1_m (mrs : shr_record) :
  0 <= shr_m mrs ->
  shr_m (shr_1 mrs) = shr_m mrs / 2.
Proof.
  destruct mrs as [m r s]. simpl.
  destruct m as [| [p | p |] |]; simpl; intros H; try lia;
    first [ apply (Z.div_unique _ _ _ 0); lia
          | apply (Z.div_unique _ _ _ 1); lia ].
Qed.

Lemma pow2_xO (p : positive) : 2 ^ Zpos p~0 = 2 ^ Zpos p * 2 ^ Zpos p.
Proof.
  replace (Zpos p~0) with (Zpos p + Zpos p) by lia.
  apply Z.pow_add_r; lia.
Qed.

Lemma pow2_xI (p : positive) : 2 ^ Zpos p~1 = 2 * (2 ^ Zpos p * 2 ^ Zpos p).
Proof.
  replace (Zpos p~1) with (Z.succ (Zpos p~0)) by lia.
  rewrite Z.pow_succ_r, pow2_xO by lia. reflexivity.
Qed.

Lemma iter_shr_1_m (p : positive) (mrs : shr_record) :
  0 <= shr_m mrs ->
  shr_m (SpecFloat.iter_pos shr_1 p mrs) = shr_m mrs / 2 ^ Zpos p.
Proof.
  revert mrs.
  induction p as [p IH | p IH |]; intros mrs H; simpl SpecFloat.iter_pos.
  - assert (H1 : 0 <= shr_m (shr_1 mrs))
      by (rewrite shr_1_m by exact H; apply Z.div_pos; lia).
    assert (H2 : 0 <= shr_m (SpecFloat.iter_pos shr_1 p (shr_1 mrs)))
      by (rewrite IH by exact H1; apply Z.div_pos; lia).
    rewrite IH by exact H2. rewrite IH by exact H1.
    rewrite shr_1_m by exact H.
    rewrite !Z.div_div by lia. rewrite pow2_xI. f_equal; ring.
  - assert (H2 : 0 <= shr_m (SpecFloat.iter_pos shr_1 p mrs))
      by (rewrite IH by exact H; apply Z.div_pos; lia).
    rewrite IH by exact H2. rewrite IH by exact H.
    rewrite Z.div_div by lia. rewrite pow2_xO. reflexivity.
  - rewrite shr_1_m by exact H. reflexivity.
Qed.

Lemma shr_m_spec (mrs : shr_record) (e n : Z) :
  0 <= n -> 0 <= shr_m mrs ->
  exists mrs' : shr_record,
    shr mrs e n = (mrs', e + n) /\ shr_m mrs' = shr_m mrs / 2 ^ n.
Proof.
  intros Hn Hm. destruct n as [| p | p]; [| | lia].
  - exists mrs. simpl. rewrite Z.add_0_r, Z.div_1_r. split; reflexivity.
  - eexists. split; [reflexivity |]. apply iter_shr_1_m. exact Hm.
Qed.

Lemma shr_record_of_loc_m (m : Z) (l : location) :
  shr_m (shr_record_of_loc m l) = m.
Proof. destruct l as [| []]; reflexivity. Qed.

Lemma round_nearest_even_bounds (m : Z) (l : location) :
  m <= round_nearest_even m l <= m + 1.
Proof.
  unfold round_nearest_even.
  destruct l as [| []]; try destruct (Z.even m); lia.
Qed.

Lemma Zpos_digits_bounds (m : positive) :
  2 ^ (Zpos (digits2_pos m) - 1) <= Zpos m < 2 ^ Zpos (digits2_pos m).
Proof.
  rewrite digits2_pos_log2.
  pose proof (Z.log2_spec (Zpos m) ltac:(lia)) as H.
  replace (Z.log2 (Zpos m) + 1 - 1) with (Z.log2 (Zpos m)) by lia.
  replace (Z.log2 (Zpos m) + 1) with (Z.succ (Z.log2 (Zpos m))) by lia.
  exact H.
Qed.

Lemma digits_of_bounds (m : positive) (d : Z) :
  2 ^ (d - 1) <= Zpos m < 2 ^ d -> 1 <= d -> Zpos (digits2_pos m) = d.
Proof.
  intros H Hd. rewrite digits2_pos_log2.
  rewrite (Z.log2_unique (Zpos m) (d - 1)); [lia | lia |].
  replace (Z.succ (d - 1)) with d by lia. exact H.
Qed.

Section Rounding.
Variable f : float_format.

Lemma binary_round_aux_normal (s : bool) (M : positive) (E : Z)
    (l : location) :
  prec f <= Zpos (digits2_pos M) ->
  3 - emax f - prec f <= Zpos (digits2_pos M) + E - prec f ->
  Zpos (digits2_pos M) + E + 1 <= emax f ->
  exists (m : positive) (e : Z),
    binary_round_aux (prec f) (emax f) s (Zpos M) E l = S754_finite s m e /\
    Zpos (digits2_pos m) = prec f /\
    Zpos (digits2_pos M) + E - prec f <= e
    <= Zpos (digits2_pos M) + E - prec f + 1.
Proof.
  intros Hd Hlo Hhi. pose proof (format_bounds f) as Hf.
  set (d := Zpos (digits2_pos M)) in *.
  unfold binary_round_aux, shr_fexp. unfold Zdigits2 at 1. fold d.
  unfold fexp at 1. unfold emin.
  replace (Z.max (d + E - prec f) (3 - emax f - prec f) - E)
    with (d - prec f) by lia.
  destruct (shr_m_spec (shr_record_of_loc (Zpos M) l) E (d - prec f))
    as (mrs1 & Hs1 & Hm1); [lia | rewrite shr_record_of_loc_m; lia |].
  rewrite Hs1. rewrite shr_record_of_loc_m in Hm1.
  pose proof (Zpos_digits_bounds M) as HM. fold d in HM.
  assert (HM1 : 2 ^ (prec f - 1) <= shr_m mrs1 < 2 ^ prec f).
  { rewrite Hm1. split.
    - apply Z.div_le_lower_bound; [lia |].
      rewrite <- Z.pow_add_r by lia.
      replace (d - prec f + (prec f - 1)) with (d - 1) by lia. lia.
    - apply Z.div_lt_upper_bound; [lia |].
      rewrite <- Z.pow_add_r by lia.
      replace (d - prec f + prec f) with d by lia. lia. }
  pose proof (round_nearest_even_bounds (shr_m mrs1)
                (loc_of_shr_record mrs1)) as HR.
  set (M2 := round_nearest_even (shr_m mrs1) (loc_of_shr_record mrs1)) in *.
  assert (Hp : 0 < 2 ^ (prec f - 1)) by (apply Z.pow_pos_nonneg; lia).
  assert (H2p : 2 ^ prec f = 2 * 2 ^ (prec f - 1)).
  { replace (prec f) with (Z.succ (prec f - 1)) at 1 by lia.
    apply Z.pow_succ_r. lia. }
  destruct M2 as [| m2 | m2] eqn:EM2; [lia | | lia].
  destruct (Z_lt_le_dec (Zpos m2) (2 ^ prec f)) as [Hlt | Hge].
  - (* no carry *)
    assert (Hd2 : Zpos (digits2_pos m2) = prec f)
      by (apply digits_of_bounds; lia).
    unfold Zdigits2. rewrite Hd2. unfold fexp, emin.
    replace (Z.max (prec f + (E + (d - prec f)) - prec f)
               (3 - emax f - prec f) - (E + (d - prec f))) with 0 by lia.
    simpl. destruct (E + (d - prec f) <=? emax f - prec f) eqn:El;
      [| apply Z.leb_gt in El; lia].
    exists m2, (E + (d - prec f)). split; [reflexivity |]. split; [exact Hd2 |].
    lia.
  - (* carry to the next power of two *)
    assert (Hm2 : Zpos m2 = 2 ^ prec f) by lia.
    assert (Hd2 : Zpos (digits2_pos m2) = prec f + 1).
    { apply digits_of_bounds; [| lia].
      replace (prec f + 1 - 1) with (prec f) by lia.
      rewrite Z.pow_add_r by lia. lia. }
    unfold Zdigits2. rewrite Hd2. unfold fexp, emin.
    replace (Z.max (prec f + 1 + (E + (d - prec f)) - prec f)
               (3 - emax f - prec f) - (E + (d - prec f))) with 1 by lia.
    unfold shr_record_of_loc.
    destruct (shr_m_spec {| shr_m := Zpos m2; shr_r := false; shr_s := false |}
                (E + (d - prec f)) 1) as (mrs3 & Hs3 & Hm3); [lia | simpl; lia |].
    rewrite Hs3. simpl shr_m in Hm3. rewrite Hm2, H2p in Hm3.
    change (2 ^ 1) with 2 in Hm3.
    rewrite Z.mul_comm, Z.div_mul in Hm3 by lia.
    destruct (shr_m mrs3) as [| m3 | m3] eqn:Em3; [lia | | lia].
    destruct (E + (d - prec f) + 1 <=? emax f - prec f) eqn:El;
      [| apply Z.leb_gt in El; lia].
    exists m3, (E + (d - prec f) + 1). split; [reflexivity |].
    split; [apply digits_of_bounds; lia | lia].
Qed.
End Rounding.

Section NormalRange.
Variable f : float_format.

Lemma binary_round_normal (s : bool) (M : positive) (E : Z) :
  -120 <= Zpos (digits2_pos M) + E <= 120 ->
  exists (m : positive) (e : Z),
    binary_round (prec f) (emax f) s M E = S754_finite s m e /\
    Zpos (digits2_pos m) = prec f /\
    Zpos (digits2_pos M) + E <= e + prec f <= Zpos (digits2_pos M) + E + 1.
Proof.
  intros Hr. pose proof (format_bounds f) as Hf.
  assert (He : 128 <= emax f) by (destruct f; simpl; lia).
  unfold binary_round, fexp, emin.
  replace (Z.max (Zpos (digits2_pos M) + E - prec f) (3 - emax f - prec f))
    with (Zpos (digits2_pos M) + E - prec f) by lia.
  destruct (Z_le_gt_dec (Zpos (digits2_pos M)) (prec f)) as [Hle | Hgt].
  - rewrite shl_align_le by lia.
    replace (shl M (E - (Zpos (digits2_pos M) + E - prec f)))
      with (shl (shl M (prec f - Zpos (digits2_pos M))) 0)
      by (simpl; f_equal; lia).
    rewrite binary_round_aux_exact.
    + eexists. eexists. split; [reflexivity |].
      rewrite shl_digits by lia. split; lia.
    + rewrite shl_digits by lia. lia.
    + lia.
    + lia.
  - rewrite shl_align_ge by lia.
    destruct (binary_round_aux_normal f s M E loc_Exact)
      as (m & e & H & Hd & Hb); [lia | lia | lia |].
    exists m, e. split; [exact H |]. split; [exact Hd | lia].
Qed.

Lemma normal_weaken (s : bool) (lo hi lo' hi' : Z) (x : spec_float) :
  normal f s lo hi x -> lo' <= lo -> hi <= hi' -> normal f s lo' hi' x.
Proof.
  intros (m & e & H & Hd & Hb) Hlo Hhi. exists m, e.
  split; [exact H |]. split; [exact Hd | lia].
Qed.

(** The float of a nonzero integer of at most [n] bits. *)
Lemma sf_of_int_normal (n k : Z) :
  k <> 0 -> Z.abs k < 2 ^ n -> n <= 119 ->
  normal f (k <? 0) 1 (n + 1) (sf_of_int f k).
Proof.
  intros Hk Hn Hn'. unfold sf_of_int, binary_normalize.
  destruct k as [| k | k]; [lia | |].
  - assert (Hd : Zpos (digits2_pos k) <= n).
    { rewrite digits2_pos_log2.
      assert (Z.log2 (Zpos k) < n) by (apply Z.log2_lt_pow2; lia). lia. }
    destruct (binary_round_normal false k 0) as (m & e & H & Hm & He); [lia |].
    exists m, e. split; [exact H |]. split; [exact Hm | lia].
  - assert (Hd : Zpos (digits2_pos k) <= n).
    { rewrite digits2_pos_log2.
      assert (Z.log2 (Zpos k) < n) by (apply Z.log2_lt_pow2; lia). lia. }
    destruct (binary_round_normal true k 0) as (m & e & H & Hm & He); [lia |].
    exists m, e. split; [exact H |]. split; [exact Hm | lia].
Qed.

Lemma digits2_pos_mul (a b : positive) :
  Zpos (digits2_pos a) + Zpos (digits2_pos b) - 1
  <= Zpos (digits2_pos (a * b))
  <= Zpos (digits2_pos a) + Zpos (digits2_pos b).
Proof.
  rewrite !digits2_pos_log2, Pos2Z.inj_mul.
  pose proof (Z.log2_mul_below (Zpos a) (Zpos b) ltac:(lia) ltac:(lia)).
  pose proof (Z.log2_mul_above (Zpos a) (Zpos b) ltac:(lia) ltac:(lia)).
  lia.
Qed.

Lemma SFmul_normal (s1 s2 : bool) (lo1 hi1 lo2 hi2 : Z)
    (x y : spec_float) :
  normal f s1 lo1 hi1 x -> normal f s2 lo2 hi2 y ->
  -120 <= lo1 + lo2 - 1 -> hi1 + hi2 <= 120 ->
  normal f (xorb s1 s2) (lo1 + lo2 - 1) (hi1 + hi2 + 1)
    (SFmul (prec f) (emax f) x y).
Proof.
  intros (m1 & e1 & -> & Hd1 & Hb1) (m2 & e2 & -> & Hd2 & Hb2) Hlo Hhi.
  pose proof (format_bounds f) as Hf.
  assert (He : 128 <= emax f) by (destruct f; simpl; lia).
  pose proof (digits2_pos_mul m1 m2) as Hd.
  unfold SFmul.
  destruct (binary_round_aux_normal f (xorb s1 s2) (m1 * m2) (e1 + e2)
              loc_Exact)
    as (m & e & H & Hm & Hb); [lia | lia | lia |].
  exists m, e. split; [exact H |]. split; [exact Hm | lia].
Qed.

Lemma digits2_pos_add (a b : positive) :
  Z.max (Zpos (digits2_pos a)) (Zpos (digits2_pos b))
  <= Zpos (digits2_pos (a + b))
  <= Z.max (Zpos (digits2_pos a)) (Zpos (digits2_pos b)) + 1.
Proof.
  pose proof (Zpos_digits_bounds a) as Ha.
  pose proof (Zpos_digits_bounds b) as Hb.
  rewrite (digits2_pos_log2 (a + b)), Pos2Z.inj_add.
  split.
  - rewrite !digits2_pos_log2.
    pose proof (Z.log2_le_mono (Zpos a) (Zpos a + Zpos b) ltac:(lia)).
    pose proof (Z.log2_le_mono (Zpos b) (Zpos a + Zpos b) ltac:(lia)).
    lia.
  - assert (H : Z.log2 (Zpos a + Zpos b)
                < Z.max (Zpos (digits2_pos a)) (Zpos (digits2_pos b)) + 1).
    { apply Z.log2_lt_pow2; [lia |].
      rewrite Z.pow_add_r by lia. change (2 ^ 1) with 2.
      assert (2 ^ Zpos (digits2_pos a)
              <= 2 ^ Z.max (Zpos (digits2_pos a)) (Zpos (digits2_pos b)))
        by (apply Z.pow_le_mono_r; lia).
      assert (2 ^ Zpos (digits2_pos b)
              <= 2 ^ Z.max (Zpos (digits2_pos a)) (Zpos (digits2_pos b)))
        by (apply Z.pow_le_mono_r; lia).
      lia. }
    lia.
Qed.

Lemma SFadd_normal (lo1 hi1 lo2 hi2 : Z) (x y : spec_float) :
  normal f false lo1 hi1 x -> normal f false lo2 hi2 y ->
  -120 <= Z.max lo1 lo2 -> Z.max hi1 hi2 <= 119 ->
  normal f false (Z.max lo1 lo2) (Z.max hi1 hi2 + 2)
    (SFadd (prec f) (emax f) x y).
Proof.
  intros (m1 & e1 & -> & Hd1 & Hb1) (m2 & e2 & -> & Hd2 & Hb2) Hlo Hhi.
  pose proof (format_bounds f) as Hf.
  unfold SFadd. rewrite !shl_align_le by lia. simpl fst. unfold cond_Zopp.
  change (Zpos (shl m1 (e1 - Z.min e1 e2)) + Zpos (shl m2 (e2 - Z.min e1 e2)))
    with (Zpos (shl m1 (e1 - Z.min e1 e2) + shl m2 (e2 - Z.min e1 e2))).
  unfold binary_normalize.
  pose proof (digits2_pos_add (shl m1 (e1 - Z.min e1 e2))
                (shl m2 (e2 - Z.min e1 e2))) as Hd.
  rewrite !shl_digits in Hd by lia.
  destruct (binary_round_normal false
              (shl m1 (e1 - Z.min e1 e2) + shl m2 (e2 - Z.min e1 e2))
              (Z.min e1 e2)) as (m & e & H & Hm & Hb); [lia |].
  exists m, e. split; [exact H |]. split; [exact Hm | lia].
Qed.
End NormalRange.

Section MixedSigns.
Variable f : float_format.

Lemma digits2_pos_le (a b : positive) :
  Zpos a <= Zpos b -> Zpos (digits2_pos a) <= Zpos (digits2_pos b).
Proof.
  intros H. rewrite !digits2_pos_log2.
  pose proof (Z.log2_le_mono (Zpos a) (Zpos b) H). lia.
Qed.

(** A positive plus a negative number: zero, or a number of either sign
    that is not larger in magnitude than the larger of the two. *)
Lemma SFadd_mixed (lo1 hi1 lo2 hi2 : Z) (x y : spec_float) :
  normal f false lo1 hi1 x -> normal f true lo2 hi2 y ->
  -60 <= Z.min lo1 lo2 -> Z.max hi1 hi2 <= 119 ->
  SFadd (prec f) (emax f) x y = S754_zero false \/
  exists s : bool,
    normal f s (-120) (Z.max hi1 hi2 + 1) (SFadd (prec f) (emax f) x y).
Proof.
  intros (m1 & e1 & -> & Hd1 & Hb1) (m2 & e2 & -> & Hd2 & Hb2) Hlo Hhi.
  pose proof (format_bounds f) as Hf.
  assert (Hp : prec f <= 53) by (destruct f; simpl; lia).
  unfold SFadd. rewrite !shl_align_le by lia. simpl fst. unfold cond_Zopp.
  set (a1 := shl m1 (e1 - Z.min e1 e2)).
  set (a2 := shl m2 (e2 - Z.min e1 e2)).
  assert (Ha1 : Zpos (digits2_pos a1) = prec f + (e1 - Z.min e1 e2))
    by (unfold a1; rewrite shl_digits by lia; lia).
  assert (Ha2 : Zpos (digits2_pos a2) = prec f + (e2 - Z.min e1 e2))
    by (unfold a2; rewrite shl_digits by lia; lia).
  destruct (Zpos a1 + - Zpos a2) as [| M | M] eqn:EM; unfold binary_normalize.
  - left. reflexivity.
  - right. exists false.
    pose proof (digits2_pos_le M a1 ltac:(lia)) as HM.
    destruct (binary_round_normal f false M (Z.min e1 e2))
      as (m & e & H & Hm & Hb); [lia |].
    exists m, e. split; [exact H |]. split; [exact Hm | lia].
  - right. exists true.
    pose proof (digits2_pos_le M a2 ltac:(lia)) as HM.
    destruct (binary_round_normal f true M (Z.min e1 e2))
      as (m & e & H & Hm & Hb); [lia |].
    exists m, e. split; [exact H |]. split; [exact Hm | lia].
Qed.
End MixedSigns.

(** ** Operations on numbers never give NaN *)

Lemma shr_nonneg (mrs : shr_record) (e n : Z) :
  0 <= shr_m mrs -> 0 <= shr_m (fst (shr mrs e n)).
Proof.
  intros H. destruct n as [| p | p]; simpl; try exact H.
  rewrite iter_shr_1_m by exact H. apply Z.div_pos; lia.
Qed.

Lemma binary_round_aux_not_nan (p em : Z) (s : bool) (m e : Z)
    (l : location) :
  0 <= m -> sf_isnan (binary_round_aux p em s m e l) = false.
Proof.
  intros Hm. unfold binary_round_aux, shr_fexp.
  pose proof (shr_nonneg (shr_record_of_loc m l) e
                (fexp p em (Zdigits2 m + e) - e)) as H1.
  rewrite shr_record_of_loc_m in H1. specialize (H1 Hm).
  destruct (shr (shr_record_of_loc m l) e (fexp p em (Zdigits2 m + e) - e))
    as [mrs1 e1]. simpl fst in H1.
  pose proof (round_nearest_even_bounds (shr_m mrs1)
                (loc_of_shr_record mrs1)) as HR.
  set (m2 := round_nearest_even (shr_m mrs1) (loc_of_shr_record mrs1)) in *.
  pose proof (shr_nonneg (shr_record_of_loc m2 loc_Exact) e1
                (fexp p em (Zdigits2 m2 + e1) - e1)) as H2.
  rewrite shr_record_of_loc_m in H2. specialize (H2 ltac:(lia)).
  destruct (shr (shr_record_of_loc m2 loc_Exact) e1
              (fexp p em (Zdigits2 m2 + e1) - e1)) as [mrs2 e2].
  simpl fst in H2.
  destruct (shr_m mrs2) as [| q | q]; [reflexivity | | lia].
  destruct (e2 <=? em - p); reflexivity.
Qed.

Lemma binary_normalize_not_nan (p em : Z) (m e : Z) (sz : bool) :
  sf_isnan (binary_normalize p em m e sz) = false.
Proof.
  unfold binary_normalize, binary_round.
  destruct m as [| q | q]; [reflexivity | |];
    destruct (shl_align q e (fexp p em (Zpos (digits2_pos q) + e)))
      as [mz ez]; apply binary_round_aux_not_nan; lia.
Qed.

Lemma SFsub_not_nan (p em : Z) (x y : spec_float) :
  sf_finite_or_zero x = true -> sf_finite_or_zero y = true ->
  sf_isnan (SFsub p em x y) = false.
Proof.
  destruct x as [[] | | | sx mx ex], y as [[] | | | sy my ey];
    try discriminate; intros _ _; try reflexivity.
  unfold SFsub. apply binary_normalize_not_nan.
Qed.

Lemma SFadd_not_nan (p em : Z) (x y : spec_float) :
  sf_finite_or_zero x = true -> sf_finite_or_zero y = true ->
  sf_isnan (SFadd p em x y) = false.
Proof.
  destruct x as [[] | | | sx mx ex], y as [[] | | | sy my ey];
    try discriminate; intros _ _; try reflexivity.
  unfold SFadd. apply binary_normalize_not_nan.
Qed.

Lemma SFmul_not_nan (p em : Z) (c x : spec_float) :
  sf_pos_finite c = true -> sf_isnan x = false ->
  sf_isnan (SFmul p em c x) = false.
Proof.
  destruct c as [| | | [] mc ec]; try discriminate.
  destruct x as [sx | sx | | sx mx ex]; try discriminate; intros _ _;
    try reflexivity.
  unfold SFmul. apply binary_round_aux_not_nan. lia.
Qed.

Lemma SFdiv_not_nan (p em : Z) (x y : spec_float) :
  sf_isnan x = false -> sf_pos_finite y = true ->
  sf_isnan (SFdiv p em x y) = false.
Proof.
  destruct y as [| | | [] my ey]; try discriminate.
  destruct x as [sx | sx | | sx mx ex]; try discriminate; intros _ _;
    try reflexivity.
  unfold SFdiv, SFdiv_core_binary.
  set (m' := match _ - _ - _ with
             | 0 => Zpos mx | Zpos _ => Z.shiftl (Zpos mx) _ | Zneg _ => 0
             end).
  assert (Hm' : 0 <= m').
  { unfold m'. destruct (_ - _ - _); try lia. apply Z.shiftl_nonneg. lia. }
  pose proof (Z.div_pos m' (Zpos my) Hm' ltac:(lia)) as Hq.
  unfold Z.div in Hq.
  change (IntDef.Z.div_eucl m' (Zpos my)) with (Z.div_eucl m' (Zpos my)).
  destruct (Z.div_eucl m' (Zpos my)) as [q r]. simpl fst in Hq.
  apply binary_round_aux_not_nan. exact Hq.
Qed.

(** ** Comparisons of positive floats *)

Lemma SFcompare_pos_antisym (m1 : positive) (e1 : Z) (m2 : positive) (e2 : Z) :
  SFcompare (S754_finite false m2 e2) (S754_finite false m1 e1)
  = option_map CompOpp
      (SFcompare (S754_finite false m1 e1) (S754_finite false m2 e2)).
Proof.
  unfold SFcompare. simpl. rewrite (Z.compare_antisym e1 e2).
  destruct (e1 ?= e2); simpl; try reflexivity.
  rewrite (Pos.compare_cont_antisym m1 m2 Eq). simpl.
  destruct (Pos.compare_cont Eq m1 m2); reflexivity.
Qed.

Lemma SFltb_pos_asym (m1 : positive) (e1 : Z) (m2 : positive) (e2 : Z) :
  SFltb (S754_finite false m1 e1) (S754_finite false m2 e2) = true ->
  SFltb (S754_finite false m2 e2) (S754_finite false m1 e1) = false.
Proof.
  unfold SFltb. rewrite (SFcompare_pos_antisym m1 e1 m2 e2).
  destruct (SFcompare (S754_finite false m1 e1) (S754_finite false m2 e2))
    as [[] |]; simpl; congruence.
Qed.

Lemma SFltb_pos_eq (m1 : positive) (e1 : Z) (m2 : positive) (e2 : Z) :
  SFltb (S754_finite false m1 e1) (S754_finite false m2 e2) = false ->
  SFltb (S754_finite false m2 e2) (S754_finite false m1 e1) = false ->
  S754_finite false m1 e1 = S754_finite false m2 e2.
Proof.
  unfold SFltb. rewrite (SFcompare_pos_antisym m1 e1 m2 e2).
  unfold SFcompare.
  destruct (e1 ?= e2) eqn:Ee; simpl; try discriminate.
  destruct (Pos.compare_cont Eq m1 m2) eqn:Em; simpl; try discriminate.
  intros _ _. apply Z.compare_eq in Ee. apply Pos.compare_eq in Em.
  congruence.
Qed.

(** ** Index Calculator: scaling *)

Lemma normal_pos_finite (f : float_format) (lo hi : Z) (x : spec_float) :
  normal f false lo hi x -> sf_pos_finite x = true.
Proof. intros (m & e & -> & _). reflexivity. Qed.

Lemma sf_lit_hls_scale_normal (f : float_format) :
  normal f false (-13) (-13) (sf_lit f 0.0001).
Proof.
  destruct f; eexists; eexists;
    (split; [vm_compute; reflexivity | split; [reflexivity | simpl; lia]]).
Qed.

Lemma sf_lit_landsat_scale_normal (f : float_format) :
  normal f false (-15) (-15) (sf_lit f 0.0000275).
Proof.
  destruct f; eexists; eexists;
    (split; [vm_compute; reflexivity | split; [reflexivity | simpl; lia]]).
Qed.

Lemma sf_lit_landsat_offset_normal (f : float_format) :
  normal f true (-2) (-2) (sf_lit f (-0.2)).
Proof.
  destruct f; eexists; eexists;
    (split; [vm_compute; reflexivity | split; [reflexivity | simpl; lia]]).
Qed.

Lemma sf_one_normal (f : float_format) : normal f false 1 1 (sf_of_int f 1).
Proof.
  destruct f; eexists; eexists;
    (split; [vm_compute; reflexivity | split; [reflexivity | simpl; lia]]).
Qed.

Ltac ieee_ops :=
  cbv beta iota delta
    [ieee elt of_int lit nan add sub mul div gtb eqb isnan
     where_ clip np_max np_min].

Section HLSScaling.
Variable f : float_format.
Let D : dtype := ieee f.
Local Existing Instance D.
Local Open Scope dt_scope.

(** The HLS scaling of a 16-bit band element: "no value" unless the raw
    value is above 0, and then the scaled value, a positive number between
    [2^-14] and [2^5]. *)
Lemma hls_scale_offset_spec (raw : Z) :
  (-32768 <= raw <= 32767)%Z ->
  HLS.scale_offset (of_int raw)
  = (if (0 <? raw)%Z then of_int raw * lit 0.0001 else nan) /\
  ((0 < raw)%Z -> normal f false (-13) 5 (HLS.scale_offset (of_int raw))).
Proof.
  intros Hraw. unfold HLS.scale_offset. subst D. ieee_ops.
  pose proof (sf_lit_hls_scale_normal f) as Hc.
  destruct (Z.eq_dec raw 0) as [-> | Hne].
  - destruct Hc as (mc & ec & -> & _). split; [reflexivity | lia].
  - pose proof (sf_of_int_normal f 16 raw Hne ltac:(lia) ltac:(lia)) as Hr.
    pose proof (SFmul_normal f _ _ _ _ _ _ _ _ Hr Hc ltac:(lia) ltac:(lia))
      as Hb.
    rewrite xorb_false_r in Hb.
    destruct Hb as (m & e & Hb & Hd & He). rewrite Hb.
    destruct (0 <? raw)%Z eqn:E.
    + apply Z.ltb_lt in E.
      assert (Hs : (raw <? 0)%Z = false) by (apply Z.ltb_ge; lia).
      rewrite Hs. split; [reflexivity |]. intros _.
      exists m, e. split; [reflexivity |]. split; [exact Hd | lia].
    + apply Z.ltb_ge in E.
      assert (Hs : (raw <? 0)%Z = true) by (apply Z.ltb_lt; lia).
      rewrite Hs. split; [reflexivity | lia].
Qed.

(** The two-band denominator of two valid scaled values is a positive
    number (between 1 and [2^9]): it is never zero. *)
Lemma evi2_denominator_normal (x y : spec_float) :
  normal f false (-120) 5 x -> normal f false (-120) 5 y ->
  normal f false 1 9
    (SFadd (prec f) (emax f) (SFadd (prec f) (emax f) x y) (sf_of_int f 1)).
Proof.
  intros Hx Hy.
  pose proof (SFadd_normal f _ _ _ _ _ _ Hx Hy ltac:(lia) ltac:(lia)) as Hxy.
  pose proof (SFadd_normal f _ _ _ _ _ _ Hxy (sf_one_normal f)
                ltac:(lia) ltac:(lia)) as Hd.
  apply (normal_weaken f _ _ _ _ _ _ Hd); lia.
Qed.
End HLSScaling.

Lemma SFltb_pos_irrefl (m : positive) (e : Z) :
  SFltb (S754_finite false m e) (S754_finite false m e) = false.
Proof.
  unfold SFltb, SFcompare. rewrite Z.compare_refl, Pos.compare_cont_refl.
  reflexivity.
Qed.

Section LandsatScaling.
Variable f : float_format.
Let D : dtype := ieee f.
Local Existing Instance D.
Local Open Scope dt_scope.

(** The scaled and offset value of a nonzero 16-bit raw value: zero, or a
    number of either sign below [2^4] in magnitude. *)
Lemma landsat_scaled_cases (raw : Z) :
  (1 <= raw <= 65535)%Z ->
  of_int raw * lit 0.0000275 + lit (-0.2) = S754_zero false \/
  exists s : bool,
    normal f s (-120) 4 (of_int raw * lit 0.0000275 + lit (-0.2)).
Proof.
  intros Hraw. subst D. ieee_ops.
  pose proof (sf_of_int_normal f 16 raw ltac:(lia) ltac:(lia) ltac:(lia))
    as Hr.
  assert (Hs : (raw <? 0)%Z = false) by (apply Z.ltb_ge; lia).
  rewrite Hs in Hr.
  pose proof (SFmul_normal f _ _ _ _ _ _ _ _ Hr
                (sf_lit_landsat_scale_normal f) ltac:(lia) ltac:(lia)) as Ht.
  simpl xorb in Ht.
  destruct (SFadd_mixed f _ _ _ _ _ _ Ht (sf_lit_landsat_offset_normal f)
              ltac:(lia) ltac:(lia)) as [Hz | [s Hn]].
  - left. exact Hz.
  - right. exists s. apply (normal_weaken f _ _ _ _ _ _ Hn); lia.
Qed.

(** Clipping to [0, 1] of a value that is zero or a number. *)
Lemma clip_unit_cases (s : spec_float) :
  (s = S754_zero false \/ exists sg : bool, normal f sg (-120) 4 s) ->
  isnan (clip s (of_int 0) (of_int 1)) = false /\
  (of_int 0 > clip s (of_int 0) (of_int 1)) = false /\
  (clip s (of_int 0) (of_int 1) > of_int 1) = false /\
  clip s (of_int 0) (of_int 1)
  = (if of_int 0 > s then of_int 0
     else if s > of_int 1 then of_int 1 else s) /\
  (clip s (of_int 0) (of_int 1) = S754_zero false \/
   normal f false (-120) 4 (clip s (of_int 0) (of_int 1))).
Proof.
  intros Hs. subst D. ieee_ops.
  pose proof (sf_one_normal f) as H1.
  change (sf_of_int f 0) with (S754_zero false).
  destruct H1 as (m1 & e1 & H1 & Hd1 & Hb1). rewrite H1.
  destruct Hs as [-> | [[] (m & e & -> & Hd & Hb)]].
  - repeat split; try reflexivity. left. reflexivity.
  - repeat split; try reflexivity. left. reflexivity.
  - cbn [sf_isnan orb].
    change (SFltb (S754_zero false) (S754_finite false m e)) with true.
    change (SFltb (S754_finite false m e) (S754_zero false)) with false.
    cbv beta iota.
    destruct (SFltb (S754_finite false m e) (S754_finite false m1 e1)) eqn:E;
      cbn [sf_isnan orb]; cbv beta iota.
    + rewrite (SFltb_pos_asym _ _ _ _ E). repeat split; try reflexivity.
      right. exists m, e. split; [reflexivity |]. split; [exact Hd | lia].
    + rewrite SFltb_pos_irrefl.
      destruct (SFltb (S754_finite false m1 e1) (S754_finite false m e))
        eqn:E'.
      * repeat split; try reflexivity.
        right. exists m1, e1. split; [reflexivity |]. split; [exact Hd1 | lia].
      * rewrite (SFltb_pos_eq _ _ _ _ E E'). repeat split; try reflexivity.
        right. exists m1, e1. split; [reflexivity |]. split; [exact Hd1 | lia].
Qed.

Lemma landsat_scale_offset_nonzero (raw : Z) :
  (1 <= raw <= 65535)%Z ->
  Landsat.scale_offset (of_int raw)
  = clip (of_int raw * lit 0.0000275 + lit (-0.2)) (of_int 0) (of_int 1).
Proof.
  intros Hraw. unfold Landsat.scale_offset.
  pose proof (sf_of_int_normal f 16 raw ltac:(lia) ltac:(lia) ltac:(lia))
    as (m & e & Hr & _).
  change (@of_int D raw) with (sf_of_int f raw). rewrite Hr.
  destruct (raw <? 0)%Z; reflexivity.
Qed.

(** C10. Landsat scaling of a 16-bit band element, in binary32 and in
    binary64: raw 0 yields "no value"; every other raw value yields a
    number [y] with neither [y < 0] nor [y > 1], namely 0 when
    [raw * 0.0000275 - 0.2] is negative, 1 when it is above 1 and the
    scaled value itself otherwise. *)
Theorem landsat_scale_offset_spec (raw : Z) :
  (0 <= raw <= 65535)%Z ->
  (raw = 0%Z -> Landsat.scale_offset (of_int raw) = nan) /\
  (raw <> 0%Z ->
   isnan (Landsat.scale_offset (of_int raw)) = false /\
   (of_int 0 > Landsat.scale_offset (of_int raw)) = false /\
   (Landsat.scale_offset (of_int raw) > of_int 1) = false /\
   Landsat.scale_offset (of_int raw)
   = (if of_int 0 > of_int raw * lit 0.0000275 + lit (-0.2) then of_int 0
      else if of_int raw * lit 0.0000275 + lit (-0.2) > of_int 1
           then of_int 1
           else of_int raw * lit 0.0000275 + lit (-0.2))).
Proof.
  intros Hraw. split.
  - intros ->. reflexivity.
  - intros Hne. rewrite landsat_scale_offset_nonzero by lia.
    destruct (clip_unit_cases _ (landsat_scaled_cases raw ltac:(lia)))
      as (H1 & H2 & H3 & H4 & _).
    repeat split; assumption.
Qed.

(** What the Landsat scaling returns for a 16-bit raw value: "no value",
    zero, or a positive number below [2^4]. *)
Lemma landsat_scale_offset_cases (raw : Z) :
  (0 <= raw <= 65535)%Z ->
  Landsat.scale_offset (of_int raw) = nan \/
  Landsat.scale_offset (of_int raw) = S754_zero false \/
  normal f false (-120) 4 (Landsat.scale_offset (of_int raw)).
Proof.
  intros Hraw. destruct (Z.eq_dec raw 0) as [-> | Hne].
  - left. reflexivity.
  - right. rewrite landsat_scale_offset_nonzero by lia.
    destruct (clip_unit_cases _ (landsat_scaled_cases raw ltac:(lia)))
      as (_ & _ & _ & _ & H). exact H.
Qed.

(** The two-band denominator of two scaled values that are zero or
    positive numbers is a positive number. *)
Lemma evi2_denominator_pos (x y : spec_float) :
  x = S754_zero false \/ normal f false (-120) 5 x ->
  y = S754_zero false \/ normal f false (-120) 5 y ->
  sf_pos_finite
    (SFadd (prec f) (emax f) (SFadd (prec f) (emax f) x y) (sf_of_int f 1))
  = true.
Proof.
  pose proof (sf_one_normal f) as H1.
  intros [-> | Hx] [-> | Hy].
  - destruct H1 as (m1 & e1 & -> & _). reflexivity.
  - assert (Hxy : SFadd (prec f) (emax f) (S754_zero false) y = y)
      by (destruct Hy as (m & e & -> & _); reflexivity).
    rewrite Hxy. apply (normal_pos_finite f 1 7).
    apply (SFadd_normal f _ _ _ _ _ _ Hy H1); lia.
  - assert (Hxy : SFadd (prec f) (emax f) x (S754_zero false) = x)
      by (destruct Hx as (m & e & -> & _); reflexivity).
    rewrite Hxy. apply (normal_pos_finite f 1 7).
    apply (SFadd_normal f _ _ _ _ _ _ Hx H1); lia.
  - apply (normal_pos_finite f 1 9).
    apply evi2_denominator_normal; assumption.
Qed.

Lemma landsat_scale_offset_shape (raw : Z) :
  (0 <= raw <= 65535)%Z ->
  Landsat.scale_offset (of_int raw) = nan \/
  sf_nonneg_finite (Landsat.scale_offset (of_int raw)) = true /\
  sf_pos_finite (Landsat.scale_offset (of_int raw)
                 + Landsat.scale_offset (of_int raw) + of_int 1) = true.
Proof.
  intros Hraw.
  destruct (landsat_scale_offset_cases raw Hraw) as [Hn | Hy];
    [left; exact Hn | right].
  assert (Hy' : Landsat.scale_offset (of_int raw) = S754_zero false \/
                normal f false (-120) 5 (Landsat.scale_offset (of_int raw))).
  { destruct Hy as [Hz | Hn]; [left; exact Hz | right].
    apply (normal_weaken f _ _ _ _ _ _ Hn); lia. }
  split.
  - destruct Hy as [-> | (m & e & -> & _)]; reflexivity.
  - apply evi2_denominator_pos; exact Hy'.
Qed.
End LandsatScaling.

Lemma landsat_scale_offset_spec_witness :
  Landsat.scale_offset (D := ieee binary32) (of_int 5000) = S754_zero false.
Proof.
  destruct (landsat_scale_offset_spec binary32 5000) as [_ H]; [lia |].
  destruct H as (_ & _ & _ & H); [lia |].
  etransitivity; [exact H |]. vm_compute. reflexivity.
Defined.

(** ** Index Calculator: zero identity *)

Lemma sf_of_int_0 (f : float_format) : sf_of_int f 0 = S754_zero false.
Proof. reflexivity. Qed.

Lemma SFsub_diag (p em : Z) (x : spec_float) :
  sf_nonneg_finite x = true -> SFsub p em x x = S754_zero false.
Proof.
  destruct x as [[] | [] | | [] m e]; try discriminate; intros _.
  - reflexivity.
  - unfold SFsub. rewrite Z.sub_diag. reflexivity.
Qed.

Lemma SFeqb_nonneg_eq (x y : spec_float) :
  sf_nonneg_finite x = true -> sf_nonneg_finite y = true ->
  SFeqb x y = true -> x = y.
Proof.
  destruct x as [[] | [] | | [] m e]; try discriminate;
    destruct y as [[] | [] | | [] n k]; try discriminate; intros _ _;
    unfold SFeqb, SFcompare; try discriminate; try reflexivity.
  destruct (e ?= k) eqn:Ee; try discriminate.
  destruct (Pos.compare_cont Eq m n) eqn:Em; try discriminate.
  intros _. apply Z.compare_eq in Ee. apply Pos.compare_eq in Em.
  congruence.
Qed.

Lemma sf_pos_finite_nonneg (x : spec_float) :
  sf_pos_finite x = true -> sf_nonneg_finite x = true.
Proof. destruct x as [[] | [] | | [] m e]; simpl; congruence. Qed.

Lemma sf_lit_2_4_pos (f : float_format) : sf_pos_finite (sf_lit f 2.4) = true.
Proof. destruct f; vm_compute; reflexivity. Qed.

(** Both ways of writing the two-band formula give +0 on equal scaled
    values whose denominator is a positive number. *)
Lemma evi2_formula_zero (f : float_format) (y : spec_float) :
  sf_nonneg_finite y = true ->
  sf_pos_finite (SFadd (prec f) (emax f) (SFadd (prec f) (emax f) y y)
                   (sf_of_int f 1)) = true ->
  SFmul (prec f) (emax f) (sf_lit f 2.4)
    (SFdiv (prec f) (emax f) (SFsub (prec f) (emax f) y y)
       (SFadd (prec f) (emax f) (SFadd (prec f) (emax f) y y) (sf_of_int f 1)))
  = S754_zero false /\
  SFdiv (prec f) (emax f)
    (SFmul (prec f) (emax f) (sf_lit f 2.4) (SFsub (prec f) (emax f) y y))
    (SFadd (prec f) (emax f) (SFadd (prec f) (emax f) y y) (sf_of_int f 1))
  = S754_zero false.
Proof.
  intros Hy Hden. rewrite (SFsub_diag _ _ y Hy).
  pose proof (sf_lit_2_4_pos f) as Hc.
  destruct (sf_lit f 2.4) as [| | | [] mc ec]; try discriminate.
  destruct (SFadd _ _ (SFadd _ _ y y) _) as [| | | [] md ed];
    try discriminate.
  split; reflexivity.
Qed.

Section ZeroIdentity.
Variable f : float_format.
Let D : dtype := ieee f.
Local Existing Instance D.
Local Open Scope dt_scope.

(** C8. Two-band index on 16-bit HLS band elements, in binary32 and in
    binary64: when the scaled near-infrared value is valid and equal to
    the scaled red value, the index is the number zero (+0), not "no
    value" -- for the formula of either HLS notebook. *)
Theorem evi2_zero_identity (raw_nir raw_red : Z) :
  (-32768 <= raw_nir <= 32767)%Z ->
  (-32768 <= raw_red <= 32767)%Z ->
  isnan (HLS.scale_offset (of_int raw_nir)) = false ->
  (HLS.scale_offset (of_int raw_nir) == HLS.scale_offset (of_int raw_red))
  = true ->
  HLS.calculate_evi2 (of_int raw_nir) (of_int raw_red) = of_int 0 /\
  HLSRaster.calculate_evi2 (of_int raw_nir) (of_int raw_red) = of_int 0 /\
  isnan (of_int 0) = false.
Proof.
  intros Hn Hr Hvalid Heq.
  destruct (hls_scale_offset_spec f raw_nir Hn) as [Hsn Hpn].
  destruct (hls_scale_offset_spec f raw_red Hr) as [Hsr Hpr].
  fold D in Hsn, Hpn, Hsr, Hpr.
  assert (Hn0 : (0 < raw_nir)%Z).
  { destruct (0 <? raw_nir)%Z eqn:E; [apply Z.ltb_lt; exact E |].
    rewrite Hsn in Hvalid. discriminate Hvalid. }
  assert (Hr0 : (0 < raw_red)%Z).
  { destruct (0 <? raw_red)%Z eqn:E; [apply Z.ltb_lt; exact E |].
    rewrite Hsr in Heq. change (SFeqb (HLS.scale_offset (of_int raw_nir))
                                  S754_nan = true) in Heq.
    unfold SFeqb, SFcompare in Heq.
    destruct (HLS.scale_offset (of_int raw_nir)); discriminate Heq. }
  specialize (Hpn Hn0). specialize (Hpr Hr0).
  pose proof (normal_pos_finite f _ _ _ Hpn) as Hyn.
  pose proof (normal_pos_finite f _ _ _ Hpr) as Hyr.
  assert (Hdn : sf_pos_finite
                  (HLS.scale_offset (of_int raw_nir)
                   + HLS.scale_offset (of_int raw_nir) + of_int 1) = true).
  { apply (normal_pos_finite f 1 9).
    apply evi2_denominator_normal;
      apply (normal_weaken f _ _ _ _ _ _ Hpn); lia. }
  assert (Hsame : HLS.scale_offset (of_int raw_nir)
                  = HLS.scale_offset (of_int raw_red)).
  { apply SFeqb_nonneg_eq; auto using sf_pos_finite_nonneg. }
  unfold HLS.calculate_evi2, HLSRaster.calculate_evi2.
  change (HLSRaster.scale_offset) with (@HLS.scale_offset D).
  rewrite <- Hsame.
  destruct (evi2_formula_zero f (@HLS.scale_offset D (@of_int D raw_nir)))
    as [Ha Hb];
    [apply sf_pos_finite_nonneg; exact Hyn | exact Hdn |].
  split; [exact Ha |]. split; [exact Hb | reflexivity].
Qed.
End ZeroIdentity.

Lemma evi2_zero_identity_witness :
  HLS.calculate_evi2 (D := ieee binary64) (of_int 3000) (of_int 3000)
  = S754_zero false.
Proof.
  refine (proj1 (evi2_zero_identity binary64 3000 3000 _ _ _ _)).
  - lia.
  - lia.
  - vm_compute. reflexivity.
  - vm_compute. reflexivity.
Defined.

Section LandsatZeroIdentity.
Variable f : float_format.
Let D : dtype := ieee f.
Local Existing Instance D.
Local Open Scope dt_scope.

(** The same zero identity for the Landsat notebook, on 16-bit unsigned
    band elements (scaled values clamped to 0 included). *)
Lemma landsat_evi2_zero_identity (raw_nir raw_red : Z) :
  (0 <= raw_nir <= 65535)%Z ->
  (0 <= raw_red <= 65535)%Z ->
  isnan (Landsat.scale_offset (of_int raw_nir)) = false ->
  (Landsat.scale_offset (of_int raw_nir)
   == Landsat.scale_offset (of_int raw_red)) = true ->
  Landsat.calculate_evi2 (of_int raw_nir) (of_int raw_red) = of_int 0.
Proof.
  intros Hn Hr Hvalid Heq.
  destruct (landsat_scale_offset_shape f raw_nir Hn) as [Hnan | [Hyn Hdn]].
  { fold D in Hnan. rewrite Hnan in Hvalid. discriminate Hvalid. }
  fold D in Hyn, Hdn.
  destruct (landsat_scale_offset_shape f raw_red Hr) as [Hnan | [Hyr _]].
  { fold D in Hnan. rewrite Hnan in Heq.
    change (SFeqb (Landsat.scale_offset (of_int raw_nir)) S754_nan = true)
      in Heq.
    unfold SFeqb, SFcompare in Heq.
    destruct (Landsat.scale_offset (of_int raw_nir)); discriminate Heq. }
  fold D in Hyr.
  assert (Hsame : Landsat.scale_offset (of_int raw_nir)
                  = Landsat.scale_offset (of_int raw_red)).
  { apply SFeqb_nonneg_eq; assumption. }
  unfold Landsat.calculate_evi2. rewrite <- Hsame.
  destruct (evi2_formula_zero f (@Landsat.scale_offset D (@of_int D raw_nir)))
    as [_ Hb]; [exact Hyn | exact Hdn |].
  exact Hb.
Qed.
End LandsatZeroIdentity.

(** ** Index Calculator: values at or below zero *)

Section ScalingNegative.
Variable f : float_format.
Let D : dtype := ieee f.
Local Existing Instance D.
Local Open Scope dt_scope.

(** The HLS scaling never keeps or clips a value that is not above zero:
    every raw value of a 16-bit band that is at most 0 becomes "no
    value", every other one becomes [raw * 0.0001]. *)
Lemma hls_scale_offset_invalidates (raw : Z) :
  (-32768 <= raw <= 32767)%Z ->
  ((raw <= 0)%Z -> HLS.scale_offset (of_int raw) = nan) /\
  ((0 < raw)%Z -> HLS.scale_offset (of_int raw) = of_int raw * lit 0.0001).
Proof.
  intros Hraw. destruct (hls_scale_offset_spec f raw Hraw) as [Hs _].
  split; intros H.
  - destruct (0 <? raw)%Z eqn:E; [apply Z.ltb_lt in E; lia | exact Hs].
  - destruct (0 <? raw)%Z eqn:E; [exact Hs | apply Z.ltb_ge in E; lia].
Qed.

(** C3 (Landsat variant). Raw value 5000 scales to
    [5000 * 0.0000275 - 0.2], a negative number, and the Landsat
    [scale_offset] returns the number 0 for it, not "no value". *)
Theorem landsat_negative_scaled_is_clipped :
  (of_int 0 > of_int 5000 * lit 0.0000275 + lit (-0.2)) = true /\
  Landsat.scale_offset (of_int 5000) = of_int 0 /\
  isnan (Landsat.scale_offset (of_int 5000)) = false.
Proof. destruct f; vm_compute; repeat split; reflexivity. Qed.
End ScalingNegative.

(** ** Index Calculator: range of the index *)

(** Binary64: raw near-infrared 10000 and red 1 are valid and give a
    two-band index above 1 (1.1998...); raw near-infrared 9000, red 8000
    and blue 9000 are valid and give a three-band index below -1
    (-5.0...). *)
Lemma index_out_of_unit_range :
  isnan (HLS.scale_offset (D := float64) (of_int 10000)) = false /\
  isnan (HLS.scale_offset (D := float64) (of_int 1)) = false /\
  ~ in_unit_range (HLS.calculate_evi2 (D := float64)
                     (of_int 10000) (of_int 1)) /\
  isnan (HLS.scale_offset (D := float64) (of_int 9000)) = false /\
  isnan (HLS.scale_offset (D := float64) (of_int 8000)) = false /\
  ~ in_unit_range (HLS.calculate_evi (D := float64)
                     (of_int 9000) (of_int 8000) (of_int 9000)).
Proof.
  repeat split; try (vm_compute; reflexivity);
    unfold in_unit_range; vm_compute; intros [H | [H1 H2]]; discriminate.
Qed.

(** The same two-band value in binary32, and the Landsat index at a
    saturated near-infrared value over a dark red one. *)
Lemma index_out_of_unit_range_other :
  ~ in_unit_range (HLS.calculate_evi2 (D := float32)
                     (of_int 10000) (of_int 1)) /\
  ~ in_unit_range (Landsat.calculate_evi2 (D := float32)
                     (of_int 43637) (of_int 7000)) /\
  ~ in_unit_range (Landsat.calculate_evi2 (D := float64)
                     (of_int 43637) (of_int 7000)).
Proof.
  repeat split; unfold in_unit_range; vm_compute; intros [H | [H1 H2]];
    discriminate.
Qed.

(** ** Index Calculator: missing data and zero denominators *)

Section NaNPropagation.
Variables p em : Z.

Lemma SFadd_nan_r (x : spec_float) : SFadd p em x S754_nan = S754_nan.
Proof. destruct x; reflexivity. Qed.

Lemma SFsub_nan_r (x : spec_float) : SFsub p em x S754_nan = S754_nan.
Proof. destruct x; reflexivity. Qed.

Lemma SFmul_nan_r (x : spec_float) : SFmul p em x S754_nan = S754_nan.
Proof. destruct x; reflexivity. Qed.

Lemma SFdiv_nan_r (x : spec_float) : SFdiv p em x S754_nan = S754_nan.
Proof. destruct x; reflexivity. Qed.
End NaNPropagation.

Lemma sf_isnan_true (x : spec_float) : sf_isnan x = true -> x = S754_nan.
Proof. destruct x; try discriminate; reflexivity. Qed.

Lemma SFeqb_zero (x : spec_float) :
  SFeqb x (S754_zero false) = true -> exists s : bool, x = S754_zero s.
Proof.
  destruct x as [s | [] | | [] m e]; try discriminate.
  intros _. exists s. reflexivity.
Qed.

Lemma sf_lit_2_5_pos (f : float_format) : sf_pos_finite (sf_lit f 2.5) = true.
Proof. destruct f; vm_compute; reflexivity. Qed.

Ltac nan_absorb :=
  repeat first
    [ rewrite SFadd_nan_r | rewrite SFsub_nan_r
    | rewrite SFmul_nan_r | rewrite SFdiv_nan_r
    | progress change (SFadd ?a ?b S754_nan ?y) with S754_nan
    | progress change (SFsub ?a ?b S754_nan ?y) with S754_nan
    | progress change (SFmul ?a ?b S754_nan ?y) with S754_nan
    | progress change (SFdiv ?a ?b S754_nan ?y) with S754_nan ].

Section MissingData.
Variable f : float_format.
Let D : dtype := ieee f.
Local Existing Instance D.
Local Open Scope dt_scope.

Lemma hls_evi2_nan (nir red : elt) :
  isnan (HLS.scale_offset nir) || isnan (HLS.scale_offset red) = true ->
  HLS.calculate_evi2 nir red = nan /\
  HLSRaster.calculate_evi2 nir red = nan.
Proof.
  intros H. unfold HLS.calculate_evi2, HLSRaster.calculate_evi2.
  change (@HLSRaster.scale_offset D) with (@HLS.scale_offset D).
  change (@mul D) with (SFmul (prec f) (emax f)).
  change (@div D) with (SFdiv (prec f) (emax f)).
  change (@add D) with (SFadd (prec f) (emax f)).
  change (@sub D) with (SFsub (prec f) (emax f)).
  change (@nan D) with S754_nan.
  apply orb_true_iff in H as [H | H]; apply sf_isnan_true in H; rewrite H;
    nan_absorb; split; reflexivity.
Qed.

Lemma landsat_evi2_nan (nir red : elt) :
  isnan (Landsat.scale_offset nir) || isnan (Landsat.scale_offset red)
  = true ->
  Landsat.calculate_evi2 nir red = nan.
Proof.
  intros H. unfold Landsat.calculate_evi2.
  change (@mul D) with (SFmul (prec f) (emax f)).
  change (@div D) with (SFdiv (prec f) (emax f)).
  change (@add D) with (SFadd (prec f) (emax f)).
  change (@sub D) with (SFsub (prec f) (emax f)).
  change (@nan D) with S754_nan.
  apply orb_true_iff in H as [H | H]; apply sf_isnan_true in H; rewrite H;
    nan_absorb; reflexivity.
Qed.

Lemma hls_evi_nan (nir red blue : elt) :
  isnan (HLS.scale_offset nir) || isnan (HLS.scale_offset red)
  || isnan (HLS.scale_offset blue) = true ->
  HLS.calculate_evi nir red blue = nan.
Proof.
  intros H. unfold HLS.calculate_evi.
  change (@mul D) with (SFmul (prec f) (emax f)).
  change (@div D) with (SFdiv (prec f) (emax f)).
  change (@add D) with (SFadd (prec f) (emax f)).
  change (@sub D) with (SFsub (prec f) (emax f)).
  change (@nan D) with S754_nan.
  rewrite !orb_true_iff in H. destruct H as [[H | H] | H];
    apply sf_isnan_true in H; rewrite H; nan_absorb; reflexivity.
Qed.
Lemma hls_evi_zero_denominator (nir red blue : elt) :
  (HLS.scale_offset nir + of_int 6 * HLS.scale_offset red
   - lit 7.5 * HLS.scale_offset blue + of_int 1 == of_int 0) = true ->
  if isnan (HLS.scale_offset nir - HLS.scale_offset red)
     || (HLS.scale_offset nir - HLS.scale_offset red == of_int 0)
  then HLS.calculate_evi nir red blue = nan
  else sf_isinf (HLS.calculate_evi nir red blue) = true.
Proof.
  unfold HLS.calculate_evi.
  set (n := HLS.scale_offset nir). set (r := HLS.scale_offset red).
  set (b := HLS.scale_offset blue).
  set (den := n + of_int 6 * r - lit 7.5 * b + of_int 1).
  set (num := n - r).
  intros Hden. apply SFeqb_zero in Hden as [s Hden]. rewrite Hden.
  change (@lit D 2.5) with (sf_lit f 2.5).
  pose proof (sf_lit_2_5_pos f) as Hc.
  destruct (sf_lit f 2.5) as [| | | [] mc ec]; try discriminate.
  destruct num as [sn | [] | | [] mn en]; cbv; reflexivity.
Qed.

(** Either way of writing the two-band formula gives a number when both
    scaled values are zero or positive numbers. *)
Lemma evi2_formula_number (x y : spec_float) :
  x = S754_zero false \/ normal f false (-120) 5 x ->
  y = S754_zero false \/ normal f false (-120) 5 y ->
  sf_isnan
    (SFmul (prec f) (emax f) (sf_lit f 2.4)
       (SFdiv (prec f) (emax f) (SFsub (prec f) (emax f) x y)
          (SFadd (prec f) (emax f) (SFadd (prec f) (emax f) x y)
             (sf_of_int f 1)))) = false /\
  sf_isnan
    (SFdiv (prec f) (emax f)
       (SFmul (prec f) (emax f) (sf_lit f 2.4) (SFsub (prec f) (emax f) x y))
       (SFadd (prec f) (emax f) (SFadd (prec f) (emax f) x y)
          (sf_of_int f 1))) = false.
Proof.
  intros Hx Hy.
  pose proof (evi2_denominator_pos f x y Hx Hy) as Hden.
  assert (Hnum : sf_isnan (SFsub (prec f) (emax f) x y) = false).
  { apply SFsub_not_nan.
    - destruct Hx as [-> | (m & e & -> & _)]; reflexivity.
    - destruct Hy as [-> | (m & e & -> & _)]; reflexivity. }
  pose proof (sf_lit_2_4_pos f) as Hc.
  split.
  - apply SFmul_not_nan; [exact Hc |].
    apply SFdiv_not_nan; assumption.
  - apply SFdiv_not_nan; [| exact Hden].
    apply SFmul_not_nan; assumption.
Qed.

(** On 16-bit HLS band elements the two-band index is "no value" exactly
    when a scaled input is: for valid inputs the denominator is a positive
    number. *)
Lemma hls_evi2_isnan (raw_nir raw_red : Z) :
  (-32768 <= raw_nir <= 32767)%Z -> (-32768 <= raw_red <= 32767)%Z ->
  isnan (HLS.calculate_evi2 (of_int raw_nir) (of_int raw_red))
  = isnan (HLS.scale_offset (of_int raw_nir))
    || isnan (HLS.scale_offset (of_int raw_red)) /\
  isnan (HLSRaster.calculate_evi2 (of_int raw_nir) (of_int raw_red))
  = isnan (HLS.scale_offset (of_int raw_nir))
    || isnan (HLS.scale_offset (of_int raw_red)) /\
  (isnan (HLS.scale_offset (of_int raw_nir))
   || isnan (HLS.scale_offset (of_int raw_red)) = false ->
   sf_pos_finite (HLS.scale_offset (of_int raw_nir)
                  + HLS.scale_offset (of_int raw_red) + of_int 1) = true).
Proof.
  intros Hn Hr.
  destruct (isnan (HLS.scale_offset (of_int raw_nir))
            || isnan (HLS.scale_offset (of_int raw_red))) eqn:E.
  - destruct (hls_evi2_nan _ _ E) as [Ha Hb]. rewrite Ha, Hb.
    repeat split. discriminate.
  - apply orb_false_iff in E as [En Er].
    destruct (hls_scale_offset_spec f raw_nir Hn) as [Hsn Hpn].
    destruct (hls_scale_offset_spec f raw_red Hr) as [Hsr Hpr].
    fold D in Hsn, Hpn, Hsr, Hpr.
    assert (Hn0 : (0 < raw_nir)%Z).
    { destruct (0 <? raw_nir)%Z eqn:E0; [apply Z.ltb_lt; exact E0 |].
      rewrite Hsn in En. discriminate En. }
    assert (Hr0 : (0 < raw_red)%Z).
    { destruct (0 <? raw_red)%Z eqn:E0; [apply Z.ltb_lt; exact E0 |].
      rewrite Hsr in Er. discriminate Er. }
    specialize (Hpn Hn0). specialize (Hpr Hr0).
    assert (Hx : HLS.scale_offset (of_int raw_nir) = S754_zero false \/
                 normal f false (-120) 5 (HLS.scale_offset (of_int raw_nir)))
      by (right; apply (normal_weaken f _ _ _ _ _ _ Hpn); lia).
    assert (Hy : HLS.scale_offset (of_int raw_red) = S754_zero false \/
                 normal f false (-120) 5 (HLS.scale_offset (of_int raw_red)))
      by (right; apply (normal_weaken f _ _ _ _ _ _ Hpr); lia).
    destruct (evi2_formula_number _ _ Hx Hy) as [Ha Hb].
    split; [exact Ha |]. split; [exact Hb |]. intros _.
    apply (evi2_denominator_pos f _ _ Hx Hy).
Qed.

(** The same on 16-bit unsigned Landsat band elements. *)
Lemma landsat_evi2_isnan (raw_nir raw_red : Z) :
  (0 <= raw_nir <= 65535)%Z -> (0 <= raw_red <= 65535)%Z ->
  isnan (Landsat.calculate_evi2 (of_int raw_nir) (of_int raw_red))
  = isnan (Landsat.scale_offset (of_int raw_nir))
    || isnan (Landsat.scale_offset (of_int raw_red)).
Proof.
  intros Hn Hr.
  destruct (isnan (Landsat.scale_offset (of_int raw_nir))
            || isnan (Landsat.scale_offset (of_int raw_red))) eqn:E.
  - rewrite (landsat_evi2_nan _ _ E). reflexivity.
  - apply orb_false_iff in E as [En Er].
    destruct (landsat_scale_offset_cases f raw_nir Hn) as [Hx | Hx];
      fold D in Hx; [rewrite Hx in En; discriminate En |].
    destruct (landsat_scale_offset_cases f raw_red Hr) as [Hy | Hy];
      fold D in Hy; [rewrite Hy in Er; discriminate Er |].
    assert (Hx' : Landsat.scale_offset (of_int raw_nir) = S754_zero false \/
                  normal f false (-120) 5
                    (Landsat.scale_offset (of_int raw_nir))).
    { destruct Hx as [Hz | Hx]; [left; exact Hz | right].
      apply (normal_weaken f _ _ _ _ _ _ Hx); lia. }
    assert (Hy' : Landsat.scale_offset (of_int raw_red) = S754_zero false \/
                  normal f false (-120) 5
                    (Landsat.scale_offset (of_int raw_red))).
    { destruct Hy as [Hz | Hy]; [left; exact Hz | right].
      apply (normal_weaken f _ _ _ _ _ _ Hy); lia. }
    destruct (evi2_formula_number _ _ Hx' Hy') as [_ Hb]. exact Hb.
Qed.

(** C4, as the code has it. For every element of the bands, in binary32
    and in binary64: when a scaled input of the ratio is "no value", so is
    the index, for the two-band formula of each notebook and for the
    three-band formula; on 16-bit band values the two-band index is "no
    value" only then (its denominator is a positive number, never zero);
    and when the three-band denominator is zero, the index is "no value"
    if [nir - red] is zero (or "no value") too and an infinity otherwise.
    All functions are total: nothing is raised. *)
Theorem index_missing_data (nir red blue : elt) (raw_nir raw_red : Z) :
  (isnan (HLS.scale_offset nir) || isnan (HLS.scale_offset red) = true ->
   isnan (HLS.calculate_evi2 nir red) = true /\
   isnan (HLSRaster.calculate_evi2 nir red) = true) /\
  (isnan (Landsat.scale_offset nir) || isnan (Landsat.scale_offset red)
   = true ->
   isnan (Landsat.calculate_evi2 nir red) = true) /\
  (isnan (HLS.scale_offset nir) || isnan (HLS.scale_offset red)
   || isnan (HLS.scale_offset blue) = true ->
   isnan (HLS.calculate_evi nir red blue) = true) /\
  ((-32768 <= raw_nir <= 32767)%Z -> (-32768 <= raw_red <= 32767)%Z ->
   isnan (HLS.calculate_evi2 (of_int raw_nir) (of_int raw_red))
   = isnan (HLS.scale_offset (of_int raw_nir))
     || isnan (HLS.scale_offset (of_int raw_red)) /\
   isnan (HLSRaster.calculate_evi2 (of_int raw_nir) (of_int raw_red))
   = isnan (HLS.scale_offset (of_int raw_nir))
     || isnan (HLS.scale_offset (of_int raw_red))) /\
  ((0 <= raw_nir <= 65535)%Z -> (0 <= raw_red <= 65535)%Z ->
   isnan (Landsat.calculate_evi2 (of_int raw_nir) (of_int raw_red))
   = isnan (Landsat.scale_offset (of_int raw_nir))
     || isnan (Landsat.scale_offset (of_int raw_red))) /\
  ((HLS.scale_offset nir + of_int 6 * HLS.scale_offset red
    - lit 7.5 * HLS.scale_offset blue + of_int 1 == of_int 0) = true ->
   if isnan (HLS.scale_offset nir - HLS.scale_offset red)
      || (HLS.scale_offset nir - HLS.scale_offset red == of_int 0)
   then isnan (HLS.calculate_evi nir red blue) = true
   else isnan (HLS.calculate_evi nir red blue) = false /\
        sf_isinf (HLS.calculate_evi nir red blue) = true).
Proof.
  split; [| split; [| split; [| split; [| split]]]].
  - intros H. destruct (hls_evi2_nan nir red H) as [Ha Hb].
    rewrite Ha, Hb. split; reflexivity.
  - intros H. rewrite (landsat_evi2_nan nir red H). reflexivity.
  - intros H. rewrite (hls_evi_nan nir red blue H). reflexivity.
  - intros Hn Hr. destruct (hls_evi2_isnan raw_nir raw_red Hn Hr)
      as (Ha & Hb & _). split; assumption.
  - intros Hn Hr. apply landsat_evi2_isnan; assumption.
  - intros H. pose proof (hls_evi_zero_denominator nir red blue H) as Hz.
    destruct (isnan (HLS.scale_offset nir - HLS.scale_offset red)
              || (HLS.scale_offset nir - HLS.scale_offset red == of_int 0)).
    + rewrite Hz. reflexivity.
    + split; [| exact Hz].
      destruct (HLS.calculate_evi nir red blue); try discriminate Hz.
      reflexivity.
Qed.
End MissingData.

(** Binary64: raw near-infrared 1400, red 100 and blue 1600 are valid and
    make the three-band denominator exactly zero; the index is then plus
    infinity, not "no value". *)
Lemma evi_zero_denominator_is_infinite :
  isnan (HLS.scale_offset (D := float64) (of_int 1400)) = false /\
  isnan (HLS.scale_offset (D := float64) (of_int 100)) = false /\
  isnan (HLS.scale_offset (D := float64) (of_int 1600)) = false /\
  (let n := HLS.scale_offset (D := float64) (of_int 1400) in
   let r := HLS.scale_offset (D := float64) (of_int 100) in
   let b := HLS.scale_offset (D := float64) (of_int 1600) in
   (add (sub (add n (mul (of_int 6) r)) (mul (lit 7.5) b)) (of_int 1)
    == of_int 0)%dt = true) /\
  HLS.calculate_evi (D := float64) (of_int 1400) (of_int 100) (of_int 1600)
  = S754_infinity false /\
  isnan (HLS.calculate_evi (D := float64)
           (of_int 1400) (of_int 100) (of_int 1600)) = false.
Proof. vm_compute. repeat split; reflexivity. Qed.


(** ** Temporal Aggregator *)

Section TemporalAggregator.
Context {D : dtype}.






End TemporalAggregator.


(** The whole pipeline of one group: the period label is kept and every
    pixel is reduced as above. *)
Lemma resample_max_lookup {D : dtype} (npix : nat)
    (groups : list (period * list (list elt))) (k : nat)
    (t : period) (group : list (list elt)) :
  groups !! k = Some (t, group) ->
  resample_max npix groups !! k = Some (t, reduce_time nanmax npix group) /\
  resample_median npix groups !! k
  = Some (t, reduce_time nanmedian npix group).
Proof.
  intros H. unfold resample_max, resample_median.
  rewrite !list_lookup_fmap, H. split; reflexivity.
Qed.

(** ** Anchored-quarter selection *)

Lemma sel_month_In {A : Type} (m : Z) (q : list (period * A))
    (g : period * A) :
  In g (sel_month m q) <-> In g q /\ month g.1 = m.
Proof.
  unfold sel_month. rewrite filter_In, Z.eqb_eq. reflexivity.
Qed.

Lemma quarter_start_month (anchor : Z) (t : period) :
  1 <= anchor <= 12 -> 1 <= month t <= 12 ->
  1 <= month (quarter_start anchor t) <= 12 /\
  (month (quarter_start anchor t) - anchor) mod 3 = 0.
Proof.
  intros Ha Ht. unfold quarter_start.
  pose proof (Z.mod_pos_bound (month t - anchor) 3 ltac:(lia)) as Hk.
  assert (Hm : (month t - (month t - anchor) mod 3 - anchor) mod 3 = 0).
  { replace (month t - (month t - anchor) mod 3 - anchor)
      with ((month t - anchor) - (month t - anchor) mod 3) by lia.
    rewrite Zminus_mod, Zmod_mod, Z.sub_diag. reflexivity. }
  destruct (month t - (month t - anchor) mod 3 <? 1) eqn:E; simpl.
  - apply Z.ltb_lt in E. split; [lia |].
    replace (month t - (month t - anchor) mod 3 + 12 - anchor)
      with ((month t - (month t - anchor) mod 3 - anchor) + 4 * 3) by lia.
    rewrite Z_mod_plus_full. exact Hm.
  - apply Z.ltb_ge in E. split; [lia | exact Hm].
Qed.

Ltac month_cases m :=
  let H := fresh "H" in
  assert (H : m = 1 \/ m = 2 \/ m = 3 \/ m = 4 \/ m = 5 \/ m = 6 \/ m = 7
              \/ m = 8 \/ m = 9 \/ m = 10 \/ m = 11 \/ m = 12) by lia;
  repeat (destruct H as [H | H]; [subst m |]); [.. | subst m].

Section QuarterSelection.
Context {A : Type}.

Lemma sel_month_sublist (m : Z) (q : list (period * A)) :
  sublist (sel_month m q) q.
Proof.
  unfold sel_month. induction q as [| g q' IH]; simpl.
  - constructor.
  - destruct (month g.1 =? m); [apply sublist_skip | apply sublist_cons];
      exact IH.
Qed.

Lemma sel_month_app (m : Z) (q1 q2 : list (period * A)) (g : period * A) :
  sel_month m (q1 ++ g :: q2)
  = sel_month m q1 ++ (if month g.1 =? m then [g] else []) ++ sel_month m q2.
Proof.
  unfold sel_month. rewrite List.filter_app. simpl.
  destruct (month g.1 =? m); reflexivity.
Qed.

(** C6. The two selections that follow the anchored-quarter resampling,
    [feb_quarters_max] (anchor February) and [dec_quarters_median] (anchor
    December), on any sequence of quarter groups: a group is in the result
    exactly when it is in the sequence and its label is in the anchor
    month; the result keeps the order of the sequence; every group is
    kept or dropped on its own label, wherever it stands (so each
    occurrence of an anchor-month group is kept once and nothing else
    is); and of four quarter groups that start in months 2, 5, 8, 11
    (12, 3, 6, 9), whatever their years and contents, exactly the one of
    month 2 (12) is kept. *)
Theorem anchored_quarter_selection (q q1 q2 : list (period * A))
    (g : period * A) (y1 y2 y3 y4 : Z) (d1 d2 d3 d4 : A) :
  ((In g (feb_quarters_max q) <-> In g q /\ month g.1 = 2) /\
   sublist (feb_quarters_max q) q /\
   feb_quarters_max (q1 ++ g :: q2)
   = feb_quarters_max q1 ++ (if month g.1 =? 2 then [g] else [])
       ++ feb_quarters_max q2 /\
   feb_quarters_max ([] : list (period * A)) = [] /\
   feb_quarters_max
     [({| year := y1; month := 2 |}, d1);
      ({| year := y2; month := 5 |}, d2);
      ({| year := y3; month := 8 |}, d3);
      ({| year := y4; month := 11 |}, d4)]
   = [({| year := y1; month := 2 |}, d1)]) /\
  ((In g (dec_quarters_median q) <-> In g q /\ month g.1 = 12) /\
   sublist (dec_quarters_median q) q /\
   dec_quarters_median (q1 ++ g :: q2)
   = dec_quarters_median q1 ++ (if month g.1 =? 12 then [g] else [])
       ++ dec_quarters_median q2 /\
   dec_quarters_median ([] : list (period * A)) = [] /\
   dec_quarters_median
     [({| year := y1; month := 12 |}, d1);
      ({| year := y2; month := 3 |}, d2);
      ({| year := y3; month := 6 |}, d3);
      ({| year := y4; month := 9 |}, d4)]
   = [({| year := y1; month := 12 |}, d1)]).
Proof.
  unfold feb_quarters_max, dec_quarters_median. split.
  - split; [apply sel_month_In |]. split; [apply sel_month_sublist |].
    split; [apply sel_month_app |]. split; reflexivity.
  - split; [apply sel_month_In |]. split; [apply sel_month_sublist |].
    split; [apply sel_month_app |]. split; reflexivity.
Qed.
End QuarterSelection.

(** * More of the notebooks *)

(** ** The reject bits *)

Lemma land_low_bits (c b k : Z) :
  0 <= k -> 0 <= b < 2 ^ k -> Z.land c b = Z.land (c mod 2 ^ k) b.
Proof.
  intros Hk Hb. apply Z.bits_inj'. intros n Hn.
  rewrite !Z.land_spec.
  destruct (Z.lt_ge_cases n k) as [Hlt | Hge].
  - rewrite Z.mod_pow2_bits_low by lia. reflexivity.
  - assert (Hbn : Z.testbit b n = false).
    { destruct (Z.eq_dec b 0) as [-> | Hb0]; [apply Z.bits_0 |].
      apply Z.bits_above_log2; [lia |].
      apply Z.log2_lt_pow2; [lia |].
      apply Z.lt_le_trans with (2 ^ k); [lia |].
      apply Z.pow_le_mono_r; lia. }
    rewrite Hbn, !andb_false_r. reflexivity.
Qed.

Ltac nibble_cases r :=
  let H := fresh "H" in
  assert (H : r = 0 \/ r = 1 \/ r = 2 \/ r = 3 \/ r = 4 \/ r = 5 \/ r = 6
              \/ r = 7 \/ r = 8 \/ r = 9 \/ r = 10 \/ r = 11 \/ r = 12
              \/ r = 13 \/ r = 14 \/ r = 15) by lia;
  repeat (destruct H as [H | H]; [rewrite H |]); [.. | rewrite H].

Lemma reject_mask_pq_bin (c : Z) :
  reject_mask HLS.pq_bin c
  = Z.testbit c 1 || Z.testbit c 2 || Z.testbit c 3.
Proof.
  unfold reject_mask, HLS.pq_bin.
  rewrite (land_low_bits c 14 4) by lia.
  rewrite <- (Z.mod_pow2_bits_low c 4 1), <- (Z.mod_pow2_bits_low c 4 2),
    <- (Z.mod_pow2_bits_low c 4 3) by lia.
  pose proof (Z.mod_pos_bound c (2 ^ 4) ltac:(lia)) as Hr.
  change (2 ^ 4) with 16 in *.
  nibble_cases (c mod 16); reflexivity.
Qed.

Lemma reject_mask_bitflags (c : Z) :
  reject_mask Landsat.bitflags c = Z.testbit c 3 || Z.testbit c 4.
Proof.
  unfold reject_mask, Landsat.bitflags.
  rewrite (land_low_bits c 24 5) by lia.
  rewrite <- (Z.mod_pow2_bits_low c 5 3), <- (Z.mod_pow2_bits_low c 5 4)
    by lia.
  pose proof (Z.mod_pos_bound c (2 ^ 5) ltac:(lia)) as Hr.
  change (2 ^ 5) with 32 in *.
  assert (H : exists q r, c mod 32 = 16 * q + r /\ 0 <= q < 2 /\ 0 <= r < 16).
  { exists (c mod 32 / 16), (c mod 32 mod 16).
    pose proof (Z.div_mod (c mod 32) 16 ltac:(lia)).
    pose proof (Z.mod_pos_bound (c mod 32) 16 ltac:(lia)).
    assert (0 <= c mod 32 / 16 < 2).
    { split; [apply Z.div_pos; lia | apply Z.div_lt_upper_bound; lia]. }
    lia. }
  destruct H as (q & r & -> & Hq & Hr').
  assert (Hq' : q = 0 \/ q = 1) by lia.
  destruct Hq' as [-> | ->]; nibble_cases r; reflexivity.
Qed.

(** X1. The HLS mask looks at bits 1, 2 and 3 of the quality code and at
    the nodata value, and at nothing else: at every position of the
    quality raster, for every integer code (negative ones in two's
    complement), the mask is set exactly when the cloud, the
    adjacent-cloud or the cloud-shadow bit is set or the code is the
    nodata value, whatever the other bits (water, snow, aerosol) are. *)
Theorem hls_mask_bits (nodata : option Z) (fmask : list Z) (i : nat) :
  quality_mask HLS.pq_bin nodata fmask !! i
  = (fun c => Z.testbit c 1 || Z.testbit c 2 || Z.testbit c 3
              || nodata_eq nodata c) <$> fmask !! i.
Proof.
  rewrite quality_mask_lookup.
  destruct (fmask !! i) as [c |]; [| reflexivity].
  simpl. rewrite reject_mask_pq_bin. reflexivity.
Qed.

(** X2. The Landsat cloud mask looks at bits 3 and 4 of [qa_pixel] and at
    nothing else: at every position it is set exactly when the cloud or
    the cloud-shadow bit is set.  The fill bit (bit 0) and the
    dilated-cloud and cirrus bits never mask a pixel. *)
Theorem landsat_mask_bits (qa_pixel : list Z) (i : nat) :
  map (reject_mask Landsat.bitflags) qa_pixel !! i
  = (fun c => Z.testbit c 3 || Z.testbit c 4) <$> qa_pixel !! i.
Proof.
  rewrite list_lookup_fmap.
  destruct (qa_pixel !! i) as [c |]; [| reflexivity].
  simpl. rewrite reject_mask_bitflags. reflexivity.
Qed.

(** ** The sentinel of the HLS quality band *)

Section Sentinel.
Context {D : dtype}.

Lemma quality_mask_redundant_nodata (s : Z) (fmask : list Z) :
  reject_mask HLS.pq_bin s = true ->
  quality_mask HLS.pq_bin (Some s) fmask
  = quality_mask HLS.pq_bin None fmask.
Proof.
  intros Hs. apply list_eq. intros i. rewrite !quality_mask_lookup.
  destruct (fmask !! i) as [c |]; [| reflexivity]. simpl. f_equal.
  destruct (Z.eqb_spec c s) as [-> | _].
  - rewrite Hs. reflexivity.
  - reflexivity.
Qed.

(** X3. When the nodata value of the quality band itself carries one of
    the reject bits (the HLS fill value 255 does), the comparison with the
    nodata value adds nothing: [apply_quality_mask] returns what it
    returns for a quality band without nodata metadata. *)
Theorem nodata_with_reject_bit (s : Z) (data : gmap string (list Z)) :
  reject_mask HLS.pq_bin s = true ->
  HLS.apply_quality_mask (Some s) data = HLS.apply_quality_mask None data.
Proof.
  intros Hs. unfold HLS.apply_quality_mask.
  destruct (data !! "fmask"%string) as [fmask |]; [| reflexivity].
  cbv zeta. rewrite (quality_mask_redundant_nodata s fmask Hs).
  reflexivity.
Qed.
End Sentinel.

Lemma nodata_with_reject_bit_witness :
  HLS.apply_quality_mask (D := float64) (Some 255)
    (<["fmask"%string := [0; 255; 64]]> {["red"%string := [300; 400; 500]]})
  = HLS.apply_quality_mask (D := float64) None
      (<["fmask"%string := [0; 255; 64]]> {["red"%string := [300; 400; 500]]}).
Proof.
  apply (nodata_with_reject_bit (D := float64) 255). reflexivity.
Defined.

(** ** The Landsat cloud mask on a dataset *)

Section LandsatFrame.
Context {D : dtype}.

(** X4. [mask_landsat_clouds] fails on a dataset without [qa_pixel];
    otherwise it returns a dataset with the same variables, [qa_pixel]
    among them, in which every band has "no value" exactly at the pixels
    whose [qa_pixel] has a cloud or shadow bit, and its own value,
    converted to floating point, at every other pixel. *)
Theorem mask_landsat_clouds_frame (data : gmap string (list Z)) :
  (data !! "qa_pixel"%string = None ->
   Landsat.mask_landsat_clouds data = None) /\
  (forall qa_pixel : list Z,
     data !! "qa_pixel"%string = Some qa_pixel ->
     exists masked : gmap string (list elt),
       Landsat.mask_landsat_clouds data = Some masked /\
       dom masked = dom data /\
       forall (band : string) (v : list Z),
         data !! band = Some v ->
         exists v' : list elt,
           masked !! band = Some v' /\
           length v' = Nat.min (length qa_pixel) (length v) /\
           forall (i : nat) (x c : Z),
             v !! i = Some x -> qa_pixel !! i = Some c ->
             v' !! i
             = Some (if reject_mask Landsat.bitflags c
                     then nan else of_int x)).
Proof.
  unfold Landsat.mask_landsat_clouds. split.
  - intros ->. reflexivity.
  - intros qa Hqa. rewrite Hqa. eexists. split; [reflexivity |].
    split; [apply dom_fmap_L |].
    intros band v Hv. eexists. split.
    + rewrite lookup_fmap, Hv. reflexivity.
    + split.
      * rewrite length_zip_with, length_map. reflexivity.
      * intros i x c Hx Hc.
        rewrite lookup_zip_with, list_lookup_fmap, Hc, Hx. simpl.
        destruct (reject_mask Landsat.bitflags c); reflexivity.
Qed.
End LandsatFrame.

(** ** The index cells on a dataset *)

Section IndexCells.
Context {D : dtype}.

(** The bands of the masked HLS dataset. *)
Lemma apply_quality_mask_bands (nodata : option Z)
    (data : gmap string (list Z)) (fmask : list Z) :
  data !! "fmask"%string = Some fmask ->
  exists masked : gmap string (list elt),
    HLS.apply_quality_mask nodata data = Some masked /\
    forall band : string,
      masked !! band
      = zip_with (fun m x => where_ (negb m) (of_int x) nan)
          (quality_mask HLS.pq_bin nodata fmask) <$> data !! band.
Proof.
  intros Hf. unfold HLS.apply_quality_mask. rewrite Hf.
  eexists. split; [reflexivity |].
  intros band. rewrite lookup_fmap. reflexivity.
Qed.

Lemma masked_band_lookup (nodata : option Z) (fmask v : list Z) (i : nat)
    (c x : Z) :
  fmask !! i = Some c -> v !! i = Some x ->
  zip_with (fun m x => where_ (negb m) (of_int x) nan)
    (quality_mask HLS.pq_bin nodata fmask) v !! i
  = Some (if reject_mask HLS.pq_bin c || nodata_eq nodata c
          then nan else of_int x).
Proof.
  intros Hc Hx. rewrite lookup_zip_with, quality_mask_lookup, Hc, Hx. simpl.
  destruct (reject_mask HLS.pq_bin c || nodata_eq nodata c); reflexivity.
Qed.

Lemma masked_band_length (nodata : option Z) (fmask v : list Z) :
  length (zip_with (fun m x => where_ (negb m) (of_int x) nan)
            (quality_mask HLS.pq_bin nodata fmask) v)
  = Nat.min (length fmask) (length v).
Proof. rewrite length_zip_with, quality_mask_length. reflexivity. Qed.

(** The two-band cell, band by band. *)
Lemma hls_index_cell_run (nodata : option Z) (data : gmap string (list Z))
    (fmask nir red : list Z) :
  data !! "fmask"%string = Some fmask ->
  data !! "nir"%string = Some nir ->
  data !! "red"%string = Some red ->
  exists (masked : gmap string (list elt)) (evi2 : list elt),
    HLS.apply_quality_mask nodata data = Some masked /\
    HLSCells.trend_data_masked nodata data
    = Some (<["evi2"%string := evi2]> masked) /\
    length evi2
    = Nat.min (length fmask) (Nat.min (length nir) (length red)) /\
    forall (i : nat) (c xn xr : Z),
      fmask !! i = Some c -> nir !! i = Some xn -> red !! i = Some xr ->
      evi2 !! i
      = Some (HLS.calculate_evi2
                (if reject_mask HLS.pq_bin c || nodata_eq nodata c
                 then nan else of_int xn)
                (if reject_mask HLS.pq_bin c || nodata_eq nodata c
                 then nan else of_int xr)).
Proof.
  intros Hf Hn Hr.
  destruct (apply_quality_mask_bands nodata data fmask Hf)
    as (masked & Hm & Hb).
  exists masked. eexists. split; [exact Hm |].
  unfold HLSCells.trend_data_masked, HLSCells.calculate_evi2.
  rewrite Hm. simpl. rewrite !Hb, Hn, Hr. simpl.
  split; [reflexivity |]. split.
  - rewrite length_zip_with, !masked_band_length. lia.
  - intros i c xn xr Hc Hxn Hxr.
    rewrite lookup_zip_with.
    rewrite (masked_band_lookup nodata fmask nir i c xn Hc Hxn).
    rewrite (masked_band_lookup nodata fmask red i c xr Hc Hxr).
    reflexivity.
Qed.

(** X5. The cell that masks an HLS dataset and stores the two-band index
    in it fails exactly when the dataset lacks [fmask], [nir] or [red].
    Otherwise the result is the masked dataset with one more variable,
    [evi2] (every other variable is as the mask left it), as long as the
    common part of the three bands, holding at each pixel the index of
    the masked [nir] and [red] values. *)
Theorem hls_index_cell_frame (nodata : option Z)
    (data : gmap string (list Z)) :
  (HLSCells.trend_data_masked nodata data = None <->
   data !! "fmask"%string = None \/ data !! "nir"%string = None \/
   data !! "red"%string = None) /\
  (forall (fmask nir red : list Z),
     data !! "fmask"%string = Some fmask ->
     data !! "nir"%string = Some nir ->
     data !! "red"%string = Some red ->
     exists (masked ds : gmap string (list elt)) (evi2 : list elt),
       HLS.apply_quality_mask nodata data = Some masked /\
       HLSCells.trend_data_masked nodata data = Some ds /\
       ds !! "evi2"%string = Some evi2 /\
       (forall band : string,
          band <> "evi2"%string -> ds !! band = masked !! band) /\
       length evi2
       = Nat.min (length fmask) (Nat.min (length nir) (length red)) /\
       forall (i : nat) (c xn xr : Z),
         fmask !! i = Some c -> nir !! i = Some xn -> red !! i = Some xr ->
         evi2 !! i
         = Some (HLS.calculate_evi2
                   (if reject_mask HLS.pq_bin c || nodata_eq nodata c
                    then nan else of_int xn)
                   (if reject_mask HLS.pq_bin c || nodata_eq nodata c
                    then nan else of_int xr))).
Proof.
  split.
  - destruct (data !! "fmask"%string) as [fmask |] eqn:Hf.
    + destruct (data !! "nir"%string) as [nir |] eqn:Hn.
      * destruct (data !! "red"%string) as [red |] eqn:Hr.
        -- destruct (hls_index_cell_run nodata data fmask nir red Hf Hn Hr)
             as (masked & evi2 & _ & Hrun & _).
           rewrite Hrun. split; [discriminate |].
           intros [H | [H | H]]; discriminate H.
        -- split; [intros _; right; right; reflexivity |]. intros _.
           destruct (apply_quality_mask_bands nodata data fmask Hf)
             as (masked & Hm & Hb).
           unfold HLSCells.trend_data_masked, HLSCells.calculate_evi2.
           rewrite Hm. simpl. rewrite !Hb, Hn, Hr. reflexivity.
      * split; [intros _; right; left; reflexivity |]. intros _.
        destruct (apply_quality_mask_bands nodata data fmask Hf)
          as (masked & Hm & Hb).
        unfold HLSCells.trend_data_masked, HLSCells.calculate_evi2.
        rewrite Hm. simpl. rewrite !Hb, Hn. reflexivity.
    + split; [intros _; left; reflexivity |]. intros _.
      unfold HLSCells.trend_data_masked, HLS.apply_quality_mask.
      rewrite Hf. reflexivity.
  - intros fmask nir red Hf Hn Hr.
    destruct (hls_index_cell_run nodata data fmask nir red Hf Hn Hr)
      as (masked & evi2 & Hm & Hrun & Hlen & Hpix).
    exists masked, (<["evi2"%string := evi2]> masked), evi2.
    split; [exact Hm |]. split; [exact Hrun |].
    split; [apply lookup_insert_eq |].
    split; [| split; [exact Hlen | exact Hpix]].
    intros band Hne. apply lookup_insert_ne. congruence.
Qed.
End IndexCells.

(** The Landsat and three-band cells, band by band. *)
Section OtherCells.
Context {D : dtype}.

Lemma landsat_index_cell_run (data : gmap string (list Z))
    (qa_pixel nir08 red : list Z) :
  data !! "qa_pixel"%string = Some qa_pixel ->
  data !! "nir08"%string = Some nir08 ->
  data !! "red"%string = Some red ->
  exists (masked : gmap string (list elt)) (evi2 : list elt),
    Landsat.mask_landsat_clouds data = Some masked /\
    LandsatCells.trend_data data = Some (<["evi2"%string := evi2]> masked) /\
    length evi2
    = Nat.min (length qa_pixel) (Nat.min (length nir08) (length red)) /\
    forall (i : nat) (c xn xr : Z),
      qa_pixel !! i = Some c -> nir08 !! i = Some xn -> red !! i = Some xr ->
      evi2 !! i
      = Some (Landsat.calculate_evi2
                (if reject_mask Landsat.bitflags c then nan else of_int xn)
                (if reject_mask Landsat.bitflags c then nan else of_int xr)).
Proof.
  intros Hq Hn Hr.
  unfold LandsatCells.trend_data, LandsatCells.calculate_evi2,
    Landsat.mask_landsat_clouds.
  rewrite Hq. eexists. eexists. split; [reflexivity |].
  simpl. rewrite !lookup_fmap, Hn, Hr. simpl.
  split; [reflexivity |]. split.
  - rewrite !length_zip_with, !length_map. lia.
  - intros i c xn xr Hc Hxn Hxr.
    rewrite !lookup_zip_with, !list_lookup_fmap, Hc, Hxn, Hxr. simpl.
    destruct (reject_mask Landsat.bitflags c); reflexivity.
Qed.

(** X6. The Landsat cell that masks a dataset and stores the index in
    it fails exactly when the dataset lacks [qa_pixel], [nir08] or [red]
    (a dataset with the HLS band name [nir] does not do).  Otherwise the
    result is the masked dataset with one more variable, [evi2] (every
    other variable is as the mask left it), as long as the common part of
    the three bands, holding at each pixel the index of the masked
    [nir08] and [red] values. *)
Theorem landsat_index_cell_frame (data : gmap string (list Z)) :
  (LandsatCells.trend_data data = None <->
   data !! "qa_pixel"%string = None \/ data !! "nir08"%string = None \/
   data !! "red"%string = None) /\
  (forall (qa_pixel nir08 red : list Z),
     data !! "qa_pixel"%string = Some qa_pixel ->
     data !! "nir08"%string = Some nir08 ->
     data !! "red"%string = Some red ->
     exists (masked ds : gmap string (list elt)) (evi2 : list elt),
       Landsat.mask_landsat_clouds data = Some masked /\
       LandsatCells.trend_data data = Some ds /\
       ds !! "evi2"%string = Some evi2 /\
       (forall band : string,
          band <> "evi2"%string -> ds !! band = masked !! band) /\
       length evi2
       = Nat.min (length qa_pixel) (Nat.min (length nir08) (length red)) /\
       forall (i : nat) (c xn xr : Z),
         qa_pixel !! i = Some c -> nir08 !! i = Some xn ->
         red !! i = Some xr ->
         evi2 !! i
         = Some (Landsat.calculate_evi2
                   (if reject_mask Landsat.bitflags c
                    then nan else of_int xn)
                   (if reject_mask Landsat.bitflags c
                    then nan else of_int xr))).
Proof.
  split.
  - destruct (data !! "qa_pixel"%string) as [qa |] eqn:Hq.
    + destruct (data !! "nir08"%string) as [nir |] eqn:Hn.
      * destruct (data !! "red"%string) as [red |] eqn:Hr.
        -- destruct (landsat_index_cell_run data qa nir red Hq Hn Hr)
             as (masked & evi2 & _ & Hrun & _).
           rewrite Hrun. split; [discriminate |].
           intros [H | [H | H]]; discriminate H.
        -- split; [intros _; right; right; reflexivity |]. intros _.
           unfold LandsatCells.trend_data, LandsatCells.calculate_evi2,
             Landsat.mask_landsat_clouds.
           rewrite Hq. simpl. rewrite !lookup_fmap, Hn, Hr. reflexivity.
      * split; [intros _; right; left; reflexivity |]. intros _.
        unfold LandsatCells.trend_data, LandsatCells.calculate_evi2,
          Landsat.mask_landsat_clouds.
        rewrite Hq. simpl. rewrite !lookup_fmap, Hn. reflexivity.
    + split; [intros _; left; reflexivity |]. intros _.
      unfold LandsatCells.trend_data, Landsat.mask_landsat_clouds.
      rewrite Hq. reflexivity.
  - intros qa nir red Hq Hn Hr.
    destruct (landsat_index_cell_run data qa nir red Hq Hn Hr)
      as (masked & evi2 & Hm & Hrun & Hlen & Hpix).
    exists masked, (<["evi2"%string := evi2]> masked), evi2.
    split; [exact Hm |]. split; [exact Hrun |].
    split; [apply lookup_insert_eq |].
    split; [| split; [exact Hlen | exact Hpix]].
    intros band Hne. apply lookup_insert_ne. congruence.
Qed.

Lemma sdg15_index_cell_run (nodata : option Z) (data : gmap string (list Z))
    (fmask nir red blue : list Z) :
  data !! "fmask"%string = Some fmask ->
  data !! "nir"%string = Some nir ->
  data !! "red"%string = Some red ->
  data !! "blue"%string = Some blue ->
  exists (masked : gmap string (list elt)) (evi : list elt),
    HLS.apply_quality_mask nodata data = Some masked /\
    SDG15Cells.trend_data_masked nodata data
    = Some (<["evi"%string := evi]> masked) /\
    forall (i : nat) (c xn xr xb : Z),
      fmask !! i = Some c -> nir !! i = Some xn -> red !! i = Some xr ->
      blue !! i = Some xb ->
      evi !! i
      = Some (HLS.calculate_evi
                (if reject_mask HLS.pq_bin c || nodata_eq nodata c
                 then nan else of_int xn)
                (if reject_mask HLS.pq_bin c || nodata_eq nodata c
                 then nan else of_int xr)
                (if reject_mask HLS.pq_bin c || nodata_eq nodata c
                 then nan else of_int xb)).
Proof.
  intros Hf Hn Hr Hb.
  destruct (apply_quality_mask_bands nodata data fmask Hf)
    as (masked & Hm & Hbands).
  exists masked. eexists. split; [exact Hm |].
  unfold SDG15Cells.trend_data_masked, SDG15Cells.calculate_evi.
  rewrite Hm. simpl. rewrite !Hbands, Hn, Hr, Hb. simpl.
  split; [reflexivity |].
  intros i c xn xr xb Hc Hxn Hxr Hxb.
  rewrite !lookup_zip_with, !quality_mask_lookup, Hc, Hxn, Hxr, Hxb. simpl.
  destruct (reject_mask HLS.pq_bin c || nodata_eq nodata c); reflexivity.
Qed.
End OtherCells.

(** ** Which pixels have an index value *)

Section IndexValues.
Variable f : float_format.
Let D : dtype := ieee f.
Local Existing Instance D.
Local Open Scope dt_scope.

Lemma hls_scale_offset_isnan (raw : Z) :
  (-32768 <= raw <= 32767)%Z ->
  isnan (HLS.scale_offset (of_int raw)) = (raw <=? 0)%Z.
Proof.
  intros Hraw.
  destruct (hls_scale_offset_spec f raw Hraw) as [Hs Hn].
  fold D in Hs, Hn.
  destruct (Z.leb_spec raw 0) as [Hle | Hlt].
  - rewrite Hs. assert (E : (0 <? raw)%Z = false) by (apply Z.ltb_ge; lia).
    rewrite E. reflexivity.
  - destruct (Hn Hlt) as (m & e & -> & _). reflexivity.
Qed.

Lemma hls_pixel_isnan (m : bool) (xn xr : Z) :
  (-32768 <= xn <= 32767)%Z -> (-32768 <= xr <= 32767)%Z ->
  isnan (HLS.calculate_evi2 (if m then nan else of_int xn)
           (if m then nan else of_int xr))
  = m || (xn <=? 0)%Z || (xr <=? 0)%Z.
Proof.
  intros Hn Hr. destruct m.
  - assert (H : isnan (HLS.scale_offset (@nan D))
                || isnan (HLS.scale_offset (@nan D)) = true) by reflexivity.
    destruct (hls_evi2_nan f _ _ H) as [Ha _]. fold D in Ha.
    rewrite Ha. reflexivity.
  - destruct (hls_evi2_isnan f xn xr Hn Hr) as (Ha & _). fold D in Ha.
    rewrite Ha, !hls_scale_offset_isnan by assumption. reflexivity.
Qed.

(** X7. In the two-band HLS cell a pixel has no index value exactly when
    it is masked (a reject bit or the nodata value in [fmask]) or its
    [nir] or [red] value is not above 0; every other pixel gets a number.
    For 16-bit band values, in binary32 and binary64. *)
Theorem hls_index_missing_exactly (nodata : option Z)
    (data : gmap string (list Z)) (fmask nir red : list Z) (i : nat)
    (c xn xr : Z) :
  data !! "fmask"%string = Some fmask ->
  data !! "nir"%string = Some nir ->
  data !! "red"%string = Some red ->
  fmask !! i = Some c -> nir !! i = Some xn -> red !! i = Some xr ->
  (-32768 <= xn <= 32767)%Z -> (-32768 <= xr <= 32767)%Z ->
  exists (ds : gmap string (list elt)) (evi2 : list elt) (v : elt),
    HLSCells.trend_data_masked nodata data = Some ds /\
    ds !! "evi2"%string = Some evi2 /\
    evi2 !! i = Some v /\
    isnan v
    = reject_mask HLS.pq_bin c || nodata_eq nodata c
      || (xn <=? 0)%Z || (xr <=? 0)%Z.
Proof.
  intros Hf Hn Hr Hc Hxn Hxr Bn Br.
  destruct (hls_index_cell_run nodata data fmask nir red Hf Hn Hr)
    as (masked & evi2 & _ & Hrun & _ & Hpix).
  exists (<["evi2"%string := evi2]> masked), evi2. eexists.
  split; [exact Hrun |]. split; [apply lookup_insert_eq |].
  split; [apply (Hpix i c xn xr Hc Hxn Hxr) |].
  apply hls_pixel_isnan; assumption.
Qed.

Lemma landsat_scale_offset_isnan (raw : Z) :
  (0 <= raw <= 65535)%Z ->
  isnan (Landsat.scale_offset (of_int raw)) = (raw =? 0)%Z.
Proof.
  intros Hraw. destruct (Z.eqb_spec raw 0) as [-> | Hne]; [reflexivity |].
  pose proof (landsat_scale_offset_nonzero f raw ltac:(lia)) as E.
  fold D in E. rewrite E.
  destruct (clip_unit_cases f _ (landsat_scaled_cases f raw ltac:(lia)))
    as (H & _). exact H.
Qed.

Lemma landsat_pixel_isnan (m : bool) (xn xr : Z) :
  (0 <= xn <= 65535)%Z -> (0 <= xr <= 65535)%Z ->
  isnan (Landsat.calculate_evi2 (if m then nan else of_int xn)
           (if m then nan else of_int xr))
  = m || (xn =? 0)%Z || (xr =? 0)%Z.
Proof.
  intros Hn Hr. destruct m.
  - assert (H : isnan (Landsat.scale_offset (@nan D))
                || isnan (Landsat.scale_offset (@nan D)) = true)
      by reflexivity.
    pose proof (landsat_evi2_nan f _ _ H) as Ha. fold D in Ha.
    rewrite Ha. reflexivity.
  - pose proof (landsat_evi2_isnan f xn xr Hn Hr) as Ha. fold D in Ha.
    rewrite Ha, !landsat_scale_offset_isnan by assumption. reflexivity.
Qed.

(** X8. In the Landsat cell a pixel has no index value exactly when its
    [qa_pixel] has a cloud or shadow bit or its [nir08] or [red] raw value
    is 0; every other pixel gets a number, also where the scaled value was
    clipped.  For 16-bit unsigned band values, in binary32 and
    binary64. *)
Theorem landsat_index_missing_exactly (data : gmap string (list Z))
    (qa_pixel nir08 red : list Z) (i : nat) (c xn xr : Z) :
  data !! "qa_pixel"%string = Some qa_pixel ->
  data !! "nir08"%string = Some nir08 ->
  data !! "red"%string = Some red ->
  qa_pixel !! i = Some c -> nir08 !! i = Some xn -> red !! i = Some xr ->
  (0 <= xn <= 65535)%Z -> (0 <= xr <= 65535)%Z ->
  exists (ds : gmap string (list elt)) (evi2 : list elt) (v : elt),
    LandsatCells.trend_data data = Some ds /\
    ds !! "evi2"%string = Some evi2 /\
    evi2 !! i = Some v /\
    isnan v = reject_mask Landsat.bitflags c || (xn =? 0)%Z || (xr =? 0)%Z.
Proof.
  intros Hq Hn Hr Hc Hxn Hxr Bn Br.
  destruct (landsat_index_cell_run data qa_pixel nir08 red Hq Hn Hr)
    as (masked & evi2 & _ & Hrun & _ & Hpix).
  exists (<["evi2"%string := evi2]> masked), evi2. eexists.
  split; [exact Hrun |]. split; [apply lookup_insert_eq |].
  split; [apply (Hpix i c xn xr Hc Hxn Hxr) |].
  apply landsat_pixel_isnan; assumption.
Qed.
End IndexValues.

Lemma hls_index_missing_exactly_witness :
  exists (ds : gmap string (list (@elt float32)))
         (evi2 : list (@elt float32)) (v : @elt float32),
    HLSCells.trend_data_masked (D := float32) (Some 255)
      (<["fmask"%string := [0; 2]]>
         (<["nir"%string := [3000; 3000]]> {["red"%string := [500; 500]]}))
    = Some ds /\
    ds !! "evi2"%string = Some evi2 /\
    evi2 !! 1%nat = Some v /\
    isnan v
    = reject_mask HLS.pq_bin 2 || nodata_eq (Some 255) 2
      || (3000 <=? 0)%Z || (500 <=? 0)%Z.
Proof.
  apply (hls_index_missing_exactly binary32 (Some 255)
           (<["fmask"%string := [0; 2]]>
              (<["nir"%string := [3000; 3000]]>
                 {["red"%string := [500; 500]]}))
           [0; 2] [3000; 3000] [500; 500] 1 2 3000 500);
    first [reflexivity | lia].
Defined.

Lemma landsat_index_missing_exactly_witness :
  exists (ds : gmap string (list (@elt float32)))
         (evi2 : list (@elt float32)) (v : @elt float32),
    LandsatCells.trend_data (D := float32)
      (<["qa_pixel"%string := [21824; 21824]]>
         (<["nir08"%string := [20000; 0]]> {["red"%string := [9000; 9000]]}))
    = Some ds /\
    ds !! "evi2"%string = Some evi2 /\
    evi2 !! 1%nat = Some v /\
    isnan v
    = reject_mask Landsat.bitflags 21824 || (0 =? 0)%Z || (9000 =? 0)%Z.
Proof.
  apply (landsat_index_missing_exactly binary32
           (<["qa_pixel"%string := [21824; 21824]]>
              (<["nir08"%string := [20000; 0]]>
                 {["red"%string := [9000; 9000]]}))
           [21824; 21824] [20000; 0] [9000; 9000] 1 21824 0 9000);
    first [reflexivity | lia].
Defined.

(** ** Swapping the two bands *)

Lemma binary_round_aux_opp (p em : Z) (s : bool) (m e : Z) (l : location) :
  binary_round_aux p em (negb s) m e l
  = SFopp (binary_round_aux p em s m e l).
Proof.
  unfold binary_round_aux.
  destruct (shr_fexp p em m e l) as [mrs' e'].
  destruct (shr_fexp p em _ e' loc_Exact) as [mrs'' e''].
  destruct (shr_m mrs''); [reflexivity | | reflexivity].
  destruct (e'' <=? em - p); reflexivity.
Qed.

Lemma binary_round_opp (p em : Z) (s : bool) (m : positive) (e : Z) :
  binary_round p em (negb s) m e = SFopp (binary_round p em s m e).
Proof.
  unfold binary_round.
  destruct (shl_align m e _) as [mz ez]. apply binary_round_aux_opp.
Qed.

Lemma binary_normalize_negated (p em : Z) (m e : Z) :
  sf_negated (binary_normalize p em m e false)
    (binary_normalize p em (- m) e false).
Proof.
  destruct m as [| q | q]; simpl.
  - right. split; reflexivity.
  - left. apply (binary_round_opp p em false).
  - left. rewrite (binary_round_opp p em false).
    destruct (binary_round p em false q e) as [[] | [] | | [] mr er];
      reflexivity.
Qed.

Lemma SFsub_negated (p em : Z) (x y : spec_float) :
  sf_negated (SFsub p em x y) (SFsub p em y x).
Proof.
  destruct x as [sx | sx | | sx mx ex], y as [sy | sy | | sy my ey];
    try (left; reflexivity);
    try (destruct sx, sy;
         first [left; reflexivity | right; split; reflexivity]);
    try (destruct sx; left; reflexivity);
    try (destruct sy; left; reflexivity).
  unfold SFsub. rewrite (Z.min_comm ey ex).
  set (A := cond_Zopp sx (Zpos (fst (shl_align mx ex (Z.min ex ey))))).
  set (B := cond_Zopp sy (Zpos (fst (shl_align my ey (Z.min ex ey))))).
  replace (B - A) with (- (A - B)) by lia.
  apply binary_normalize_negated.
Qed.

Lemma xorb_negb_l (a b : bool) : xorb (negb a) b = negb (xorb a b).
Proof. destruct a, b; reflexivity. Qed.

Lemma xorb_negb_r (a b : bool) : xorb a (negb b) = negb (xorb a b).
Proof. destruct a, b; reflexivity. Qed.

Lemma SFdiv_opp_l (p em : Z) (a d : spec_float) :
  SFdiv p em (SFopp a) d = SFopp (SFdiv p em a d).
Proof.
  destruct a as [sa | sa | | sa ma ea], d as [sd | sd | | sd md ed]; simpl;
    rewrite ?xorb_negb_l; try reflexivity.
  destruct (SFdiv_core_binary p em (Zpos ma) ea (Zpos md) ed) as [[mz ez] lz].
  apply binary_round_aux_opp.
Qed.

Lemma SFmul_opp_r (p em : Z) (c a : spec_float) :
  SFmul p em c (SFopp a) = SFopp (SFmul p em c a).
Proof.
  destruct c as [sc | sc | | sc mc ec], a as [sa | sa | | sa ma ea]; simpl;
    rewrite ?xorb_negb_r; try reflexivity.
  apply binary_round_aux_opp.
Qed.

Lemma SFdiv_negated (p em : Z) (a b d : spec_float) :
  sf_negated a b -> sf_negated (SFdiv p em a d) (SFdiv p em b d).
Proof.
  intros [-> | [Ha Hb]].
  - left. apply SFdiv_opp_l.
  - destruct a as [sa | | |]; try discriminate Ha.
    destruct b as [sb | | |]; try discriminate Hb.
    destruct d as [sd | sd | | sd md ed]; simpl;
      first [left; reflexivity | right; split; reflexivity].
Qed.

Lemma SFmul_negated (p em : Z) (c a b : spec_float) :
  sf_negated a b -> sf_negated (SFmul p em c a) (SFmul p em c b).
Proof.
  intros [-> | [Ha Hb]].
  - left. apply SFmul_opp_r.
  - destruct a as [sa | | |]; try discriminate Ha.
    destruct b as [sb | | |]; try discriminate Hb.
    destruct c as [sc | sc | | sc mc ec]; simpl;
      first [left; reflexivity | right; split; reflexivity].
Qed.

Lemma SFadd_comm (p em : Z) (x y : spec_float) :
  SFadd p em x y = SFadd p em y x.
Proof.
  destruct x as [sx | sx | | sx mx ex], y as [sy | sy | | sy my ey];
    try reflexivity;
    try (destruct sx, sy; reflexivity).
  unfold SFadd. rewrite (Z.min_comm ey ex). f_equal. apply Z.add_comm.
Qed.

Lemma SFeqb_refl (x : spec_float) : sf_isnan x = false -> SFeqb x x = true.
Proof.
  destruct x as [s | s | | s m e]; intros H; try discriminate H.
  - reflexivity.
  - destruct s; reflexivity.
  - unfold SFeqb, SFcompare.
    rewrite Z.compare_refl, Pos.compare_cont_refl. destruct s; reflexivity.
Qed.

Lemma SFeqb_true_cases (x y : spec_float) :
  SFeqb x y = true ->
  (sf_is_zero x = true /\ sf_is_zero y = true) \/
  (x = y /\ sf_isnan x = false).
Proof.
  intros H.
  destruct x as [sx | sx | | sx mx ex], y as [sy | sy | | sy my ey];
    try discriminate H;
    try (destruct sx; discriminate H);
    try (destruct sy; discriminate H).
  - left. split; reflexivity.
  - right. destruct sx, sy; try discriminate H; split; reflexivity.
  - right. unfold SFeqb, SFcompare in H.
    destruct sx, sy; try discriminate H;
      destruct (Z.compare_spec ex ey) as [-> | |]; try discriminate H;
      destruct (Pos.compare_cont Eq mx my) eqn:Em; try discriminate H;
      apply Pos.compare_eq in Em; subst; split; reflexivity.
Qed.

Lemma sf_negated_equal_nan (a b : spec_float) :
  sf_negated a b -> sf_equal_nan b (SFopp a) = true.
Proof.
  unfold sf_equal_nan. intros [-> | [Ha Hb]].
  - destruct (sf_isnan (SFopp a)) eqn:E.
    + rewrite orb_true_r. reflexivity.
    + rewrite (SFeqb_refl _ E). reflexivity.
  - destruct a as [sa | | |]; try discriminate Ha.
    destruct b as [sb | | |]; try discriminate Hb. reflexivity.
Qed.

Section SwapBands.
Variable f : float_format.
Let D : dtype := ieee f.
Local Existing Instance D.
Local Open Scope dt_scope.

(** Either way of writing the two-band formula, with the two scaled
    values exchanged. *)
Lemma evi2_formula_negated (x y : spec_float) :
  sf_negated
    (SFmul (prec f) (emax f) (sf_lit f 2.4)
       (SFdiv (prec f) (emax f) (SFsub (prec f) (emax f) x y)
          (SFadd (prec f) (emax f) (SFadd (prec f) (emax f) x y)
             (sf_of_int f 1))))
    (SFmul (prec f) (emax f) (sf_lit f 2.4)
       (SFdiv (prec f) (emax f) (SFsub (prec f) (emax f) y x)
          (SFadd (prec f) (emax f) (SFadd (prec f) (emax f) y x)
             (sf_of_int f 1)))) /\
  sf_negated
    (SFdiv (prec f) (emax f)
       (SFmul (prec f) (emax f) (sf_lit f 2.4) (SFsub (prec f) (emax f) x y))
       (SFadd (prec f) (emax f) (SFadd (prec f) (emax f) x y)
          (sf_of_int f 1)))
    (SFdiv (prec f) (emax f)
       (SFmul (prec f) (emax f) (sf_lit f 2.4) (SFsub (prec f) (emax f) y x))
       (SFadd (prec f) (emax f) (SFadd (prec f) (emax f) y x)
          (sf_of_int f 1))).
Proof.
  rewrite (SFadd_comm _ _ y x).
  pose proof (SFsub_negated (prec f) (emax f) x y) as Hn.
  split.
  - apply SFmul_negated, SFdiv_negated, Hn.
  - apply SFdiv_negated, SFmul_negated, Hn.
Qed.

(** X9. Exchanging the two bands negates the two-band index: for all
    element values, in every notebook's way of writing the formula and in
    binary32 and binary64, the index of (red, nir) equals minus the index
    of (nir, red) as a number, or both are "no value". *)
Theorem evi2_swap_negates (nir red : elt) :
  sf_equal_nan (HLS.calculate_evi2 red nir)
    (SFopp (HLS.calculate_evi2 nir red)) = true /\
  sf_equal_nan (HLSRaster.calculate_evi2 red nir)
    (SFopp (HLSRaster.calculate_evi2 nir red)) = true /\
  sf_equal_nan (Landsat.calculate_evi2 red nir)
    (SFopp (Landsat.calculate_evi2 nir red)) = true.
Proof.
  split; [| split]; apply sf_negated_equal_nan.
  - apply (proj1 (evi2_formula_negated (HLS.scale_offset nir)
                    (HLS.scale_offset red))).
  - apply (proj2 (evi2_formula_negated (HLSRaster.scale_offset nir)
                    (HLSRaster.scale_offset red))).
  - apply (proj2 (evi2_formula_negated (Landsat.scale_offset nir)
                    (Landsat.scale_offset red))).
Qed.

(** X10. When the scaled [nir] and [red] values are equal, the three-band
    index is zero or "no value" (the latter when the denominator is zero
    or not a finite number): it is never a nonzero number and never an
    infinity. *)
Theorem evi_equal_bands (nir red blue : elt) :
  (HLS.scale_offset nir == HLS.scale_offset red) = true ->
  sf_is_zero (HLS.calculate_evi nir red blue)
  || isnan (HLS.calculate_evi nir red blue) = true.
Proof.
  unfold HLS.calculate_evi.
  set (x := HLS.scale_offset nir). set (y := HLS.scale_offset red).
  set (den := x + of_int 6 * y - lit 7.5 * HLS.scale_offset blue + of_int 1).
  clearbody den x y. intros Heq.
  assert (Hnum : sf_is_zero (x - y) || isnan (x - y) = true).
  { change (SFeqb x y = true) in Heq.
    change (x - y) with (SFsub (prec f) (emax f) x y).
    change (@isnan D) with sf_isnan.
    destruct (SFeqb_true_cases x y Heq) as [[Hx Hy] | [<- Hx]].
    - destruct x as [[] | | |]; try discriminate Hx;
        destruct y as [[] | | |]; try discriminate Hy; reflexivity.
    - destruct x as [[] | [] | | sx mx ex]; try discriminate Hx;
        try reflexivity.
      unfold SFsub. rewrite Z.sub_diag. reflexivity. }
  change (@lit D 2.5) with (sf_lit f 2.5).
  pose proof (sf_lit_2_5_pos f) as Hc.
  destruct (sf_lit f 2.5) as [| | | [] mc ec]; try discriminate Hc.
  destruct (x - y) as [sn | sn | | sn mn en]; try discriminate Hnum.
  - destruct den as [sd | sd | | sd md ed]; reflexivity.
  - destruct den as [sd | sd | | sd md ed]; reflexivity.
Qed.
End SwapBands.

Lemma evi_equal_bands_witness :
  sf_is_zero (HLS.calculate_evi (D := float64) (sf_of_int binary64 3000)
                (sf_of_int binary64 3000) (sf_of_int binary64 500))
  || isnan (HLS.calculate_evi (D := float64) (sf_of_int binary64 3000)
              (sf_of_int binary64 3000) (sf_of_int binary64 500)) = true.
Proof.
  apply (evi_equal_bands binary64). vm_compute. reflexivity.
Defined.

(** ** The sign of the two-band index *)

Section Quotients.
Variable f : float_format.

(** The difference of two positive numbers, the larger first. *)
Lemma SFsub_gt_normal (lo1 hi1 lo2 hi2 : Z) (x y : spec_float) :
  normal f false lo1 hi1 x -> normal f false lo2 hi2 y ->
  -60 <= Z.min lo1 lo2 -> Z.max hi1 hi2 <= 119 ->
  SFltb y x = true ->
  normal f false (Z.min lo1 lo2 - 52) (hi1 + 1)
    (SFsub (prec f) (emax f) x y).
Proof.
  intros (m1 & e1 & -> & Hd1 & Hb1) (m2 & e2 & -> & Hd2 & Hb2) Hlo Hhi Hlt.
  pose proof (format_bounds f) as Hf.
  assert (Hp : prec f <= 53) by (destruct f; simpl; lia).
  pose proof (Zpos_digits_bounds m1) as B1. rewrite Hd1 in B1.
  pose proof (Zpos_digits_bounds m2) as B2. rewrite Hd2 in B2.
  assert (H2p : 2 ^ prec f = 2 * 2 ^ (prec f - 1)).
  { replace (prec f) with (Z.succ (prec f - 1)) at 1 by lia.
    apply Z.pow_succ_r. lia. }
  unfold SFsub. rewrite !shl_align_le by lia. simpl fst. unfold cond_Zopp.
  set (a1 := shl m1 (e1 - Z.min e1 e2)).
  set (a2 := shl m2 (e2 - Z.min e1 e2)).
  assert (Ha1 : Zpos (digits2_pos a1) = prec f + (e1 - Z.min e1 e2))
    by (unfold a1; rewrite shl_digits by lia; lia).
  assert (Hgt : Zpos a2 < Zpos a1).
  { unfold a1, a2. rewrite !shl_spec by lia.
    unfold SFltb, SFcompare in Hlt.
    destruct (Z.compare_spec e2 e1) as [-> | Hee | Hee];
      try discriminate Hlt.
    - destruct (Pos.compare_cont Eq m2 m1) eqn:Em; try discriminate Hlt.
      change (Pos.compare_cont Eq m2 m1) with (Pos.compare m2 m1) in Em.
      rewrite Pos.compare_lt_iff in Em.
      rewrite Z.min_id, Z.sub_diag. change (2 ^ 0) with 1. lia.
    - rewrite Z.min_r by lia. rewrite Z.sub_diag.
      assert (2 <= 2 ^ (e1 - e2)).
      { change 2 with (2 ^ 1) at 1. apply Z.pow_le_mono_r; lia. }
      change (2 ^ 0) with 1. nia. }
  destruct (Zpos a1 - Zpos a2) as [| M | M] eqn:EM; [lia | | lia].
  unfold binary_normalize.
  pose proof (digits2_pos_le M a1 ltac:(lia)) as HM.
  assert (HM1 : 1 <= Zpos (digits2_pos M)) by lia.
  destruct (binary_round_normal f false M (Z.min e1 e2))
    as (m & e & H & Hm & Hb); [lia |].
  exists m, e. split; [exact H |]. split; [exact Hm | lia].
Qed.

(** The quotient of two numbers. *)
Lemma SFdiv_normal (s1 s2 : bool) (lo1 hi1 lo2 hi2 : Z)
    (x y : spec_float) :
  normal f s1 lo1 hi1 x -> normal f s2 lo2 hi2 y ->
  -120 <= lo1 - hi2 -> hi1 - lo2 <= 120 ->
  normal f (xorb s1 s2) (lo1 - hi2) (hi1 - lo2 + 2)
    (SFdiv (prec f) (emax f) x y).
Proof.
  intros (m1 & e1 & -> & Hd1 & Hb1) (m2 & e2 & -> & Hd2 & Hb2) Hlo Hhi.
  pose proof (format_bounds f) as Hf.
  assert (He : 128 <= emax f) by (destruct f; simpl; lia).
  pose proof (Zpos_digits_bounds m1) as B1. rewrite Hd1 in B1.
  pose proof (Zpos_digits_bounds m2) as B2. rewrite Hd2 in B2.
  assert (H2p : 2 ^ prec f = 2 * 2 ^ (prec f - 1)).
  { replace (prec f) with (Z.succ (prec f - 1)) at 1 by lia.
    apply Z.pow_succ_r. lia. }
  assert (Hpp : 2 ^ (prec f + 1) = 2 * 2 ^ prec f).
  { replace (prec f + 1) with (Z.succ (prec f)) by lia.
    apply Z.pow_succ_r. lia. }
  assert (Hpos : 0 < 2 ^ (prec f - 1)) by (apply Z.pow_pos_nonneg; lia).
  unfold SFdiv, SFdiv_core_binary. unfold Zdigits2. rewrite Hd1, Hd2.
  unfold fexp, emin.
  replace (Z.min (Z.max (prec f + e1 - (prec f + e2) - prec f)
                    (3 - emax f - prec f)) (e1 - e2))
    with (e1 - e2 - prec f) by lia.
  replace (e1 - e2 - (e1 - e2 - prec f)) with (prec f) by lia.
  assert (Hshift : match prec f with
                   | 0 => Zpos m1
                   | Zpos _ => Z.shiftl (Zpos m1) (prec f)
                   | Zneg _ => 0
                   end = Zpos m1 * 2 ^ prec f).
  { destruct (prec f) eqn:Ep; [lia | | lia].
    rewrite Z.shiftl_mul_pow2 by lia. reflexivity. }
  rewrite Hshift.
  pose proof (Z.div_eucl_eq (Zpos m1 * 2 ^ prec f) (Zpos m2) ltac:(lia))
    as Heq.
  pose proof (Z.mod_pos_bound (Zpos m1 * 2 ^ prec f) (Zpos m2) ltac:(lia))
    as Hr.
  unfold Z.modulo in Hr.
  change (IntDef.Z.div_eucl (Zpos m1 * 2 ^ prec f) (Zpos m2))
    with (Z.div_eucl (Zpos m1 * 2 ^ prec f) (Zpos m2)).
  destruct (Z.div_eucl (Zpos m1 * 2 ^ prec f) (Zpos m2)) as [q r].
  assert (Hq : 2 ^ (prec f - 1) <= q < 2 ^ (prec f + 1)).
  { rewrite Hpp. split; nia. }
  destruct q as [| Q | Q]; [lia | | lia].
  generalize (new_location (Zpos m2) r). intros l.
  assert (HdQ : prec f <= Zpos (digits2_pos Q) <= prec f + 1).
  { destruct (Z_lt_le_dec (Zpos Q) (2 ^ prec f)) as [Hlt | Hge].
    - rewrite (digits_of_bounds Q (prec f)) by lia. lia.
    - rewrite (digits_of_bounds Q (prec f + 1)); [lia | | lia].
      replace (prec f + 1 - 1) with (prec f) by lia. lia. }
  destruct (binary_round_aux_normal f (xorb s1 s2) Q (e1 - e2 - prec f) l)
    as (m & e & H & Hm & Hb); [lia | lia | lia |].
  exists m, e. split; [exact H |]. split; [exact Hm | lia].
Qed.
End Quotients.

Lemma sf_lit_2_4_normal (f : float_format) :
  normal f false 2 2 (sf_lit f 2.4).
Proof.
  destruct f; eexists; eexists;
    (split; [vm_compute; reflexivity | split; [reflexivity | simpl; lia]]).
Qed.

Section IndexSign.
Variable f : float_format.
Let D : dtype := ieee f.
Local Existing Instance D.
Local Open Scope dt_scope.

(** Either way of writing the two-band formula gives a positive number
    when the first scaled value is the larger. *)
Lemma evi2_formula_positive (x y : spec_float) :
  normal f false (-13) 5 x -> normal f false (-13) 5 y ->
  SFltb y x = true ->
  sf_pos_finite
    (SFmul (prec f) (emax f) (sf_lit f 2.4)
       (SFdiv (prec f) (emax f) (SFsub (prec f) (emax f) x y)
          (SFadd (prec f) (emax f) (SFadd (prec f) (emax f) x y)
             (sf_of_int f 1)))) = true /\
  sf_pos_finite
    (SFdiv (prec f) (emax f)
       (SFmul (prec f) (emax f) (sf_lit f 2.4) (SFsub (prec f) (emax f) x y))
       (SFadd (prec f) (emax f) (SFadd (prec f) (emax f) x y)
          (sf_of_int f 1))) = true.
Proof.
  intros Hx Hy Hlt.
  pose proof (SFsub_gt_normal f _ _ _ _ _ _ Hx Hy ltac:(lia) ltac:(lia) Hlt)
    as Hnum.
  assert (Hden : normal f false 1 9
                   (SFadd (prec f) (emax f) (SFadd (prec f) (emax f) x y)
                      (sf_of_int f 1))).
  { apply evi2_denominator_normal;
      eapply normal_weaken; try eassumption; lia. }
  pose proof (sf_lit_2_4_normal f) as Hc.
  split.
  - pose proof (SFdiv_normal f _ _ _ _ _ _ _ _ Hnum Hden ltac:(lia)
                  ltac:(lia)) as Hq.
    pose proof (SFmul_normal f _ _ _ _ _ _ _ _ Hc Hq ltac:(lia) ltac:(lia))
      as Hr.
    destruct Hr as (m & e & -> & _). reflexivity.
  - pose proof (SFmul_normal f _ _ _ _ _ _ _ _ Hc Hnum ltac:(lia)
                  ltac:(lia)) as Hq.
    pose proof (SFdiv_normal f _ _ _ _ _ _ _ _ Hq Hden ltac:(lia)
                  ltac:(lia)) as Hr.
    destruct Hr as (m & e & -> & _). reflexivity.
Qed.

Lemma sf_negated_pos (a b : spec_float) :
  sf_negated a b -> sf_pos_finite a = true ->
  SFltb (S754_zero false) b = false /\ SFltb b (S754_zero false) = true /\
  sf_finite_or_zero b = true.
Proof.
  intros [-> | [Ha _]] Hp.
  - destruct a as [| | | [] m e]; try discriminate Hp.
    repeat split; reflexivity.
  - destruct a as [| | | [] m e]; discriminate.
Qed.

(** The sign of either formula on two valid scaled values. *)
Lemma evi2_formula_sign (x y : spec_float) :
  normal f false (-13) 5 x -> normal f false (-13) 5 y ->
  let a :=
    SFmul (prec f) (emax f) (sf_lit f 2.4)
      (SFdiv (prec f) (emax f) (SFsub (prec f) (emax f) x y)
         (SFadd (prec f) (emax f) (SFadd (prec f) (emax f) x y)
            (sf_of_int f 1))) in
  let b :=
    SFdiv (prec f) (emax f)
      (SFmul (prec f) (emax f) (sf_lit f 2.4) (SFsub (prec f) (emax f) x y))
      (SFadd (prec f) (emax f) (SFadd (prec f) (emax f) x y)
         (sf_of_int f 1)) in
  (SFltb (S754_zero false) a = SFltb y x /\
   SFltb a (S754_zero false) = SFltb x y /\
   sf_finite_or_zero a = true) /\
  (SFltb (S754_zero false) b = SFltb y x /\
   SFltb b (S754_zero false) = SFltb x y /\
   sf_finite_or_zero b = true).
Proof.
  intros Hx Hy a b. subst a b.
  destruct (SFltb y x) eqn:Eyx.
  - destruct (evi2_formula_positive x y Hx Hy Eyx) as [Ha Hb].
    assert (Exy : SFltb x y = false).
    { destruct Hx as (m1 & e1 & -> & _), Hy as (m2 & e2 & -> & _).
      apply SFltb_pos_asym. exact Eyx. }
    rewrite Exy.
    split.
    + destruct (SFmul _ _ _ _) as [| | | [] m e]; try discriminate Ha.
      repeat split; reflexivity.
    + destruct (SFdiv _ _ (SFmul _ _ _ _) _) as [| | | [] m e];
        try discriminate Hb.
      repeat split; reflexivity.
  - destruct (SFltb x y) eqn:Exy.
    + destruct (evi2_formula_positive y x Hy Hx Exy) as [Ha Hb].
      destruct (evi2_formula_negated f y x) as [Na Nb].
      destruct (sf_negated_pos _ _ Na Ha) as (Ha1 & Ha2 & Ha3).
      destruct (sf_negated_pos _ _ Nb Hb) as (Hb1 & Hb2 & Hb3).
      repeat split; assumption.
    + assert (E : x = y).
      { destruct Hx as (m1 & e1 & -> & _), Hy as (m2 & e2 & -> & _).
        symmetry. apply SFltb_pos_eq; assumption. }
      subst y.
      assert (Hnn : sf_nonneg_finite x = true)
        by (destruct Hx as (m1 & e1 & -> & _); reflexivity).
      assert (Hden : sf_pos_finite
                (SFadd (prec f) (emax f) (SFadd (prec f) (emax f) x x)
                   (sf_of_int f 1)) = true).
      { apply (normal_pos_finite f 1 9). apply evi2_denominator_normal;
          eapply normal_weaken; try eassumption; lia. }
      destruct (evi2_formula_zero f x Hnn Hden) as [-> ->].
      repeat split; reflexivity.
Qed.

(** X11. For valid 16-bit HLS band values the two-band index is a finite
    number with the sign of [nir - red]: it is above 0 exactly when the
    scaled [nir] is above the scaled [red], and below 0 exactly when it
    is the other way round, and it is never an infinity, in both
    notebooks' way of writing the formula and in binary32 and
    binary64. *)
Theorem evi2_sign (raw_nir raw_red : Z) :
  (0 < raw_nir <= 32767)%Z -> (0 < raw_red <= 32767)%Z ->
  ((HLS.calculate_evi2 (of_int raw_nir) (of_int raw_red) > of_int 0)
   = (HLS.scale_offset (of_int raw_nir) > HLS.scale_offset (of_int raw_red))
   /\
   (of_int 0 > HLS.calculate_evi2 (of_int raw_nir) (of_int raw_red))
   = (HLS.scale_offset (of_int raw_red) > HLS.scale_offset (of_int raw_nir))
   /\
   sf_finite_or_zero (HLS.calculate_evi2 (of_int raw_nir) (of_int raw_red))
   = true)
  /\
  ((HLSRaster.calculate_evi2 (of_int raw_nir) (of_int raw_red) > of_int 0)
   = (HLS.scale_offset (of_int raw_nir) > HLS.scale_offset (of_int raw_red))
   /\
   (of_int 0 > HLSRaster.calculate_evi2 (of_int raw_nir) (of_int raw_red))
   = (HLS.scale_offset (of_int raw_red) > HLS.scale_offset (of_int raw_nir))
   /\
   sf_finite_or_zero
     (HLSRaster.calculate_evi2 (of_int raw_nir) (of_int raw_red)) = true).
Proof.
  intros Hn Hr.
  destruct (hls_scale_offset_spec f raw_nir ltac:(lia)) as [_ Hx].
  destruct (hls_scale_offset_spec f raw_red ltac:(lia)) as [_ Hy].
  specialize (Hx ltac:(lia)). specialize (Hy ltac:(lia)).
  fold D in Hx, Hy.
  exact (evi2_formula_sign _ _ Hx Hy).
Qed.
End IndexSign.

Lemma evi2_sign_witness :
  @gtb float32
    (HLS.calculate_evi2 (@of_int float32 3000) (@of_int float32 500))
    (@of_int float32 0)
  = @gtb float32 (HLS.scale_offset (@of_int float32 3000))
      (HLS.scale_offset (@of_int float32 500)) /\
  @gtb float32 (@of_int float32 0)
    (HLS.calculate_evi2 (@of_int float32 3000) (@of_int float32 500))
  = @gtb float32 (HLS.scale_offset (@of_int float32 500))
      (HLS.scale_offset (@of_int float32 3000)) /\
  sf_finite_or_zero
    (HLS.calculate_evi2 (@of_int float32 3000) (@of_int float32 500)) = true.
Proof.
  apply (proj1 (evi2_sign binary32 3000 500 ltac:(lia) ltac:(lia))).
Defined.

(** ** Which observations a quarter holds *)

(** X12. The label that the anchored resampling gives to an observation
    is the start of the three-month window that holds it: it is not after
    the observation, less than three months before it, and a multiple of
    three months away from the anchor; it falls in the anchor month
    exactly for the observations of the anchor month and the two months
    after it.  With the February anchor the groups are Feb-Mar-Apr,
    May-Jun-Jul, Aug-Sep-Oct and Nov-Dec-Jan (January in the quarter of
    the year before); with the December anchor the kept group is
    Dec-Jan-Feb, labelled with the year of its December. *)
Theorem quarter_of_observation (anchor : Z) (t : period) :
  1 <= anchor <= 12 -> 1 <= month t <= 12 ->
  (0 <= (12 * year t + month t)
        - (12 * year (quarter_start anchor t)
           + month (quarter_start anchor t)) < 3) /\
  (month (quarter_start anchor t) - anchor) mod 3 = 0 /\
  (month (quarter_start anchor t) = anchor <->
   (month t - anchor) mod 12 < 3) /\
  quarter_start 2 t
  = (if month t =? 1 then {| year := year t - 1; month := 11 |}
     else if month t <? 5 then {| year := year t; month := 2 |}
     else if month t <? 8 then {| year := year t; month := 5 |}
     else if month t <? 11 then {| year := year t; month := 8 |}
     else {| year := year t; month := 11 |}) /\
  quarter_start 12 t
  = (if month t <? 3 then {| year := year t - 1; month := 12 |}
     else if month t <? 6 then {| year := year t; month := 3 |}
     else if month t <? 9 then {| year := year t; month := 6 |}
     else if month t <? 12 then {| year := year t; month := 9 |}
     else {| year := year t; month := 12 |}).
Proof.
  intros Ha Ht. destruct t as [y m]. simpl in Ht.
  split; [| split; [| split; [| split]]].
  - unfold quarter_start. simpl.
    pose proof (Z.mod_pos_bound (m - anchor) 3 ltac:(lia)) as Hk.
    destruct (m - (m - anchor) mod 3 <? 1); simpl; lia.
  - apply (quarter_start_month anchor {| year := y; month := m |});
      assumption.
  - simpl month.
    month_cases anchor; month_cases m; vm_compute; split; congruence.
  - month_cases m; reflexivity.
  - month_cases m; reflexivity.
Qed.

Lemma quarter_of_observation_witness :
  quarter_start 12 {| year := 2014; month := 1 |}
  = {| year := 2013; month := 12 |}.
Proof.
  exact (proj2 (proj2 (proj2 (proj2
           (quarter_of_observation 12 {| year := 2014; month := 1 |}
              ltac:(lia) ltac:(simpl; lia)))))).
Defined.

(** ** One kept quarter per year *)

Section OnePerYear.
Context {A : Type}.

Lemma sel_month_year_step (anchor : Z) (start : period) (d1 d2 d3 d4 : A)
    (rest : list (period * A)) :
  1 <= anchor <= 12 -> 1 <= month start <= 12 ->
  (month start - anchor) mod 3 = 0 ->
  next_quarter (next_quarter (next_quarter (next_quarter start)))
  = {| year := year start + 1; month := month start |} /\
  (sel_month anchor
     ((start, d1) :: (next_quarter start, d2)
      :: (next_quarter (next_quarter start), d3)
      :: (next_quarter (next_quarter (next_quarter start)), d4) :: rest)).*1
  = {| year := year start + (if anchor <? month start then 1 else 0);
       month := anchor |} :: (sel_month anchor rest).*1.
Proof.
  destruct start as [y m]. simpl. intros Ha Hm Hmod.
  month_cases anchor; month_cases m; try discriminate Hmod;
    (split; [unfold next_quarter; simpl; f_equal; lia |]);
    unfold sel_month, next_quarter; simpl;
    repeat f_equal; lia.
Qed.

(** X13. After the anchored resampling the quarters follow each other
    without a gap, so the selection keeps exactly one group per year: of
    [4 * n] consecutive quarters it keeps [n], labelled with the anchor
    month of [n] consecutive years, the first of them the first anchor
    month at or after the start. *)
Theorem sel_month_one_per_year (anchor : Z) (n : nat) (start : period)
    (ds : list A) :
  1 <= anchor <= 12 -> 1 <= month start <= 12 ->
  (month start - anchor) mod 3 = 0 ->
  length ds = (4 * n)%nat ->
  (sel_month anchor (zip (quarter_labels start (4 * n)) ds)).*1
  = (fun k : nat =>
       {| year := year start + (if anchor <? month start then 1 else 0)
                  + Z.of_nat k;
          month := anchor |}) <$> seq 0 n.
Proof.
  intros Ha. revert start ds.
  induction n as [| n IH]; intros start ds Hm Hmod Hlen.
  - reflexivity.
  - replace (4 * S n)%nat with (S (S (S (S (4 * n))))) in * by lia.
    destruct ds as [| d1 [| d2 [| d3 [| d4 ds]]]]; try discriminate Hlen.
    simpl in Hlen. injection Hlen as Hlen.
    cbn [quarter_labels zip zip_with].
    destruct (sel_month_year_step anchor start d1 d2 d3 d4
                (zip (quarter_labels
                        (next_quarter (next_quarter (next_quarter
                           (next_quarter start)))) (4 * n)) ds)
                Ha Hm Hmod) as [Hnext Hsel].
    rewrite Hsel, Hnext.
    rewrite (IH {| year := year start + 1; month := month start |} ds)
      by (simpl; assumption).
    simpl. f_equal; [f_equal; lia |].
    rewrite <- fmap_S_seq, <- list_fmap_compose.
    apply list_fmap_ext. intros i k _. simpl. f_equal. lia.
Qed.
End OnePerYear.

Lemma sel_month_one_per_year_witness :
  (sel_month 2
     (zip (quarter_labels {| year := 2013; month := 11 |} (4 * 2))
        [1; 2; 3; 4; 5; 6; 7; 8]%nat)).*1
  = (fun k : nat =>
       {| year := 2013 + (if 2 <? 11 then 1 else 0) + Z.of_nat k;
          month := 2 |}) <$> seq 0 2.
Proof.
  apply (sel_month_one_per_year 2 2 {| year := 2013; month := 11 |}
           [1; 2; 3; 4; 5; 6; 7; 8]%nat); simpl; first [lia | reflexivity].
Defined.

(** ** What the true-colour plot is given *)

Section PlotSelection.
Context {A : Type}.

Lemma slice_lookup (start stop : nat) (l : list A) (k : nat) :
  (k < stop - start)%nat -> slice start stop l !! k = l !! (start + k)%nat.
Proof.
  intros Hk. unfold slice.
  rewrite lookup_take_lt by exact Hk. apply lookup_drop.
Qed.

Lemma slice_length (start stop : nat) (l : list A) :
  length (slice start stop l)
  = Nat.min (stop - start) (length l - start).
Proof. unfold slice. rewrite length_take, length_drop. reflexivity. Qed.

(** X14. Inside [plot_rgb], the selection of the bands raises before the
    drawing exactly when the dataset lacks one of the bands red, green,
    blue.  Otherwise the drawing call is reached with these three bands
    in this order, whatever else the dataset holds, each with the scenes
    at time positions 4, 5 and 6 as far as they exist: at most three
    scenes, and an array without any scene when the dataset has four
    scenes or fewer. *)
Theorem rgb_subset_selection (data : gmap string (list A)) :
  (rgb_subset data = None <->
   data !! "red"%string = None \/ data !! "green"%string = None \/
   data !! "blue"%string = None) /\
  (forall red green blue : list A,
     data !! "red"%string = Some red ->
     data !! "green"%string = Some green ->
     data !! "blue"%string = Some blue ->
     exists r g b : list A,
       rgb_subset data = Some [r; g; b] /\
       (forall k : nat,
          (k < 3)%nat ->
          r !! k = red !! (4 + k)%nat /\ g !! k = green !! (4 + k)%nat /\
          b !! k = blue !! (4 + k)%nat) /\
       length r = Nat.min 3 (length red - 4) /\
       length g = Nat.min 3 (length green - 4) /\
       length b = Nat.min 3 (length blue - 4) /\
       ((length red <= 4)%nat -> r = [])).
Proof.
  unfold rgb_subset, select_vars. split.
  - simpl.
    destruct (data !! "red"%string) as [red |]; simpl;
      [| split; [intros _; left; reflexivity | reflexivity]].
    destruct (data !! "green"%string) as [green |]; simpl;
      [| split; [intros _; right; left; reflexivity | reflexivity]].
    destruct (data !! "blue"%string) as [blue |]; simpl;
      [| split; [intros _; right; right; reflexivity | reflexivity]].
    split; [discriminate |]. intros [H | [H | H]]; discriminate H.
  - intros red green blue Hr Hg Hb. simpl. rewrite Hr, Hg, Hb. simpl.
    exists (slice 4 7 red), (slice 4 7 green), (slice 4 7 blue).
    split; [reflexivity |].
    split; [| split; [| split; [| split]]]; try apply slice_length.
    + intros k Hk. rewrite !slice_lookup by (simpl; lia).
      repeat split; reflexivity.
    + intros Hlen. apply nil_length_inv. rewrite slice_length. lia.
Qed.
End PlotSelection.

(** ** The years of the trend *)

Section TrendLoop.
Context {A : Type}.
Variable from_stac_query : Z -> Trend.RasterBase (A := A).

Lemma trend_loop_from (acc : Trend.RasterBase (A := A)) (years : list Z) :
  fold_left
    (fun hls_trend_raster year =>
       let hls_year_raster := from_stac_query year in
       match hls_trend_raster with
       | None => Some hls_year_raster
       | Some r =>
           Some {| Trend.data := Trend.data r ++ Trend.data hls_year_raster;
                   Trend.masks :=
                     Trend.masks r ++ Trend.masks hls_year_raster |}
       end)
    years (Some acc)
  = Some {| Trend.data :=
              Trend.data acc
              ++ concat ((fun y => Trend.data (from_stac_query y)) <$> years);
            Trend.masks :=
              Trend.masks acc
              ++ concat ((fun y => Trend.masks (from_stac_query y))
                           <$> years) |}.
Proof.
  revert acc. induction years as [| y years IH]; intros acc; simpl.
  - rewrite !app_nil_r. destruct acc; reflexivity.
  - rewrite IH. simpl. rewrite !app_assoc. reflexivity.
Qed.

(** X15. The loop that loads the trend year by year ends with no raster
    exactly when the range of years is empty.  Otherwise it ends with the
    scenes of all the years of the range, from the first year to the year
    before [stop], in the order of the years and none of them twice or
    dropped, and with the masks put together in the same way: when every
    year's masks match its scenes in number, so do the result's. *)
Theorem hls_trend_raster_concat (start stop : Z) :
  (Trend.hls_trend_raster from_stac_query (Trend.range start stop) = None
   <-> stop <= start) /\
  (forall year : Z, In year (Trend.range start stop) <-> start <= year < stop)
  /\
  (start < stop ->
   exists r : Trend.RasterBase (A := A),
     Trend.hls_trend_raster from_stac_query (Trend.range start stop)
     = Some r /\
     Trend.data r
     = concat ((fun y => Trend.data (from_stac_query y))
                 <$> Trend.range start stop) /\
     Trend.masks r
     = concat ((fun y => Trend.masks (from_stac_query y))
                 <$> Trend.range start stop) /\
     ((forall year : Z,
         length (Trend.data (from_stac_query year))
         = length (Trend.masks (from_stac_query year))) ->
      length (Trend.data r) = length (Trend.masks r))).
Proof.
  assert (Hrun : forall years : list Z,
            years <> [] ->
            Trend.hls_trend_raster from_stac_query years
            = Some {| Trend.data :=
                        concat ((fun y => Trend.data (from_stac_query y))
                                  <$> years);
                      Trend.masks :=
                        concat ((fun y => Trend.masks (from_stac_query y))
                                  <$> years) |}).
  { intros [| y years] Hne; [congruence |].
    unfold Trend.hls_trend_raster. simpl. apply trend_loop_from. }
  split; [| split].
  - unfold Trend.range. destruct (Z_le_gt_dec stop start) as [Hle | Hgt].
    + split; [intros _; exact Hle |]. intros _.
      rewrite seqZ_nil by lia. reflexivity.
    + split; [| lia]. rewrite Hrun; [discriminate |].
      intros Hnil. apply (f_equal length) in Hnil.
      rewrite length_seqZ in Hnil. simpl in Hnil. lia.
  - intros year. unfold Trend.range.
    rewrite <- list_elem_of_In, elem_of_seqZ. lia.
  - intros Hlt. eexists. split.
    + apply Hrun. intros Hnil. apply (f_equal length) in Hnil.
      unfold Trend.range in Hnil. rewrite length_seqZ in Hnil.
      simpl in Hnil. lia.
    + simpl. split; [reflexivity |]. split; [reflexivity |].
      intros Hal. induction (Trend.range start stop) as [| y ys IH];
        [reflexivity |].
      rewrite !fmap_cons. cbn [concat].
      rewrite !length_app, IH, Hal. reflexivity.
Qed.
End TrendLoop.

(** ** Band values as floats *)

Section ExactIntegers.
Variable f : float_format.

Lemma sf_to_Z_of_pos (k : positive) :
  Zpos k < 2 ^ prec f -> sf_to_Z (sf_of_int f (Zpos k)) = Some (Zpos k).
Proof.
  intros Hk. pose proof (digits2_pos_bound f k Hk) as Hd.
  rewrite (sf_of_int_pos f k Hd). unfold sf_to_Z.
  set (d := Zpos (digits2_pos k)) in *.
  assert (Hd1 : 1 <= d) by (unfold d; lia).
  destruct (Z.leb_spec 0 (d - prec f)) as [Hge | Hlt].
  - replace (prec f - d) with 0 by lia.
    replace (d - prec f) with 0 by lia. simpl. f_equal. lia.
  - rewrite shl_spec by lia.
    replace (- (d - prec f)) with (prec f - d) by lia.
    assert (Hpos : 0 < 2 ^ (prec f - d)) by (apply Z.pow_pos_nonneg; lia).
    rewrite Z.mod_mul by lia. simpl. rewrite Z.div_mul by lia. reflexivity.
Qed.

Lemma sf_of_int_neg (k : positive) :
  sf_of_int f (Zneg k) = SFopp (sf_of_int f (Zpos k)).
Proof.
  unfold sf_of_int, binary_normalize.
  apply (binary_round_opp (prec f) (emax f) false).
Qed.

Lemma sf_to_Z_of_int (k : Z) :
  Z.abs k < 2 ^ prec f -> sf_to_Z (sf_of_int f k) = Some k.
Proof.
  intros Hk. destruct k as [| k | k].
  - reflexivity.
  - apply sf_to_Z_of_pos. exact Hk.
  - rewrite sf_of_int_neg.
    pose proof (sf_to_Z_of_pos k Hk) as Hp.
    pose proof (digits2_pos_bound f k Hk) as Hd.
    rewrite (sf_of_int_pos f k Hd) in *.
    unfold sf_to_Z, SFopp in *. simpl negb.
    destruct (0 <=? Zpos (digits2_pos k) - prec f).
    + injection Hp as Hp. unfold cond_Zopp in *. rewrite Hp. reflexivity.
    + destruct (_ =? 0); [| discriminate Hp].
      injection Hp as Hp. unfold cond_Zopp in *. rewrite Hp. reflexivity.
Qed.

(** X16. Turning a band into floating point, as the masks do, loses
    nothing: every integer below [2^prec] in magnitude (every 8-bit and
    16-bit band value, in binary32 and in binary64) is converted exactly,
    so that the raw value can be read back from an unmasked pixel and two
    different raw values never become the same float. *)
Theorem of_int_exact (a b : Z) :
  Z.abs a < 2 ^ prec f -> Z.abs b < 2 ^ prec f ->
  sf_to_Z (@of_int (ieee f) a) = Some a /\
  (@of_int (ieee f) a = @of_int (ieee f) b -> a = b).
Proof.
  intros Ha Hb. split.
  - apply sf_to_Z_of_int. exact Ha.
  - intros Heq. apply (f_equal sf_to_Z) in Heq.
    change (@of_int (ieee f)) with (sf_of_int f) in Heq.
    rewrite !sf_to_Z_of_int in Heq by assumption.
    congruence.
Qed.
End ExactIntegers.

Lemma of_int_exact_witness :
  sf_to_Z (@of_int float32 65535) = Some 65535 /\
  (@of_int float32 65535 = @of_int float32 (-32768) -> 65535 = -32768).
Proof.
  apply (of_int_exact binary32 65535 (-32768)); simpl; lia.
Defined.

(** ** Sums that cannot overflow *)

Lemma shr_cases (mrs : shr_record) (e n : Z) :
  0 <= shr_m mrs ->
  exists mrs' : shr_record,
    shr mrs e n = (mrs', Z.max e (e + n)) /\
    shr_m mrs' = shr_m mrs / 2 ^ Z.max 0 n.
Proof.
  intros Hm. destruct n as [| p | p].
  - exists mrs. simpl. rewrite Z.add_0_r, Z.max_id, Z.div_1_r.
    split; reflexivity.
  - eexists. split.
    + simpl. rewrite Z.max_r by lia. reflexivity.
    + rewrite Z.max_r by lia. apply iter_shr_1_m. exact Hm.
  - exists mrs. simpl. rewrite Z.max_l by lia.
    change (Z.max 0 (Zneg p)) with 0. rewrite Z.div_1_r.
    split; reflexivity.
Qed.

Lemma digits2_pos_lt_pow (m : positive) (n : Z) :
  0 <= n -> Zpos m < 2 ^ n -> Zpos (digits2_pos m) <= n.
Proof.
  intros Hn Hm. pose proof (Zpos_digits_bounds m) as [Hlo _].
  destruct (Z_le_gt_dec (Zpos (digits2_pos m)) n) as [Hle | Hgt];
    [exact Hle |].
  assert (2 ^ n <= 2 ^ (Zpos (digits2_pos m) - 1))
    by (apply Z.pow_le_mono_r; lia).
  lia.
Qed.

Section NoOverflow.
Variable f : float_format.

(** Rounding a number below [2^120] whose exponent is not at the top of
    the format gives zero or a finite number. *)
Lemma binary_round_aux_finite (s : bool) (M : positive) (E : Z)
    (l : location) :
  Zpos (digits2_pos M) + E <= 120 -> E <= emax f - prec f - 1 ->
  sf_finite_or_zero (binary_round_aux (prec f) (emax f) s (Zpos M) E l)
  = true.
Proof.
  intros Hd HE. pose proof (format_bounds f) as Hf.
  assert (He : 128 <= emax f) by (destruct f; simpl; lia).
  set (d := Zpos (digits2_pos M)) in *.
  assert (Hd1 : 1 <= d) by (unfold d; lia).
  unfold binary_round_aux, shr_fexp. unfold Zdigits2 at 1. fold d.
  destruct (shr_cases (shr_record_of_loc (Zpos M) l) E
              (fexp (prec f) (emax f) (d + E) - E))
    as (mrs1 & Hs1 & Hm1); [rewrite shr_record_of_loc_m; lia |].
  rewrite Hs1. rewrite shr_record_of_loc_m in Hm1.
  set (n1 := fexp (prec f) (emax f) (d + E) - E) in *.
  set (e1 := Z.max E (E + n1)) in *.
  assert (Hn1 : d - prec f <= n1 /\ E + n1 <= emax f - prec f - 1
                /\ 3 - emax f - prec f <= E + n1).
  { unfold n1, fexp, emin. lia. }
  assert (Hp : 0 < 2 ^ prec f) by (apply Z.pow_pos_nonneg; lia).
  assert (Hm1b : 0 <= shr_m mrs1 < 2 ^ prec f).
  { rewrite Hm1. split; [apply Z.div_pos; [lia |] |].
    - apply Z.pow_pos_nonneg; lia.
    - apply Z.div_lt_upper_bound; [apply Z.pow_pos_nonneg; lia |].
      rewrite <- Z.pow_add_r by lia.
      pose proof (Zpos_digits_bounds M) as [_ HM]. fold d in HM.
      apply Z.lt_le_trans with (2 ^ d); [exact HM |].
      apply Z.pow_le_mono_r; lia. }
  pose proof (round_nearest_even_bounds (shr_m mrs1)
                (loc_of_shr_record mrs1)) as HR.
  set (M2 := round_nearest_even (shr_m mrs1) (loc_of_shr_record mrs1)) in *.
  assert (Hd2 : Zdigits2 M2 <= prec f + 1).
  { destruct M2 as [| m2 | m2] eqn:EM2; simpl; [lia | | lia].
    apply digits2_pos_lt_pow; [lia |].
    replace (prec f + 1) with (Z.succ (prec f)) by lia.
    rewrite Z.pow_succ_r by lia. lia. }
  destruct (shr_cases (shr_record_of_loc M2 loc_Exact) e1
              (fexp (prec f) (emax f) (Zdigits2 M2 + e1) - e1))
    as (mrs2 & Hs2 & Hm2); [rewrite shr_record_of_loc_m; lia |].
  rewrite Hs2. rewrite shr_record_of_loc_m in Hm2.
  assert (Hm2b : 0 <= shr_m mrs2).
  { rewrite Hm2. apply Z.div_pos; [lia | apply Z.pow_pos_nonneg; lia]. }
  destruct (shr_m mrs2) as [| m3 | m3]; [reflexivity | | lia].
  assert (He2 : Z.max e1 (e1 + (fexp (prec f) (emax f) (Zdigits2 M2 + e1)
                                - e1)) <= emax f - prec f).
  { unfold fexp, emin, e1. lia. }
  apply Z.leb_le in He2. rewrite He2. reflexivity.
Qed.

Lemma binary_round_finite (s : bool) (M : positive) (E : Z) :
  Zpos (digits2_pos M) + E <= 120 ->
  sf_finite_or_zero (binary_round (prec f) (emax f) s M E) = true.
Proof.
  intros Hd. pose proof (format_bounds f) as Hf.
  assert (He : 128 <= emax f) by (destruct f; simpl; lia).
  unfold binary_round.
  set (fe := fexp (prec f) (emax f) (Zpos (digits2_pos M) + E)).
  assert (Hfe : fe <= emax f - prec f - 1) by (unfold fe, fexp, emin; lia).
  destruct (Z_le_gt_dec E fe) as [Hle | Hgt].
  - rewrite shl_align_ge by exact Hle.
    apply binary_round_aux_finite; lia.
  - rewrite shl_align_le by lia.
    apply binary_round_aux_finite; [| exact Hfe].
    rewrite shl_digits by lia. lia.
Qed.

(** The sum of two numbers below [2^hi]. *)
Lemma SFadd_below (hi : Z) (x y : spec_float) :
  sf_below hi x -> sf_below hi y -> hi <= 119 ->
  sf_finite_or_zero (SFadd (prec f) (emax f) x y) = true.
Proof.
  destruct x as [sx | | | sx mx ex], y as [sy | | | sy my ey];
    simpl sf_below; try contradiction; intros Hx Hy Hhi.
  - destruct sx, sy; reflexivity.
  - reflexivity.
  - reflexivity.
  - unfold SFadd. rewrite !shl_align_le by lia. simpl fst.
    set (ez := Z.min ex ey).
    set (a1 := shl mx (ex - ez)). set (a2 := shl my (ey - ez)).
    pose proof (Zpos_digits_bounds a1) as [_ B1].
    pose proof (Zpos_digits_bounds a2) as [_ B2].
    unfold a1 in B1 at 2. unfold a2 in B2 at 2.
    rewrite shl_digits in B1, B2 by (unfold ez; lia).
    assert (Hpow : forall k : Z, k <= hi - ez -> 0 <= k ->
                     2 ^ k <= 2 ^ (hi - ez)).
    { intros k Hk Hk0. apply Z.pow_le_mono_r; lia. }
    assert (H1 : Zpos a1 < 2 ^ (hi - ez)).
    { eapply Z.lt_le_trans; [exact B1 |]. apply Hpow; unfold ez; lia. }
    assert (H2 : Zpos a2 < 2 ^ (hi - ez)).
    { eapply Z.lt_le_trans; [exact B2 |]. apply Hpow; unfold ez; lia. }
    assert (Hez : 0 <= hi - ez) by (unfold ez; lia).
    assert (Hsucc : 2 ^ (hi - ez + 1) = 2 * 2 ^ (hi - ez)).
    { replace (hi - ez + 1) with (Z.succ (hi - ez)) by lia.
      apply Z.pow_succ_r. exact Hez. }
    unfold binary_normalize.
    destruct (cond_Zopp sx (Zpos a1) + cond_Zopp sy (Zpos a2))
      as [| M | M] eqn:EM; [reflexivity | |];
      (apply binary_round_finite;
       assert (HM : Zpos (digits2_pos M) <= hi - ez + 1)
         by (apply digits2_pos_lt_pow; [lia |]; rewrite Hsucc;
             destruct sx, sy; unfold cond_Zopp in EM; lia);
       lia).
Qed.
End NoOverflow.

Lemma SFsub_add_opp (p em : Z) (x y : spec_float) :
  SFsub p em x y = SFadd p em x (SFopp y).
Proof.
  destruct x as [sx | sx | | sx mx ex], y as [sy | sy | | sy my ey];
    try reflexivity;
    try (destruct sx, sy; reflexivity).
Qed.

Lemma SFdiv_finite_not_nan (p em : Z) (sx sy : bool) (mx my : positive)
    (ex ey : Z) :
  sf_isnan (SFdiv p em (S754_finite sx mx ex) (S754_finite sy my ey))
  = false.
Proof.
  unfold SFdiv, SFdiv_core_binary.
  set (m' := match _ - _ - _ with
             | 0 => Zpos mx | Zpos _ => Z.shiftl (Zpos mx) _ | Zneg _ => 0
             end).
  assert (Hm' : 0 <= m').
  { unfold m'. destruct (_ - _ - _); try lia. apply Z.shiftl_nonneg. lia. }
  pose proof (Z.div_pos m' (Zpos my) Hm' ltac:(lia)) as Hq.
  unfold Z.div in Hq.
  change (IntDef.Z.div_eucl m' (Zpos my)) with (Z.div_eucl m' (Zpos my)).
  destruct (Z.div_eucl m' (Zpos my)) as [q r]. simpl fst in Hq.
  apply binary_round_aux_not_nan. exact Hq.
Qed.

(** ** The three-band index on valid values *)

Lemma sf_lit_7_5_normal (f : float_format) :
  normal f false 3 3 (sf_lit f 7.5).
Proof.
  destruct f; eexists; eexists;
    (split; [vm_compute; reflexivity | split; [reflexivity | simpl; lia]]).
Qed.

Lemma normal_below (f : float_format) (s : bool) (lo hi : Z)
    (x : spec_float) :
  normal f s lo hi x -> sf_below hi x.
Proof. intros (m & e & -> & Hd & Hb). simpl. lia. Qed.

Lemma normal_opp (f : float_format) (s : bool) (lo hi : Z)
    (x : spec_float) :
  normal f s lo hi x -> normal f (negb s) lo hi (SFopp x).
Proof.
  intros (m & e & -> & Hd & Hb). exists m, e.
  split; [reflexivity |]. split; assumption.
Qed.

Section ThreeBand.
Variable f : float_format.
Let D : dtype := ieee f.
Local Existing Instance D.
Local Open Scope dt_scope.

(** Numerator and denominator of the three-band ratio on three valid
    scaled values are zeros or finite numbers. *)
Lemma evi_terms_finite (x y b : spec_float) :
  normal f false (-13) 5 x -> normal f false (-13) 5 y ->
  normal f false (-13) 5 b ->
  sf_finite_or_zero (x - y) = true /\
  sf_finite_or_zero (x + of_int 6 * y - lit 7.5 * b + of_int 1) = true.
Proof.
  intros Hx Hy Hb. subst D. ieee_ops. split.
  - rewrite SFsub_add_opp.
    destruct (SFadd_mixed f _ _ _ _ _ _ Hx (normal_opp f _ _ _ _ Hy)
                ltac:(lia) ltac:(lia)) as [-> | [s (m & e & -> & _)]];
      reflexivity.
  - pose proof (sf_of_int_normal f 3 6 ltac:(lia) ltac:(simpl; lia)
                  ltac:(lia)) as H6.
    change (6 <? 0)%Z with false in H6.
    pose proof (SFmul_normal f _ _ _ _ _ _ _ _ H6 Hy ltac:(lia) ltac:(lia))
      as H6y.
    simpl xorb in H6y.
    pose proof (SFadd_normal f _ _ _ _ _ _ Hx H6y ltac:(lia) ltac:(lia))
      as Ha.
    pose proof (SFmul_normal f _ _ _ _ _ _ _ _ (sf_lit_7_5_normal f) Hb
                  ltac:(lia) ltac:(lia)) as Hc.
    simpl xorb in Hc.
    rewrite SFsub_add_opp.
    pose proof (sf_one_normal f) as H1.
    apply (SFadd_below f 20).
    + destruct (SFadd_mixed f _ _ _ _ _ _ Ha (normal_opp f _ _ _ _ Hc)
                  ltac:(lia) ltac:(lia)) as [-> | [s Hn]];
        [exact I |].
      apply (normal_below f s (-120)).
      apply (normal_weaken f _ _ _ _ _ _ Hn); lia.
    + apply (normal_below f false 1).
      apply (normal_weaken f _ _ _ _ _ _ H1); lia.
    + lia.
Qed.

(** The ratio times 2.5 is "no value" only for 0/0. *)
Lemma evi_formula_isnan (num den : spec_float) :
  sf_finite_or_zero num = true -> sf_finite_or_zero den = true ->
  isnan (lit 2.5 * (num / den))
  = (den == of_int 0) && (num == of_int 0).
Proof.
  intros Hn Hd. subst D. ieee_ops.
  change (sf_of_int f 0) with (S754_zero false).
  pose proof (sf_lit_2_5_pos f) as Hc.
  destruct num as [sn | | | sn mn en]; try discriminate Hn;
    destruct den as [sd | | | sd md ed]; try discriminate Hd.
  - destruct (sf_lit f 2.5) as [| | | [] mc ec]; try discriminate Hc.
    reflexivity.
  - destruct (sf_lit f 2.5) as [| | | [] mc ec]; try discriminate Hc.
    destruct sd; reflexivity.
  - destruct (sf_lit f 2.5) as [| | | [] mc ec]; try discriminate Hc.
    destruct sn; reflexivity.
  - rewrite SFmul_not_nan;
      [destruct sd; reflexivity | exact Hc | apply SFdiv_finite_not_nan].
Qed.

Lemma hls_evi_valid_isnan (rn rr rb : Z) :
  (0 < rn <= 32767)%Z -> (0 < rr <= 32767)%Z -> (0 < rb <= 32767)%Z ->
  isnan (HLS.calculate_evi (of_int rn) (of_int rr) (of_int rb))
  = (HLS.scale_offset (of_int rn) + of_int 6 * HLS.scale_offset (of_int rr)
     - lit 7.5 * HLS.scale_offset (of_int rb) + of_int 1 == of_int 0)
    && (HLS.scale_offset (of_int rn) - HLS.scale_offset (of_int rr)
        == of_int 0).
Proof.
  intros Hn Hr Hb.
  destruct (hls_scale_offset_spec f rn ltac:(lia)) as [_ Hx].
  destruct (hls_scale_offset_spec f rr ltac:(lia)) as [_ Hy].
  destruct (hls_scale_offset_spec f rb ltac:(lia)) as [_ Hz].
  specialize (Hx ltac:(lia)). specialize (Hy ltac:(lia)).
  specialize (Hz ltac:(lia)). fold D in Hx, Hy, Hz.
  destruct (evi_terms_finite _ _ _ Hx Hy Hz) as [Hnum Hden].
  unfold HLS.calculate_evi. cbv zeta.
  apply evi_formula_isnan; assumption.
Qed.

Lemma hls_evi_den_nan (x y b : elt) :
  isnan x || isnan y || isnan b = true ->
  (x + of_int 6 * y - lit 7.5 * b + of_int 1 == of_int 0) = false.
Proof.
  intros H.
  change (@mul D) with (SFmul (prec f) (emax f)).
  change (@add D) with (SFadd (prec f) (emax f)).
  change (@sub D) with (SFsub (prec f) (emax f)).
  change (@eqb D) with SFeqb.
  rewrite !orb_true_iff in H. destruct H as [[H | H] | H];
    apply sf_isnan_true in H; rewrite H; nan_absorb; reflexivity.
Qed.

(** The three-band index of one pixel of the masked dataset. *)
Lemma hls_evi_pixel (m : bool) (xn xr xb : Z) :
  (-32768 <= xn <= 32767)%Z -> (-32768 <= xr <= 32767)%Z ->
  (-32768 <= xb <= 32767)%Z ->
  let den :=
    HLS.scale_offset (of_int xn) + of_int 6 * HLS.scale_offset (of_int xr)
    - lit 7.5 * HLS.scale_offset (of_int xb) + of_int 1 in
  let num := HLS.scale_offset (of_int xn) - HLS.scale_offset (of_int xr) in
  let v :=
    HLS.calculate_evi (if m then nan else of_int xn)
      (if m then nan else of_int xr) (if m then nan else of_int xb) in
  isnan v
  = m || (xn <=? 0)%Z || (xr <=? 0)%Z || (xb <=? 0)%Z
    || ((den == of_int 0) && (num == of_int 0)) /\
  (m = false -> (den == of_int 0) && negb (num == of_int 0) = true ->
   sf_isinf v = true).
Proof.
  intros Bn Br Bb den num v.
  pose proof (hls_scale_offset_isnan f xn Bn) as En.
  pose proof (hls_scale_offset_isnan f xr Br) as Er.
  pose proof (hls_scale_offset_isnan f xb Bb) as Eb.
  fold D in En, Er, Eb.
  destruct m.
  - split; [| discriminate].
    assert (H : isnan (HLS.scale_offset (@nan D))
                || isnan (HLS.scale_offset (@nan D))
                || isnan (HLS.scale_offset (@nan D)) = true) by reflexivity.
    pose proof (hls_evi_nan f _ _ _ H) as Ha. fold D in Ha.
    subst v. rewrite Ha. reflexivity.
  - subst v. simpl orb.
    destruct ((xn <=? 0)%Z || (xr <=? 0)%Z || (xb <=? 0)%Z) eqn:Ebad.
    + assert (H : isnan (HLS.scale_offset (of_int xn))
                  || isnan (HLS.scale_offset (of_int xr))
                  || isnan (HLS.scale_offset (of_int xb)) = true)
        by (rewrite En, Er, Eb; exact Ebad).
      pose proof (hls_evi_nan f _ _ _ H) as Ha. fold D in Ha.
      split; [rewrite Ha; reflexivity |].
      intros _ Hz. apply andb_true_iff in Hz as [Hd _].
      subst den. rewrite (hls_evi_den_nan _ _ _ H) in Hd. discriminate Hd.
    + rewrite !orb_false_iff in Ebad. destruct Ebad as [[Ln Lr] Lb].
      apply Z.leb_gt in Ln, Lr, Lb. simpl orb.
      split; [apply hls_evi_valid_isnan; lia |].
      intros _ Hz. apply andb_true_iff in Hz as [Hd Hnz].
      apply negb_true_iff in Hnz.
      pose proof (hls_evi_zero_denominator f _ _ _ Hd) as Hinf.
      fold D in Hinf. fold num in Hinf. rewrite Hnz in Hinf.
      destruct (hls_scale_offset_spec f xn ltac:(lia)) as [_ Hx].
      destruct (hls_scale_offset_spec f xr ltac:(lia)) as [_ Hy].
      destruct (hls_scale_offset_spec f xb ltac:(lia)) as [_ Hb].
      specialize (Hx ltac:(lia)). specialize (Hy ltac:(lia)).
      specialize (Hb ltac:(lia)). fold D in Hx, Hy, Hb.
      destruct (evi_terms_finite _ _ _ Hx Hy Hb) as [Hnum _].
      fold num in Hnum.
      assert (Enum : isnan num = false)
        by (destruct num; try discriminate Hnum; reflexivity).
      rewrite Enum in Hinf. exact Hinf.
Qed.

(** X18. In the three-band HLS cell a pixel has no index value exactly
    when it is masked, or its [nir], [red] or [blue] value is not above 0,
    or both the denominator [nir + 6*red - 7.5*blue + 1] and the
    numerator [nir - red] of the scaled values are zero.  An unmasked
    pixel with a zero denominator and a nonzero numerator gets an
    infinity.  For 16-bit band values, in binary32 and binary64. *)
Theorem sdg15_index_missing_exactly (nodata : option Z)
    (data : gmap string (list Z)) (fmask nir red blue : list Z) (i : nat)
    (c xn xr xb : Z) :
  data !! "fmask"%string = Some fmask ->
  data !! "nir"%string = Some nir ->
  data !! "red"%string = Some red ->
  data !! "blue"%string = Some blue ->
  fmask !! i = Some c -> nir !! i = Some xn -> red !! i = Some xr ->
  blue !! i = Some xb ->
  (-32768 <= xn <= 32767)%Z -> (-32768 <= xr <= 32767)%Z ->
  (-32768 <= xb <= 32767)%Z ->
  exists (ds : gmap string (list elt)) (evi : list elt) (v : elt),
    SDG15Cells.trend_data_masked nodata data = Some ds /\
    ds !! "evi"%string = Some evi /\
    evi !! i = Some v /\
    isnan v
    = reject_mask HLS.pq_bin c || nodata_eq nodata c
      || (xn <=? 0)%Z || (xr <=? 0)%Z || (xb <=? 0)%Z
      || ((HLS.scale_offset (of_int xn)
           + of_int 6 * HLS.scale_offset (of_int xr)
           - lit 7.5 * HLS.scale_offset (of_int xb) + of_int 1 == of_int 0)
          && (HLS.scale_offset (of_int xn) - HLS.scale_offset (of_int xr)
              == of_int 0)) /\
    (reject_mask HLS.pq_bin c || nodata_eq nodata c = false ->
     (HLS.scale_offset (of_int xn)
      + of_int 6 * HLS.scale_offset (of_int xr)
      - lit 7.5 * HLS.scale_offset (of_int xb) + of_int 1 == of_int 0)
     && negb (HLS.scale_offset (of_int xn) - HLS.scale_offset (of_int xr)
              == of_int 0) = true ->
     sf_isinf v = true).
Proof.
  intros Hf Hn Hr Hb Hc Hxn Hxr Hxb Bn Br Bb.
  destruct (sdg15_index_cell_run nodata data fmask nir red blue Hf Hn Hr Hb)
    as (masked & evi & _ & Hrun & Hpix).
  exists (<["evi"%string := evi]> masked), evi. eexists.
  split; [exact Hrun |]. split; [apply lookup_insert_eq |].
  split; [apply (Hpix i c xn xr xb Hc Hxn Hxr Hxb) |].
  apply (hls_evi_pixel (reject_mask HLS.pq_bin c || nodata_eq nodata c)
           xn xr xb Bn Br Bb).
Qed.
End ThreeBand.

Lemma sdg15_index_missing_exactly_witness :
  exists (ds : gmap string (list (@elt float64)))
         (evi : list (@elt float64)) (v : @elt float64),
    SDG15Cells.trend_data_masked (D := float64) (Some 255)
      (<["fmask"%string := [0; 64]]>
         (<["nir"%string := [3000; 1400]]>
            (<["red"%string := [500; 100]]>
               {["blue"%string := [300; 1600]]})))
    = Some ds /\
    ds !! "evi"%string = Some evi /\
    evi !! 1%nat = Some v /\
    @isnan float64 v
    = reject_mask HLS.pq_bin 64 || nodata_eq (Some 255) 64
      || (1400 <=? 0)%Z || (100 <=? 0)%Z || (1600 <=? 0)%Z
      || (@eqb float64
            (@add float64
               (@sub float64
                  (@add float64 (HLS.scale_offset (@of_int float64 1400))
                     (@mul float64 (@of_int float64 6)
                        (HLS.scale_offset (@of_int float64 100))))
                  (@mul float64 (@lit float64 7.5)
                     (HLS.scale_offset (@of_int float64 1600))))
               (@of_int float64 1))
            (@of_int float64 0)
          && @eqb float64
               (@sub float64 (HLS.scale_offset (@of_int float64 1400))
                  (HLS.scale_offset (@of_int float64 100)))
               (@of_int float64 0)) /\
    (reject_mask HLS.pq_bin 64 || nodata_eq (Some 255) 64 = false ->
     @eqb float64
       (@add float64
          (@sub float64
             (@add float64 (HLS.scale_offset (@of_int float64 1400))
                (@mul float64 (@of_int float64 6)
                   (HLS.scale_offset (@of_int float64 100))))
             (@mul float64 (@lit float64 7.5)
                (HLS.scale_offset (@of_int float64 1600))))
          (@of_int float64 1))
       (@of_int float64 0)
     && negb (@eqb float64
                (@sub float64 (HLS.scale_offset (@of_int float64 1400))
                   (HLS.scale_offset (@of_int float64 100)))
                (@of_int float64 0)) = true ->
     sf_isinf v = true).
Proof.
  apply (sdg15_index_missing_exactly binary64 (Some 255)
           (<["fmask"%string := [0; 64]]>
              (<["nir"%string := [3000; 1400]]>
                 (<["red"%string := [500; 100]]>
                    {["blue"%string := [300; 1600]]})))
           [0; 64] [3000; 1400] [500; 100] [300; 1600] 1 64 1400 100 1600);
    first [reflexivity | lia].
Defined.

(** ** The queried days and the kept quarter *)

Lemma date_leb_spec (a b : date) :
  date_leb a b = true <->
  dyear a < dyear b \/
  (dyear a = dyear b /\
   (dmonth a < dmonth b \/ (dmonth a = dmonth b /\ dday a <= dday b))).
Proof.
  unfold date_leb.
  rewrite !orb_true_iff, !andb_true_iff, !orb_true_iff, !andb_true_iff.
  rewrite !Z.ltb_lt, !Z.eqb_eq, Z.leb_le. reflexivity.
Qed.

(** X19. The HLS peak-season queries and the quarter selection fit
    together: every day of the query of a year, from 1 December to 28
    February of the next year, falls in the quarter that the December
    resampling labels with December of that year, which is a quarter the
    selection keeps; the queries of two different years share no day; and
    29 February is in no query.  In the same way every day of the
    February-to-April query of a year falls in the kept quarter labelled
    February of that year. *)
Theorem peak_query_in_kept_quarter (year : Z) (d : date) :
  1 <= dmonth d <= 12 -> 1 <= dday d <= 31 ->
  (in_date_range (PeakQuery.date_range year) d = true ->
   quarter_start 12 (period_of d) = {| year := year; month := 12 |} /\
   ~ (dmonth d = 2 /\ dday d = 29) /\
   forall year' : Z,
     year' <> year -> in_date_range (PeakQuery.date_range year') d = false)
  /\
  (in_date_range (RasterQuery.date_range year) d = true ->
   quarter_start 2 (period_of d) = {| year := year; month := 2 |}).
Proof.
  destruct d as [y m dd]. simpl. intros Hm Hd.
  unfold in_date_range, PeakQuery.date_range, RasterQuery.date_range.
  simpl fst. simpl snd. split.
  - rewrite andb_true_iff, !date_leb_spec. simpl. intros [H1 H2].
    split; [| split].
    + unfold quarter_start, period_of. simpl.
      assert (Hc : (m = 12 /\ y = year) \/ ((m = 1 \/ m = 2) /\ y = year + 1))
        by lia.
      destruct Hc as [[-> ->] | [[-> | ->] ->]]; simpl; f_equal; lia.
    + lia.
    + intros year' Hne. apply andb_false_iff.
      destruct (date_leb (Date year' 12 1) (Date y m dd)) eqn:E1;
        [right | left; reflexivity].
      apply date_leb_spec in E1. simpl in E1.
      apply not_true_iff_false. rewrite date_leb_spec. simpl. lia.
  - rewrite andb_true_iff, !date_leb_spec. simpl. intros [H1 H2].
    unfold quarter_start, period_of. simpl.
    assert (Hc : y = year /\ (m = 2 \/ m = 3 \/ m = 4)) by lia.
    destruct Hc as [-> [-> | [-> | ->]]]; reflexivity.
Qed.

Lemma peak_query_in_kept_quarter_witness :
  quarter_start 12 (period_of (Date 2014 1 15))
  = {| year := 2013; month := 12 |}.
Proof.
  refine (proj1 (proj1 (peak_query_in_kept_quarter 2013 (Date 2014 1 15)
                          _ _) _)); simpl; first [lia | reflexivity].
Defined.

(** X20. The Landsat query of a year covers the whole year, not the
    February-to-April season alone: days of all twelve months are in it.
    Of these the February selection keeps exactly the days of February,
    March and April (in the quarter labelled February of that year); the
    days of the other nine months are loaded, grouped and dropped. *)
Theorem landsat_query_whole_year (year : Z) (d : date) :
  1 <= dmonth d <= 12 -> 1 <= dday d <= 31 ->
  (dyear d = year <-> in_date_range (LandsatQuery.date_range year) d = true)
  /\
  (in_date_range (LandsatQuery.date_range year) d = true ->
   (month (quarter_start 2 (period_of d)) = 2 <-> 2 <= dmonth d <= 4) /\
   (2 <= dmonth d <= 4 ->
    quarter_start 2 (period_of d) = {| year := year; month := 2 |})).
Proof.
  destruct d as [y m dd]. simpl. intros Hm Hd.
  unfold in_date_range, LandsatQuery.date_range. simpl fst. simpl snd.
  rewrite andb_true_iff, !date_leb_spec. simpl. split.
  - split; [intros ->; lia | lia].
  - intros [H1 H2]. assert (Hy : y = year) by lia. subst y.
    unfold quarter_start, period_of. simpl. split.
    + month_cases m;
        match goal with
        | |- month ?t = _ <-> _ =>
            let v := eval vm_compute in (month t) in change (month t) with v
        end; lia.
    + intros Hs. assert (Hc : m = 2 \/ m = 3 \/ m = 4) by lia.
      destruct Hc as [-> | [-> | ->]]; reflexivity.
Qed.

Lemma landsat_query_whole_year_witness :
  (dyear (Date 2020 9 15) = 2020 <->
   in_date_range (LandsatQuery.date_range 2020) (Date 2020 9 15) = true) /\
  (in_date_range (LandsatQuery.date_range 2020) (Date 2020 9 15) = true ->
   (month (quarter_start 2 (period_of (Date 2020 9 15))) = 2
    <-> 2 <= dmonth (Date 2020 9 15) <= 4) /\
   (2 <= dmonth (Date 2020 9 15) <= 4 ->
    quarter_start 2 (period_of (Date 2020 9 15))
    = {| year := 2020; month := 2 |})).
Proof.
  apply (landsat_query_whole_year 2020 (Date 2020 9 15)); simpl; lia.
Defined.

(** ** The HLS scaling keeps the order of the raw values *)

Section RoundingError.
Variable f : float_format.

(** Rounding in the normal range moves a number by less than one unit of
    the last place of the result. *)
Lemma binary_round_aux_value (s : bool) (M : positive) (E : Z)
    (l : location) :
  prec f <= Zpos (digits2_pos M) ->
  3 - emax f - prec f <= Zpos (digits2_pos M) + E - prec f ->
  Zpos (digits2_pos M) + E + 1 <= emax f ->
  exists (m : positive) (e : Z),
    binary_round_aux (prec f) (emax f) s (Zpos M) E l = S754_finite s m e /\
    Zpos (digits2_pos m) = prec f /\
    E <= e /\
    Zpos M - 2 ^ (e - E) < Zpos m * 2 ^ (e - E) <= Zpos M + 2 ^ (e - E).
Proof.
  intros Hd Hlo Hhi. pose proof (format_bounds f) as Hf.
  set (d := Zpos (digits2_pos M)) in *.
  unfold binary_round_aux, shr_fexp. unfold Zdigits2 at 1. fold d.
  unfold fexp at 1. unfold emin.
  replace (Z.max (d + E - prec f) (3 - emax f - prec f) - E)
    with (d - prec f) by lia.
  destruct (shr_m_spec (shr_record_of_loc (Zpos M) l) E (d - prec f))
    as (mrs1 & Hs1 & Hm1); [lia | rewrite shr_record_of_loc_m; lia |].
  rewrite Hs1. rewrite shr_record_of_loc_m in Hm1.
  pose proof (Zpos_digits_bounds M) as HM. fold d in HM.
  assert (Hn : 0 < 2 ^ (d - prec f)) by (apply Z.pow_pos_nonneg; lia).
  assert (HM1 : 2 ^ (prec f - 1) <= shr_m mrs1 < 2 ^ prec f).
  { rewrite Hm1. split.
    - apply Z.div_le_lower_bound; [lia |].
      rewrite <- Z.pow_add_r by lia.
      replace (d - prec f + (prec f - 1)) with (d - 1) by lia. lia.
    - apply Z.div_lt_upper_bound; [lia |].
      rewrite <- Z.pow_add_r by lia.
      replace (d - prec f + prec f) with d by lia. lia. }
  assert (Hfl : shr_m mrs1 * 2 ^ (d - prec f) <= Zpos M
                < (shr_m mrs1 + 1) * 2 ^ (d - prec f)).
  { rewrite Hm1.
    pose proof (Z.div_mod (Zpos M) (2 ^ (d - prec f)) ltac:(lia)) as Hdm.
    pose proof (Z.mod_pos_bound (Zpos M) (2 ^ (d - prec f)) Hn) as Hmb.
    nia. }
  pose proof (round_nearest_even_bounds (shr_m mrs1)
                (loc_of_shr_record mrs1)) as HR.
  set (M2 := round_nearest_even (shr_m mrs1) (loc_of_shr_record mrs1)) in *.
  assert (Hp : 0 < 2 ^ (prec f - 1)) by (apply Z.pow_pos_nonneg; lia).
  assert (H2p : 2 ^ prec f = 2 * 2 ^ (prec f - 1)).
  { replace (prec f) with (Z.succ (prec f - 1)) at 1 by lia.
    apply Z.pow_succ_r. lia. }
  destruct M2 as [| m2 | m2] eqn:EM2; [lia | | lia].
  destruct (Z_lt_le_dec (Zpos m2) (2 ^ prec f)) as [Hlt | Hge].
  - assert (Hd2 : Zpos (digits2_pos m2) = prec f)
      by (apply digits_of_bounds; lia).
    unfold Zdigits2. rewrite Hd2. unfold fexp, emin.
    replace (Z.max (prec f + (E + (d - prec f)) - prec f)
               (3 - emax f - prec f) - (E + (d - prec f))) with 0 by lia.
    simpl. destruct (E + (d - prec f) <=? emax f - prec f) eqn:El;
      [| apply Z.leb_gt in El; lia].
    exists m2, (E + (d - prec f)). split; [reflexivity |].
    split; [exact Hd2 |]. split; [lia |].
    replace (E + (d - prec f) - E) with (d - prec f) by lia. nia.
  - assert (Hm2 : Zpos m2 = 2 ^ prec f) by lia.
    assert (Hd2 : Zpos (digits2_pos m2) = prec f + 1).
    { apply digits_of_bounds; [| lia].
      replace (prec f + 1 - 1) with (prec f) by lia.
      rewrite Z.pow_add_r by lia. lia. }
    unfold Zdigits2. rewrite Hd2. unfold fexp, emin.
    replace (Z.max (prec f + 1 + (E + (d - prec f)) - prec f)
               (3 - emax f - prec f) - (E + (d - prec f))) with 1 by lia.
    unfold shr_record_of_loc.
    destruct (shr_m_spec {| shr_m := Zpos m2; shr_r := false; shr_s := false |}
                (E + (d - prec f)) 1) as (mrs3 & Hs3 & Hm3);
      [lia | simpl; lia |].
    rewrite Hs3. simpl shr_m in Hm3. rewrite Hm2, H2p in Hm3.
    change (2 ^ 1) with 2 in Hm3.
    rewrite Z.mul_comm, Z.div_mul in Hm3 by lia.
    destruct (shr_m mrs3) as [| m3 | m3] eqn:Em3; [lia | | lia].
    destruct (E + (d - prec f) + 1 <=? emax f - prec f) eqn:El;
      [| apply Z.leb_gt in El; lia].
    exists m3, (E + (d - prec f) + 1). split; [reflexivity |].
    split; [apply digits_of_bounds; lia |]. split; [lia |].
    replace (E + (d - prec f) + 1 - E) with (Z.succ (d - prec f)) by lia.
    rewrite Z.pow_succ_r by lia. nia.
Qed.

(** Two positive numbers with full mantissas compare as their values
    do. *)
Lemma SFltb_normal_values (m1 m2 : positive) (e1 e2 E0 : Z) :
  Zpos (digits2_pos m1) = prec f -> Zpos (digits2_pos m2) = prec f ->
  E0 <= e1 -> E0 <= e2 ->
  Zpos m1 * 2 ^ (e1 - E0) < Zpos m2 * 2 ^ (e2 - E0) ->
  SFltb (S754_finite false m1 e1) (S754_finite false m2 e2) = true.
Proof.
  intros Hd1 Hd2 H1 H2 Hlt. pose proof (format_bounds f) as Hf.
  pose proof (Zpos_digits_bounds m1) as B1. rewrite Hd1 in B1.
  pose proof (Zpos_digits_bounds m2) as B2. rewrite Hd2 in B2.
  assert (H2p : 2 ^ prec f = 2 * 2 ^ (prec f - 1)).
  { replace (prec f) with (Z.succ (prec f - 1)) at 1 by lia.
    apply Z.pow_succ_r. lia. }
  assert (Hpos : 0 < 2 ^ (prec f - 1)) by (apply Z.pow_pos_nonneg; lia).
  unfold SFltb, SFcompare.
  destruct (Z.compare_spec e1 e2) as [Heq | Hee | Hee].
  - subst e2.
    assert (Hw : 0 < 2 ^ (e1 - E0)) by (apply Z.pow_pos_nonneg; lia).
    assert (Hm : Zpos m1 < Zpos m2) by nia.
    change (Pos.compare_cont Eq m1 m2) with (Pos.compare m1 m2).
    rewrite (proj2 (Pos.compare_lt_iff m1 m2)); [reflexivity | lia].
  - reflexivity.
  - exfalso.
    assert (Hw : 0 < 2 ^ (e2 - E0)) by (apply Z.pow_pos_nonneg; lia).
    assert (Hsplit : 2 ^ (e1 - E0) = 2 ^ (e1 - e2) * 2 ^ (e2 - E0)).
    { rewrite <- Z.pow_add_r by lia. f_equal. lia. }
    assert (Hge2 : 2 <= 2 ^ (e1 - e2)).
    { change 2 with (2 ^ 1) at 1. apply Z.pow_le_mono_r; lia. }
    rewrite Hsplit in Hlt. nia.
Qed.
End RoundingError.

Section ScalingOrder.
Variable f : float_format.
Let D : dtype := ieee f.
Local Existing Instance D.

(** The scaled value of a valid raw value [k], as a mantissa and an
    exponent, within one unit of the last place of [k * c], where [c] is
    the scale factor as the format holds it. *)
Lemma hls_scaled_value (k : positive) (mc : positive) (ec : Z) :
  Zpos k <= 32767 ->
  sf_lit f 0.0001 = S754_finite false mc ec ->
  Zpos (digits2_pos mc) = prec f -> ec + prec f = -13 ->
  exists (m : positive) (e : Z),
    HLS.scale_offset (of_int (Zpos k)) = S754_finite false m e /\
    Zpos (digits2_pos m) = prec f /\
    ec - prec f < e /\
    2 ^ (e - (ec - prec f)) * 2 ^ (prec f - 1)
    <= Zpos m * 2 ^ (e - (ec - prec f)) /\
    Zpos k * 2 ^ prec f * Zpos mc - 2 ^ (e - (ec - prec f))
    < Zpos m * 2 ^ (e - (ec - prec f))
    <= Zpos k * 2 ^ prec f * Zpos mc + 2 ^ (e - (ec - prec f)).
Proof.
  intros Hk Hc Hdc Hec. pose proof (format_bounds f) as Hf.
  assert (Hp : 24 <= prec f <= 53) by (destruct f; simpl; lia).
  assert (He : 128 <= emax f) by (destruct f; simpl; lia).
  assert (Hk15 : Zpos k < 2 ^ 15) by (change (2 ^ 15) with 32768; lia).
  pose proof (digits2_pos_lt_pow k 15 ltac:(lia) Hk15) as Hdk.
  set (d := Zpos (digits2_pos k)) in *.
  assert (Hd1 : 1 <= d) by (unfold d; lia).
  destruct (hls_scale_offset_spec f (Zpos k) ltac:(lia)) as [Hs _].
  fold D in Hs. rewrite Hs. change (0 <? Zpos k)%Z with true. cbv iota.
  subst D. ieee_ops.
  rewrite (sf_of_int_pos f k) by (fold d; lia). fold d. rewrite Hc.
  unfold SFmul. simpl xorb.
  set (M := (shl k (prec f - d) * mc)%positive).
  assert (HMv : Zpos M = Zpos k * 2 ^ (prec f - d) * Zpos mc).
  { unfold M. rewrite Pos2Z.inj_mul, shl_spec by lia. reflexivity. }
  pose proof (digits2_pos_mul (shl k (prec f - d)) mc) as HdM. fold M in HdM.
  rewrite shl_digits in HdM by lia. fold d in HdM. rewrite Hdc in HdM.
  destruct (binary_round_aux_value f false M (d - prec f + ec) loc_Exact)
    as (m & e & Hr & Hm & HEe & Hv); [lia | lia | lia |].
  exists m, e. split; [exact Hr |]. split; [exact Hm |].
  assert (Hsplit : 2 ^ (e - (ec - prec f))
                   = 2 ^ (e - (d - prec f + ec)) * 2 ^ d).
  { rewrite <- Z.pow_add_r by lia. f_equal. lia. }
  assert (Hpd : 2 ^ prec f = 2 ^ (prec f - d) * 2 ^ d).
  { rewrite <- Z.pow_add_r by lia. f_equal. lia. }
  assert (Hw : 0 < 2 ^ d) by (apply Z.pow_pos_nonneg; lia).
  assert (Hu : 0 < 2 ^ (e - (d - prec f + ec)))
    by (apply Z.pow_pos_nonneg; lia).
  pose proof (Zpos_digits_bounds m) as Bm. rewrite Hm in Bm.
  split; [lia |]. split.
  - rewrite Hsplit. nia.
  - rewrite Hsplit, Hpd, HMv in *. nia.
Qed.

(** X22. The HLS scaling keeps the order of the valid raw values
    strictly: of two 16-bit raw values above 0 the larger one has the
    larger scaled value, so that no two different valid raw values are
    scaled to the same number.  In binary32 and binary64. *)
Theorem hls_scale_offset_increasing (raw1 raw2 : Z) :
  0 < raw1 -> raw1 < raw2 -> raw2 <= 32767 ->
  (HLS.scale_offset (of_int raw2) > HLS.scale_offset (of_int raw1))%dt
  = true.
Proof.
  intros H0 H12 Hmax. pose proof (format_bounds f) as Hf.
  assert (Hp : 24 <= prec f <= 53) by (destruct f; simpl; lia).
  destruct (sf_lit_hls_scale_normal f) as (mc & ec & Hc & Hdc & Hec).
  destruct raw1 as [| k1 | k1]; try lia.
  destruct raw2 as [| k2 | k2]; try lia.
  destruct (hls_scaled_value k1 mc ec ltac:(lia) Hc Hdc ltac:(lia))
    as (m1 & e1 & E1 & Hd1 & He1 & Hu1 & Hv1).
  destruct (hls_scaled_value k2 mc ec ltac:(lia) Hc Hdc ltac:(lia))
    as (m2 & e2 & E2 & Hd2 & He2 & Hu2 & Hv2).
  rewrite E1, E2. change (@gtb D ?a ?b) with (SFltb b a).
  apply (SFltb_normal_values f m1 m2 e1 e2 (ec - prec f) Hd1 Hd2);
    [lia | lia |].
  set (u1 := 2 ^ (e1 - (ec - prec f))) in *.
  set (u2 := 2 ^ (e2 - (ec - prec f))) in *.
  set (R1 := Zpos m1 * u1) in *. set (R2 := Zpos m2 * u2) in *.
  set (W := 2 ^ (prec f - 1)) in *.
  set (G := 2 ^ prec f * Zpos mc).
  assert (HG : 0 < G).
  { unfold G. apply Z.mul_pos_pos; [apply Z.pow_pos_nonneg |]; lia. }
  assert (HW : 2 ^ 23 <= W) by (apply Z.pow_le_mono_r; lia).
  change (2 ^ 23) with 8388608 in HW.
  assert (A1 : Zpos k1 * 2 ^ prec f * Zpos mc = Zpos k1 * G)
    by (unfold G; ring).
  assert (A2 : Zpos k2 * 2 ^ prec f * Zpos mc = Zpos k2 * G)
    by (unfold G; ring).
  rewrite A1 in Hv1. rewrite A2 in Hv2.
  assert (Hu1' : 0 < u1) by (apply Z.pow_pos_nonneg; lia).
  assert (Hu2' : 0 < u2) by (apply Z.pow_pos_nonneg; lia).
  destruct (Z_lt_le_dec R1 R2) as [Hlt | Hge]; [exact Hlt | exfalso].
  assert (S1 : R1 * (W - 1) <= Zpos k1 * G * W) by nia.
  assert (S2 : Zpos k2 * G * W < R1 * (W + 1)) by nia.
  assert (S3 : Zpos k2 * G * W * (W - 1) < Zpos k1 * G * W * (W + 1)).
  { apply Z.lt_le_trans with (R1 * (W + 1) * (W - 1)).
    - apply Z.mul_lt_mono_pos_r; lia.
    - replace (R1 * (W + 1) * (W - 1)) with (R1 * (W - 1) * (W + 1)) by ring.
      apply Z.mul_le_mono_nonneg_r; lia. }
  assert (S4 : Zpos k2 * (W - 1) < Zpos k1 * (W + 1)).
  { assert (HGW : 0 < G * W) by (apply Z.mul_pos_pos; lia).
    apply (Z.mul_lt_mono_pos_l (G * W)); [exact HGW |].
    replace (G * W * (Zpos k2 * (W - 1)))
      with (Zpos k2 * G * W * (W - 1)) by ring.
    replace (G * W * (Zpos k1 * (W + 1)))
      with (Zpos k1 * G * W * (W + 1)) by ring.
    exact S3. }
  assert (S5 : (Zpos k1 + 1) * (W - 1) <= Zpos k2 * (W - 1))
    by (apply Z.mul_le_mono_nonneg_r; lia).
  assert (E5 : (Zpos k1 + 1) * (W - 1) = Zpos k1 * W - Zpos k1 + W - 1)
    by ring.
  assert (E6 : Zpos k1 * (W + 1) = Zpos k1 * W + Zpos k1) by ring.
  lia.
Qed.
End ScalingOrder.

Lemma hls_scale_offset_increasing_witness :
  @gtb float32 (HLS.scale_offset (@of_int float32 10000))
    (HLS.scale_offset (@of_int float32 9999)) = true.
Proof.
  apply (hls_scale_offset_increasing binary32 9999 10000); lia.
Defined.

(** * The numbers behind the floats

    The range of the index and the exactness of the area summary are
    statements about the numbers that the floats stand for.  On operands
    in the normal range every operation of the formats returns the exact
    result up to a relative error of [eps]; the bounds below follow from
    that with linear arithmetic over the rationals. *)

(** ** Powers of two *)

Lemma pow2_pos (e : Z) : (0 < 2 ^ e)%Q.
Proof. apply Qpower_0_lt. reflexivity. Qed.

Lemma pow2_add (a b : Z) : (2 ^ (a + b) == 2 ^ a * 2 ^ b)%Q.
Proof. apply Qpower_plus. discriminate. Qed.

Lemma pow2_split (e E : Z) : (2 ^ e == 2 ^ (e - E) * 2 ^ E)%Q.
Proof.
  rewrite <- pow2_add. replace (e - E + E) with e by lia. reflexivity.
Qed.

Lemma pow2_Z (n : Z) : 0 <= n -> (inject_Z (2 ^ n) == 2 ^ n)%Q.
Proof. intros H. apply (Zpower_Qpower 2 n H). Qed.

Lemma pow2_le (a b : Z) : a <= b -> (2 ^ a <= 2 ^ b)%Q.
Proof.
  intros H. replace b with (a + (b - a)) by lia. rewrite pow2_add.
  rewrite <- (pow2_Z (b - a)) by lia.
  assert (H1 : 1 <= 2 ^ (b - a)).
  { change 1 with (2 ^ 0). apply Z.pow_le_mono_r; lia. }
  rewrite Zle_Qle in H1.
  pose proof (pow2_pos a). change (inject_Z 1) with 1%Q in H1.
  nra.
Qed.

(** ** Relative errors *)

Lemma close_to_eq (r r' t t' : Q) :
  (r == r')%Q -> (t == t')%Q -> close_to r t -> close_to r' t'.
Proof. unfold close_to, eps. intros Hr Ht [H1 H2]. split; lra. Qed.

#[global] Instance close_to_proper : Proper (Qeq ==> Qeq ==> iff) close_to.
Proof.
  intros r r' Hr t t' Ht. split; apply close_to_eq;
    assumption || (symmetry; assumption).
Qed.

Lemma close_to_refl (r : Q) : (0 <= r)%Q -> close_to r r.
Proof. unfold close_to, eps. intros H. split; lra. Qed.

Section RelativeError.
Variable f : float_format.

Lemma full_mantissa_ge (m : positive) :
  Zpos (digits2_pos m) = prec f -> 8388608 <= Zpos m.
Proof.
  intros Hd. pose proof (Zpos_digits_bounds m) as B. rewrite Hd in B.
  assert (H : 2 ^ 23 <= 2 ^ (prec f - 1))
    by (apply Z.pow_le_mono_r; destruct f; simpl; lia).
  change (2 ^ 23) with 8388608 in H. lia.
Qed.

(** Two integers that agree up to [2^-23] of the first, on a common
    power of two. *)
Lemma close_to_scaled (a b : Z) (w : Q) :
  (0 < w)%Q -> 0 <= a ->
  8388607 * a <= 8388608 * b -> 8388608 * b <= 8388609 * a ->
  close_to (inject_Z a * w) (inject_Z b * w).
Proof.
  intros Hw F0 F1 F2.
  rewrite Zle_Qle in F0, F1, F2. rewrite !inject_Z_mult in F1, F2.
  unfold close_to, eps.
  set (x := inject_Z a) in *. set (y := inject_Z b) in *.
  change (inject_Z 8388607) with (8388607 # 1)%Q in F1.
  change (inject_Z 8388608) with (8388608 # 1)%Q in F1, F2.
  change (inject_Z 8388609) with (8388609 # 1)%Q in F2.
  change (inject_Z 0) with 0%Q in F0.
  split.
  - assert (H : (0 <= (y - (1 - (1 # 4194304)) * x) * w)%Q).
    { apply Qmult_le_0_compat; lra. }
    lra.
  - assert (H : (0 <= ((1 + (1 # 4194304)) * x - y) * w)%Q).
    { apply Qmult_le_0_compat; lra. }
    lra.
Qed.

(** A rounding that moved an integer mantissa by at most one unit of the
    last place of the result, read as a relative error. *)
Lemma round_close (M m : positive) (E e : Z) :
  Zpos (digits2_pos m) = prec f -> E <= e ->
  Zpos M - 2 ^ (e - E) < Zpos m * 2 ^ (e - E) <= Zpos M + 2 ^ (e - E) ->
  close_to (inject_Z (Zpos m) * 2 ^ e) (inject_Z (Zpos M) * 2 ^ E).
Proof.
  intros Hd HE HM. pose proof (full_mantissa_ge m Hd) as Hm.
  assert (HK : 0 < 2 ^ (e - E)) by (apply Z.pow_pos_nonneg; lia).
  assert (He : (2 ^ e == inject_Z (2 ^ (e - E)) * 2 ^ E)%Q).
  { rewrite pow2_Z by lia. rewrite <- pow2_add.
    replace (e - E + E) with e by lia. reflexivity. }
  rewrite He, Qmult_assoc, <- inject_Z_mult.
  apply close_to_scaled; [apply pow2_pos | nia | nia | nia].
Qed.

Lemma sf_val_pos (m : positive) (e : Z) :
  (sf_val (S754_finite false m e) == inject_Z (Zpos m) * 2 ^ e)%Q.
Proof. unfold sf_val. ring. Qed.

(** [binary_round] of a number in the normal range: a full mantissa and a
    relative error of at most [eps]. *)
Lemma binary_round_close (M : positive) (E : Z) :
  -120 <= Zpos (digits2_pos M) + E <= 120 ->
  exists (m : positive) (e : Z),
    binary_round (prec f) (emax f) false M E = S754_finite false m e /\
    Zpos (digits2_pos m) = prec f /\
    close_to (inject_Z (Zpos m) * 2 ^ e) (inject_Z (Zpos M) * 2 ^ E).
Proof.
  intros Hr. pose proof (format_bounds f) as Hf.
  assert (He : 128 <= emax f) by (destruct f; simpl; lia).
  assert (Hp : prec f <= 53) by (destruct f; simpl; lia).
  unfold binary_round, fexp, emin.
  replace (Z.max (Zpos (digits2_pos M) + E - prec f) (3 - emax f - prec f))
    with (Zpos (digits2_pos M) + E - prec f) by lia.
  destruct (Z_le_gt_dec (Zpos (digits2_pos M)) (prec f)) as [Hle | Hgt].
  - rewrite shl_align_le by lia.
    replace (shl M (E - (Zpos (digits2_pos M) + E - prec f)))
      with (shl (shl M (prec f - Zpos (digits2_pos M))) 0)
      by (simpl; f_equal; lia).
    rewrite binary_round_aux_exact;
      [| rewrite shl_digits by lia; lia | lia | lia].
    eexists. eexists. split; [reflexivity |].
    split; [rewrite shl_digits by lia; lia |].
    rewrite shl_spec by lia. rewrite inject_Z_mult.
    rewrite pow2_Z by lia.
    eapply close_to_eq; [reflexivity | | apply close_to_refl].
    + rewrite <- Qmult_assoc, <- pow2_add.
      replace (prec f - Zpos (digits2_pos M)
               + (Zpos (digits2_pos M) + E - prec f + 0)) with E by lia.
      reflexivity.
    + rewrite <- Qmult_assoc, <- pow2_add.
      apply Qmult_le_0_compat; [| apply Qlt_le_weak, pow2_pos].
      change 0%Q with (inject_Z 0). rewrite <- Zle_Qle. lia.
  - rewrite shl_align_ge by lia.
    destruct (binary_round_aux_value f false M E loc_Exact)
      as (m & e & H & Hd & HE & HM); [lia | lia | lia |].
    exists m, e. split; [exact H |]. split; [exact Hd |].
    apply round_close; assumption.
Qed.

(** A float with a full mantissa lies between the powers of two of its
    range. *)
Lemma normal_val (lo hi : Z) (x : spec_float) :
  normal f false lo hi x ->
  (2 ^ (lo - 1) <= sf_val x /\ sf_val x < 2 ^ hi)%Q.
Proof.
  intros (m & e & -> & Hd & Hb). rewrite sf_val_pos.
  pose proof (Zpos_digits_bounds m) as B. rewrite Hd in B.
  pose proof (format_bounds f) as Hf.
  destruct B as [B1 B2]. rewrite Zle_Qle in B1. rewrite Zlt_Qlt in B2.
  rewrite pow2_Z in B1, B2 by lia.
  pose proof (pow2_pos e) as He.
  pose proof (pow2_le (lo - 1) (prec f - 1 + e) ltac:(lia)) as L1.
  pose proof (pow2_le (prec f + e) hi ltac:(lia)) as L2.
  rewrite pow2_add in L1, L2.
  split.
  - apply Qle_trans with (2 ^ (prec f - 1) * 2 ^ e)%Q; [exact L1 |].
    apply Qmult_le_compat_r; [exact B1 | apply Qlt_le_weak, He].
  - apply Qlt_le_trans with (2 ^ prec f * 2 ^ e)%Q; [| exact L2].
    apply Qmult_lt_compat_r; assumption.
Qed.

Lemma normal_val_pos (lo hi : Z) (x : spec_float) :
  normal f false lo hi x -> (0 < sf_val x)%Q.
Proof.
  intros H. destruct (normal_val lo hi x H) as [H1 _].
  apply Qlt_le_trans with (2 := H1). apply pow2_pos.
Qed.

(** ** The error of one operation *)

Lemma SFmul_close (lo1 hi1 lo2 hi2 : Z) (x y : spec_float) :
  normal f false lo1 hi1 x -> normal f false lo2 hi2 y ->
  -120 <= lo1 + lo2 - 1 -> hi1 + hi2 <= 120 ->
  close_to (sf_val (SFmul (prec f) (emax f) x y)) (sf_val x * sf_val y).
Proof.
  intros (m1 & e1 & -> & Hd1 & Hb1) (m2 & e2 & -> & Hd2 & Hb2) Hlo Hhi.
  pose proof (format_bounds f) as Hf.
  assert (He : 128 <= emax f) by (destruct f; simpl; lia).
  pose proof (digits2_pos_mul m1 m2) as Hd.
  unfold SFmul. simpl xorb.
  destruct (binary_round_aux_value f false (m1 * m2) (e1 + e2) loc_Exact)
    as (m & e & H & Hm & HE & HM); [lia | lia | lia |].
  rewrite H.
  eapply close_to_eq; [| | apply (round_close _ _ _ _ Hm HE HM)].
  - rewrite sf_val_pos. reflexivity.
  - rewrite !sf_val_pos, Pos2Z.inj_mul, inject_Z_mult, pow2_add. ring.
Qed.

Lemma SFadd_close (lo1 hi1 lo2 hi2 : Z) (x y : spec_float) :
  normal f false lo1 hi1 x -> normal f false lo2 hi2 y ->
  -120 <= Z.max lo1 lo2 -> Z.max hi1 hi2 <= 119 ->
  close_to (sf_val (SFadd (prec f) (emax f) x y)) (sf_val x + sf_val y).
Proof.
  intros (m1 & e1 & -> & Hd1 & Hb1) (m2 & e2 & -> & Hd2 & Hb2) Hlo Hhi.
  pose proof (format_bounds f) as Hf.
  unfold SFadd. rewrite !shl_align_le by lia. simpl fst. unfold cond_Zopp.
  change (Zpos (shl m1 (e1 - Z.min e1 e2)) + Zpos (shl m2 (e2 - Z.min e1 e2)))
    with (Zpos (shl m1 (e1 - Z.min e1 e2) + shl m2 (e2 - Z.min e1 e2))).
  unfold binary_normalize.
  pose proof (digits2_pos_add (shl m1 (e1 - Z.min e1 e2))
                (shl m2 (e2 - Z.min e1 e2))) as Hd.
  rewrite !shl_digits in Hd by lia.
  destruct (binary_round_close
              (shl m1 (e1 - Z.min e1 e2) + shl m2 (e2 - Z.min e1 e2))
              (Z.min e1 e2)) as (m & e & H & Hm & Hc); [lia |].
  rewrite H.
  eapply close_to_eq; [| | exact Hc].
  - rewrite sf_val_pos. reflexivity.
  - rewrite !sf_val_pos, Pos2Z.inj_add, inject_Z_plus.
    rewrite !shl_spec by lia. rewrite !inject_Z_mult.
    rewrite !pow2_Z by lia.
    rewrite Qmult_plus_distr_l, <- !Qmult_assoc, <- !pow2_add.
    replace (e1 - Z.min e1 e2 + Z.min e1 e2) with e1 by lia.
    replace (e2 - Z.min e1 e2 + Z.min e1 e2) with e2 by lia.
    reflexivity.
Qed.
End RelativeError.

Section OperationErrors.
Variable f : float_format.

Lemma SFsub_close (lo1 hi1 lo2 hi2 : Z) (x y : spec_float) :
  normal f false lo1 hi1 x -> normal f false lo2 hi2 y ->
  -60 <= Z.min lo1 lo2 -> Z.max hi1 hi2 <= 119 ->
  SFltb y x = true ->
  close_to (sf_val (SFsub (prec f) (emax f) x y)) (sf_val x - sf_val y).
Proof.
  intros (m1 & e1 & -> & Hd1 & Hb1) (m2 & e2 & -> & Hd2 & Hb2) Hlo Hhi Hlt.
  pose proof (format_bounds f) as Hf.
  assert (Hp : prec f <= 53) by (destruct f; simpl; lia).
  pose proof (Zpos_digits_bounds m1) as B1. rewrite Hd1 in B1.
  pose proof (Zpos_digits_bounds m2) as B2. rewrite Hd2 in B2.
  assert (H2p : 2 ^ prec f = 2 * 2 ^ (prec f - 1)).
  { replace (prec f) with (Z.succ (prec f - 1)) at 1 by lia.
    apply Z.pow_succ_r. lia. }
  unfold SFsub. rewrite !shl_align_le by lia. simpl fst. unfold cond_Zopp.
  set (a1 := shl m1 (e1 - Z.min e1 e2)).
  set (a2 := shl m2 (e2 - Z.min e1 e2)).
  assert (Ha1 : Zpos (digits2_pos a1) = prec f + (e1 - Z.min e1 e2))
    by (unfold a1; rewrite shl_digits by lia; lia).
  assert (Hgt : Zpos a2 < Zpos a1).
  { unfold a1, a2. rewrite !shl_spec by lia.
    unfold SFltb, SFcompare in Hlt.
    destruct (Z.compare_spec e2 e1) as [-> | Hee | Hee];
      try discriminate Hlt.
    - destruct (Pos.compare_cont Eq m2 m1) eqn:Em; try discriminate Hlt.
      change (Pos.compare_cont Eq m2 m1) with (Pos.compare m2 m1) in Em.
      rewrite Pos.compare_lt_iff in Em.
      rewrite Z.min_id, Z.sub_diag. change (2 ^ 0) with 1. lia.
    - rewrite Z.min_r by lia. rewrite Z.sub_diag.
      assert (2 <= 2 ^ (e1 - e2)).
      { change 2 with (2 ^ 1) at 1. apply Z.pow_le_mono_r; lia. }
      change (2 ^ 0) with 1. nia. }
  destruct (Zpos a1 - Zpos a2) as [| M | M] eqn:EM; [lia | | lia].
  unfold binary_normalize.
  pose proof (digits2_pos_le M a1 ltac:(lia)) as HM.
  assert (HM1 : 1 <= Zpos (digits2_pos M)) by lia.
  destruct (binary_round_close f M (Z.min e1 e2))
    as (m & e & H & Hm & Hc); [lia |].
  rewrite H. rewrite !sf_val_pos.
  eapply close_to_eq; [reflexivity | | exact Hc].
  rewrite <- EM. unfold Z.sub. rewrite inject_Z_plus, inject_Z_opp.
  unfold a1, a2. rewrite !shl_spec by lia. rewrite !inject_Z_mult.
  rewrite !pow2_Z by lia.
  rewrite (pow2_split (e1) (Z.min e1 e2)).
  rewrite (pow2_split (e2) (Z.min e1 e2)).
  ring.
Qed.

(** The quotient, as a product: no division of rationals is needed. *)
Lemma SFdiv_close (lo1 hi1 lo2 hi2 : Z) (x y : spec_float) :
  normal f false lo1 hi1 x -> normal f false lo2 hi2 y ->
  -120 <= lo1 - hi2 -> hi1 - lo2 <= 120 ->
  close_to (sf_val (SFdiv (prec f) (emax f) x y) * sf_val y) (sf_val x).
Proof.
  intros (m1 & e1 & -> & Hd1 & Hb1) (m2 & e2 & -> & Hd2 & Hb2) Hlo Hhi.
  pose proof (format_bounds f) as Hf.
  assert (He : 128 <= emax f) by (destruct f; simpl; lia).
  pose proof (Zpos_digits_bounds m1) as B1. rewrite Hd1 in B1.
  pose proof (Zpos_digits_bounds m2) as B2. rewrite Hd2 in B2.
  assert (H2p : 2 ^ prec f = 2 * 2 ^ (prec f - 1)).
  { replace (prec f) with (Z.succ (prec f - 1)) at 1 by lia.
    apply Z.pow_succ_r. lia. }
  assert (Hpp : 2 ^ (prec f + 1) = 2 * 2 ^ prec f).
  { replace (prec f + 1) with (Z.succ (prec f)) by lia.
    apply Z.pow_succ_r. lia. }
  assert (Hpos : 0 < 2 ^ (prec f - 1)) by (apply Z.pow_pos_nonneg; lia).
  unfold SFdiv, SFdiv_core_binary. unfold Zdigits2. rewrite Hd1, Hd2.
  unfold fexp, emin. simpl xorb.
  replace (Z.min (Z.max (prec f + e1 - (prec f + e2) - prec f)
                    (3 - emax f - prec f)) (e1 - e2))
    with (e1 - e2 - prec f) by lia.
  replace (e1 - e2 - (e1 - e2 - prec f)) with (prec f) by lia.
  assert (Hshift : match prec f with
                   | 0 => Zpos m1
                   | Zpos _ => Z.shiftl (Zpos m1) (prec f)
                   | Zneg _ => 0
                   end = Zpos m1 * 2 ^ prec f).
  { destruct (prec f) eqn:Ep; [lia | | lia].
    rewrite Z.shiftl_mul_pow2 by lia. reflexivity. }
  rewrite Hshift.
  pose proof (Z.div_eucl_eq (Zpos m1 * 2 ^ prec f) (Zpos m2) ltac:(lia))
    as Heq.
  pose proof (Z.mod_pos_bound (Zpos m1 * 2 ^ prec f) (Zpos m2) ltac:(lia))
    as Hr.
  unfold Z.modulo in Hr.
  change (IntDef.Z.div_eucl (Zpos m1 * 2 ^ prec f) (Zpos m2))
    with (Z.div_eucl (Zpos m1 * 2 ^ prec f) (Zpos m2)).
  destruct (Z.div_eucl (Zpos m1 * 2 ^ prec f) (Zpos m2)) as [q r].
  assert (Hq : 2 ^ (prec f - 1) <= q < 2 ^ (prec f + 1)).
  { rewrite Hpp. split; nia. }
  destruct q as [| Q | Q]; [lia | | lia].
  generalize (new_location (Zpos m2) r). intros l.
  assert (HdQ : prec f <= Zpos (digits2_pos Q) <= prec f + 1).
  { destruct (Z_lt_le_dec (Zpos Q) (2 ^ prec f)) as [Hlt | Hge].
    - rewrite (digits_of_bounds Q (prec f)) by lia. lia.
    - rewrite (digits_of_bounds Q (prec f + 1)); [lia | | lia].
      replace (prec f + 1 - 1) with (prec f) by lia. lia. }
  destruct (binary_round_aux_value f false Q (e1 - e2 - prec f) l)
    as (m & e & H & Hm & HE & HM); [lia | lia | lia |].
  rewrite H. rewrite !sf_val_pos.
  pose proof (full_mantissa_ge f m Hm) as Hm23.
  set (K := 2 ^ (e - (e1 - e2 - prec f))) in *.
  assert (HK : 0 < K) by (apply Z.pow_pos_nonneg; lia).
  assert (Hl : (inject_Z (Zpos m) * 2 ^ e * (inject_Z (Zpos m2) * 2 ^ e2)
                == inject_Z (Zpos m2 * (Zpos m * K)) * 2 ^ (e1 - prec f))%Q).
  { rewrite !inject_Z_mult. unfold K. rewrite pow2_Z by lia.
    rewrite (pow2_split (e) ((e1 - e2 - prec f))).
    rewrite (pow2_split (e1 - prec f) e2).
    replace (e1 - prec f - e2) with (e1 - e2 - prec f) by lia.
    ring. }
  assert (Hx : (inject_Z (Zpos m1) * 2 ^ e1
                == inject_Z (Zpos m1 * 2 ^ prec f) * 2 ^ (e1 - prec f))%Q).
  { rewrite inject_Z_mult, pow2_Z by lia.
    rewrite <- Qmult_assoc, <- pow2_add.
    replace (prec f + (e1 - prec f)) with e1 by lia. reflexivity. }
  rewrite Hl, Hx. rewrite Heq.
  set (a := Zpos m * K) in *.
  assert (Ha : 8388608 * K <= a).
  { unfold a. apply Z.mul_le_mono_nonneg_r; lia. }
  assert (P1 : Zpos m2 * a - Zpos m2 * K <= Zpos m2 * Zpos Q).
  { rewrite <- Z.mul_sub_distr_l. apply Z.mul_le_mono_nonneg_l; lia. }
  assert (P2 : Zpos m2 * Zpos Q + Zpos m2 <= Zpos m2 * a + Zpos m2 * K).
  { rewrite <- Z.mul_add_distr_l.
    replace (Zpos m2 * Zpos Q + Zpos m2) with (Zpos m2 * (Zpos Q + 1))
      by ring.
    apply Z.mul_le_mono_nonneg_l; lia. }
  assert (P3 : 8388608 * (Zpos m2 * K) <= Zpos m2 * a).
  { replace (8388608 * (Zpos m2 * K)) with (Zpos m2 * (8388608 * K))
      by ring.
    apply Z.mul_le_mono_nonneg_l; lia. }
  assert (P4 : 0 <= Zpos m2 * a).
  { apply Z.mul_nonneg_nonneg; lia. }
  apply close_to_scaled; [apply pow2_pos | lia | lia | lia].
Qed.

(** Positive numbers with full mantissas compare as their values do. *)
Lemma SFltb_of_val (lo1 hi1 lo2 hi2 : Z) (x y : spec_float) :
  normal f false lo1 hi1 x -> normal f false lo2 hi2 y ->
  (sf_val x < sf_val y)%Q -> SFltb x y = true.
Proof.
  intros (m1 & e1 & -> & Hd1 & Hb1) (m2 & e2 & -> & Hd2 & Hb2) Hlt.
  rewrite !sf_val_pos in Hlt.
  apply (SFltb_normal_values f m1 m2 e1 e2 (Z.min e1 e2) Hd1 Hd2);
    [lia | lia |].
  apply Z.lt_nge. intros Hge. apply Qlt_not_le in Hlt. apply Hlt.
  rewrite Zle_Qle in Hge. rewrite !inject_Z_mult in Hge.
  rewrite !pow2_Z in Hge by lia.
  pose proof (pow2_pos (Z.min e1 e2)) as Hw.
  rewrite (pow2_split (e1) (Z.min e1 e2)).
  rewrite (pow2_split (e2) (Z.min e1 e2)).
  rewrite !Qmult_assoc. apply Qmult_le_compat_r; [exact Hge |].
  apply Qlt_le_weak, Hw.
Qed.
End OperationErrors.

(** ** Numerator and denominator of the two-band index *)

Lemma sf_val_one (f : float_format) : (sf_val (sf_of_int f 1) == 1)%Q.
Proof. destruct f; vm_compute; reflexivity. Qed.

Section IndexBound.
Variable f : float_format.

(** Numerator and denominator of the two-band formula on two positive
    numbers below 32, the larger first: the numerator is at most 63/64 of
    the denominator, roundings included; and less than half of it when
    the first number is not above 1 and the second not below 0.0000999
    (up to the rounding of the scaling). *)
Lemma evi2_ratio_values (x y : spec_float) :
  normal f false (-13) 5 x -> normal f false (-13) 5 y ->
  SFltb y x = true ->
  let a := SFsub (prec f) (emax f) x y in
  let b := SFadd (prec f) (emax f) (SFadd (prec f) (emax f) x y)
             (sf_of_int f 1) in
  normal f false (-65) 6 a /\ normal f false 1 9 b /\
  (sf_val a <= (63 # 64) * sf_val b)%Q /\
  ((sf_val x <= 1000001 # 1000000)%Q ->
   (999 # 10000000 <= sf_val y)%Q ->
   (sf_val a <= (49999 # 100000) * sf_val b)%Q).
Proof.
  intros Hx Hy Hlt a b.
  pose proof (SFsub_gt_normal f _ _ _ _ _ _ Hx Hy ltac:(lia) ltac:(lia) Hlt)
    as Ha.
  pose proof (SFadd_normal f _ _ _ _ _ _ Hx Hy ltac:(lia) ltac:(lia)) as Hs.
  assert (Hb : normal f false 1 9 b).
  { apply evi2_denominator_normal;
      eapply normal_weaken; try eassumption; lia. }
  pose proof (SFsub_close f _ _ _ _ _ _ Hx Hy ltac:(lia) ltac:(lia) Hlt)
    as Ca.
  pose proof (SFadd_close f _ _ _ _ _ _ Hx Hy ltac:(lia) ltac:(lia)) as Cs.
  pose proof (SFadd_close f _ _ _ _ _ _ Hs (sf_one_normal f)
                ltac:(lia) ltac:(lia)) as Cb.
  rewrite sf_val_one in Cb.
  pose proof (normal_val f _ _ _ Hx) as [_ Vx2].
  pose proof (normal_val_pos f _ _ _ Hx) as Px.
  pose proof (normal_val_pos f _ _ _ Hy) as Py.
  change (2 ^ 5)%Q with 32%Q in Vx2.
  fold a in Ha, Ca. fold b in Cb |- *.
  unfold close_to, eps in Ca, Cs, Cb.
  split; [exact Ha |]. split; [exact Hb |].
  split; [lra |]. intros Hx1 Hy1. lra.
Qed.

(** Either way of writing [2.4 * a / b] stays below a float [d] when [a]
    is at most [k] times [b] and [k * 2.4], with a margin for the
    roundings, is at most [d]. *)
Lemma evi2_product_below (a b c d : spec_float) (k : Q) (lo hi : Z) :
  normal f false (-65) 6 a -> normal f false 1 9 b ->
  normal f false 2 2 c -> normal f false lo hi d ->
  (0 < k)%Q -> (sf_val a <= k * sf_val b)%Q ->
  (k * (1048577 # 1048576) * sf_val c <= sf_val d)%Q ->
  SFltb (SFmul (prec f) (emax f) c (SFdiv (prec f) (emax f) a b)) d = true /\
  SFltb (SFdiv (prec f) (emax f) (SFmul (prec f) (emax f) c a) b) d = true.
Proof.
  intros Ha Hb Hc Hd Hk Hab Hkd.
  pose proof (normal_val_pos f _ _ _ Ha) as Pa.
  pose proof (normal_val_pos f _ _ _ Hb) as Pb.
  pose proof (normal_val_pos f _ _ _ Hc) as Pc.
  split.
  - pose proof (SFdiv_normal f _ _ _ _ _ _ _ _ Ha Hb ltac:(lia) ltac:(lia))
      as Hq.
    pose proof (SFmul_normal f _ _ _ _ _ _ _ _ Hc Hq ltac:(lia) ltac:(lia))
      as Hv.
    pose proof (SFdiv_close f _ _ _ _ _ _ Ha Hb ltac:(lia) ltac:(lia)) as Cq.
    pose proof (SFmul_close f _ _ _ _ _ _ Hc Hq ltac:(lia) ltac:(lia)) as Cv.
    pose proof (normal_val_pos f _ _ _ Hq) as Pq.
    apply (SFltb_of_val f _ _ _ _ _ _ Hv Hd).
    set (A := sf_val a) in *. set (B := sf_val b) in *.
    set (C := sf_val c) in *. set (Dv := sf_val d) in *.
    set (Qv := sf_val (SFdiv (prec f) (emax f) a b)) in *.
    set (V := sf_val (SFmul (prec f) (emax f) c
                        (SFdiv (prec f) (emax f) a b))) in *.
    unfold close_to, eps in Cq, Cv.
    assert (H1 : ((1 - (1 # 4194304)) * Qv <= k)%Q).
    { apply Qmult_lt_0_le_reg_r with B; [exact Pb |]. lra. }
    assert (H2 : (0 <= C * (k - (1 - (1 # 4194304)) * Qv))%Q).
    { apply Qmult_le_0_compat; lra. }
    assert (H3 : (0 < k * C)%Q).
    { apply Qmult_lt_0_compat; assumption. }
    lra.
  - pose proof (SFmul_normal f _ _ _ _ _ _ _ _ Hc Ha ltac:(lia) ltac:(lia))
      as Hn.
    pose proof (SFdiv_normal f _ _ _ _ _ _ _ _ Hn Hb ltac:(lia) ltac:(lia))
      as Hv.
    pose proof (SFmul_close f _ _ _ _ _ _ Hc Ha ltac:(lia) ltac:(lia)) as Cn.
    pose proof (SFdiv_close f _ _ _ _ _ _ Hn Hb ltac:(lia) ltac:(lia)) as Cv.
    apply (SFltb_of_val f _ _ _ _ _ _ Hv Hd).
    set (A := sf_val a) in *. set (B := sf_val b) in *.
    set (C := sf_val c) in *. set (Dv := sf_val d) in *.
    set (N := sf_val (SFmul (prec f) (emax f) c a)) in *.
    set (V := sf_val (SFdiv (prec f) (emax f)
                        (SFmul (prec f) (emax f) c a) b)) in *.
    unfold close_to, eps in Cn, Cv.
    assert (H2 : (0 <= C * (k * B - A))%Q).
    { apply Qmult_le_0_compat; lra. }
    assert (H1 : ((1 - (1 # 4194304)) * (1 - (1 # 4194304)) * V
                  <= k * C)%Q).
    { apply Qmult_lt_0_le_reg_r with B; [exact Pb |]. lra. }
    assert (H3 : (0 < k * C)%Q).
    { apply Qmult_lt_0_compat; assumption. }
    lra.
Qed.
End IndexBound.

(** ** Index Calculator: the range of the two-band index *)

(** The literals of the notebooks, as the formats hold them. *)
Lemma sf_lit_hls_scale_val (f : float_format) :
  (9999999 # 100000000000 <= sf_val (sf_lit f 0.0001))%Q /\
  (sf_val (sf_lit f 0.0001) <= 100000001 # 1000000000000)%Q.
Proof. destruct f; split; vm_compute; discriminate. Qed.

Lemma sf_lit_1_2_normal (f : float_format) :
  normal f false 1 1 (sf_lit f 1.2).
Proof.
  destruct f; eexists; eexists;
    (split; [vm_compute; reflexivity | split; [reflexivity | simpl; lia]]).
Qed.

Lemma sf_lit_1_2_val (f : float_format) :
  (sf_val (sf_lit f 2.4) == 2 * sf_val (sf_lit f 1.2))%Q.
Proof. destruct f; vm_compute; reflexivity. Qed.

Lemma sf_lit_negative (f : float_format) :
  sf_lit f (-2.4) = SFopp (sf_lit f 2.4) /\
  sf_lit f (-1.2) = SFopp (sf_lit f 1.2).
Proof. destruct f; split; vm_compute; reflexivity. Qed.

(** A positive number below [d], and its negation, lie strictly between
    [-d] and [d]; so does zero. *)
Lemma SFltb_within_pos (p d : spec_float) :
  sf_pos_finite p = true -> sf_pos_finite d = true ->
  SFltb p d = true ->
  SFltb (SFopp d) p = true /\
  SFltb (SFopp p) d = true /\ SFltb (SFopp d) (SFopp p) = true.
Proof.
  destruct p as [| | | [] m e]; try discriminate.
  destruct d as [| | | [] md ed]; try discriminate.
  intros _ _ H. split; [reflexivity |]. split; [reflexivity |].
  unfold SFltb, SFcompare in *. simpl.
  rewrite (Z.compare_antisym e ed).
  destruct (e ?= ed); simpl; try discriminate H; try reflexivity.
  change (Pos.compare_cont Eq md m) with (Pos.compare md m).
  change (Pos.compare_cont Eq m md) with (Pos.compare m md) in H.
  rewrite (Pos.compare_antisym m md).
  destruct (Pos.compare m md); simpl; try discriminate H; reflexivity.
Qed.

Lemma sf_negated_within (p a d : spec_float) :
  sf_negated p a -> sf_pos_finite p = true -> sf_pos_finite d = true ->
  SFltb p d = true ->
  SFltb a d = true /\ SFltb (SFopp d) a = true.
Proof.
  intros [-> | [Hz _]] Hp Hd Hlt.
  - destruct (SFltb_within_pos p d Hp Hd Hlt) as (_ & H1 & H2).
    split; assumption.
  - destruct p as [| | | [] m e]; discriminate.
Qed.

Section ScaledValues.
Variable f : float_format.

Lemma sf_val_of_int (k : positive) :
  Zpos k < 2 ^ prec f ->
  (sf_val (sf_of_int f (Zpos k)) == inject_Z (Zpos k))%Q.
Proof.
  intros Hk. pose proof (digits2_pos_bound f k Hk) as Hd.
  rewrite (sf_of_int_pos f k Hd), sf_val_pos.
  rewrite shl_spec by lia. rewrite inject_Z_mult, pow2_Z by lia.
  rewrite <- Qmult_assoc, <- pow2_add.
  replace (prec f - Zpos (digits2_pos k) + (Zpos (digits2_pos k) - prec f))
    with 0 by lia.
  change (2 ^ 0)%Q with 1%Q. ring.
Qed.

(** The scaled value of a valid 16-bit raw value, as a number. *)
Lemma hls_scaled_close (raw : Z) :
  0 < raw <= 32767 ->
  normal f false (-13) 5 (HLS.scale_offset (D := ieee f) (of_int raw)) /\
  close_to (sf_val (HLS.scale_offset (D := ieee f) (of_int raw)))
    (inject_Z raw * sf_val (sf_lit f 0.0001)).
Proof.
  intros Hraw.
  destruct (hls_scale_offset_spec f raw ltac:(lia)) as [Hs Hn].
  specialize (Hn ltac:(lia)). split; [exact Hn |].
  rewrite Hs. replace (0 <? raw) with true by (symmetry; apply Z.ltb_lt; lia).
  cbv iota. ieee_ops.
  pose proof (sf_of_int_normal f 16 raw ltac:(lia) ltac:(lia) ltac:(lia))
    as Hr.
  replace (raw <? 0) with false in Hr by (symmetry; apply Z.ltb_ge; lia).
  pose proof (SFmul_close f _ _ _ _ _ _ Hr (sf_lit_hls_scale_normal f)
                ltac:(lia) ltac:(lia)) as Hc.
  destruct raw as [| k | k]; try lia.
  rewrite sf_val_of_int in Hc; [exact Hc |].
  assert (H : 2 ^ 16 <= 2 ^ prec f)
    by (apply Z.pow_le_mono_r; destruct f; simpl; lia).
  change (2 ^ 16) with 65536 in H. lia.
Qed.

(** Within the reflectance range (raw values up to 10000) the scaled
    value is not above 1 and not below 0.0000999, up to the roundings of
    the scale factor and of the product. *)
Lemma hls_scaled_reflectance (raw : Z) :
  0 < raw <= 10000 ->
  (999 # 10000000
   <= sf_val (HLS.scale_offset (D := ieee f) (of_int raw)))%Q /\
  (sf_val (HLS.scale_offset (D := ieee f) (of_int raw))
   <= 1000001 # 1000000)%Q.
Proof.
  intros Hraw. destruct (hls_scaled_close raw ltac:(lia)) as [_ Hc].
  destruct (sf_lit_hls_scale_val f) as [C1 C2].
  set (X := sf_val (HLS.scale_offset (D := ieee f) (of_int raw))) in *.
  set (C := sf_val (sf_lit f 0.0001)) in *.
  assert (R1 : (1 <= inject_Z raw)%Q).
  { change 1%Q with (inject_Z 1). rewrite <- Zle_Qle. lia. }
  assert (R2 : (inject_Z raw <= 10000)%Q).
  { change 10000%Q with (inject_Z 10000). rewrite <- Zle_Qle. lia. }
  assert (H1 : (0 <= (inject_Z raw - 1) * C)%Q)
    by (apply Qmult_le_0_compat; lra).
  assert (H2 : (0 <= (10000 - inject_Z raw) * C)%Q)
    by (apply Qmult_le_0_compat; lra).
  unfold close_to, eps in Hc. split; lra.
Qed.
End ScaledValues.

Section IndexRange.
Variable f : float_format.
Let D : dtype := ieee f.
Local Existing Instance D.
Local Open Scope dt_scope.

(** The first scaled value the larger: both ways of writing the formula
    give less than 2.4, and less than 1.2 within the reflectance
    range. *)
Lemma evi2_formula_below (x y : spec_float) :
  normal f false (-13) 5 x -> normal f false (-13) 5 y ->
  SFltb y x = true ->
  let a :=
    SFmul (prec f) (emax f) (sf_lit f 2.4)
      (SFdiv (prec f) (emax f) (SFsub (prec f) (emax f) x y)
         (SFadd (prec f) (emax f) (SFadd (prec f) (emax f) x y)
            (sf_of_int f 1))) in
  let b :=
    SFdiv (prec f) (emax f)
      (SFmul (prec f) (emax f) (sf_lit f 2.4) (SFsub (prec f) (emax f) x y))
      (SFadd (prec f) (emax f) (SFadd (prec f) (emax f) x y)
         (sf_of_int f 1)) in
  (SFltb a (sf_lit f 2.4) = true /\ SFltb b (sf_lit f 2.4) = true) /\
  ((sf_val x <= 1000001 # 1000000)%Q -> (999 # 10000000 <= sf_val y)%Q ->
   SFltb a (sf_lit f 1.2) = true /\ SFltb b (sf_lit f 1.2) = true).
Proof.
  intros Hx Hy Hlt a b. subst a b.
  destruct (evi2_ratio_values f x y Hx Hy Hlt) as (Ha & Hb & Hk & Hk').
  pose proof (sf_lit_2_4_normal f) as Hc.
  pose proof (sf_lit_1_2_normal f) as Hd.
  pose proof (normal_val_pos f _ _ _ Hc) as Pc.
  pose proof (sf_lit_1_2_val f) as Hcd.
  split.
  - apply (evi2_product_below f _ _ _ _ (63 # 64) 2 2 Ha Hb Hc Hc);
      [reflexivity | exact Hk | lra].
  - intros Hx1 Hy1.
    apply (evi2_product_below f _ _ _ _ (49999 # 100000) 1 1 Ha Hb Hc Hd);
      [reflexivity | exact (Hk' Hx1 Hy1) | lra].
Qed.

(** Both ways of writing the formula, on any two valid scaled values:
    strictly between -2.4 and 2.4, and strictly between -1.2 and 1.2
    within the reflectance range. *)
Lemma evi2_formula_within (x y : spec_float) :
  normal f false (-13) 5 x -> normal f false (-13) 5 y ->
  let a :=
    SFmul (prec f) (emax f) (sf_lit f 2.4)
      (SFdiv (prec f) (emax f) (SFsub (prec f) (emax f) x y)
         (SFadd (prec f) (emax f) (SFadd (prec f) (emax f) x y)
            (sf_of_int f 1))) in
  let b :=
    SFdiv (prec f) (emax f)
      (SFmul (prec f) (emax f) (sf_lit f 2.4) (SFsub (prec f) (emax f) x y))
      (SFadd (prec f) (emax f) (SFadd (prec f) (emax f) x y)
         (sf_of_int f 1)) in
  (SFltb a (sf_lit f 2.4) = true /\
   SFltb (SFopp (sf_lit f 2.4)) a = true /\
   SFltb b (sf_lit f 2.4) = true /\
   SFltb (SFopp (sf_lit f 2.4)) b = true) /\
  ((999 # 10000000 <= sf_val x)%Q -> (sf_val x <= 1000001 # 1000000)%Q ->
   (999 # 10000000 <= sf_val y)%Q -> (sf_val y <= 1000001 # 1000000)%Q ->
   SFltb a (sf_lit f 1.2) = true /\
   SFltb (SFopp (sf_lit f 1.2)) a = true /\
   SFltb b (sf_lit f 1.2) = true /\
   SFltb (SFopp (sf_lit f 1.2)) b = true).
Proof.
  intros Hx Hy a b. subst a b.
  pose proof (normal_pos_finite f _ _ _ (sf_lit_2_4_normal f)) as Pc.
  pose proof (normal_pos_finite f _ _ _ (sf_lit_1_2_normal f)) as Pd.
  destruct (SFltb y x) eqn:Eyx.
  - destruct (evi2_formula_positive f x y Hx Hy Eyx) as [Pa Pb].
    destruct (evi2_formula_below x y Hx Hy Eyx) as [[Ha Hb] Ht].
    split.
    + destruct (SFltb_within_pos _ _ Pa Pc Ha) as (Ha' & _).
      destruct (SFltb_within_pos _ _ Pb Pc Hb) as (Hb' & _).
      repeat split; assumption.
    + intros _ Hx1 Hy1 _. destruct (Ht Hx1 Hy1) as [Ha1 Hb1].
      destruct (SFltb_within_pos _ _ Pa Pd Ha1) as (Ha' & _).
      destruct (SFltb_within_pos _ _ Pb Pd Hb1) as (Hb' & _).
      repeat split; assumption.
  - destruct (SFltb x y) eqn:Exy.
    + destruct (evi2_formula_positive f y x Hy Hx Exy) as [Pa Pb].
      destruct (evi2_formula_below y x Hy Hx Exy) as [[Ha Hb] Ht].
      destruct (evi2_formula_negated f y x) as [Na Nb].
      split.
      * destruct (sf_negated_within _ _ _ Na Pa Pc Ha) as [Ha1 Ha2].
        destruct (sf_negated_within _ _ _ Nb Pb Pc Hb) as [Hb1 Hb2].
        repeat split; assumption.
      * intros Hx1 _ _ Hy1. destruct (Ht Hy1 Hx1) as [Ha' Hb'].
        destruct (sf_negated_within _ _ _ Na Pa Pd Ha') as [Ha1 Ha2].
        destruct (sf_negated_within _ _ _ Nb Pb Pd Hb') as [Hb1 Hb2].
        repeat split; assumption.
    + assert (E : x = y).
      { destruct Hx as (m1 & e1 & -> & _), Hy as (m2 & e2 & -> & _).
        symmetry. apply SFltb_pos_eq; assumption. }
      subst y.
      assert (Hnn : sf_nonneg_finite x = true)
        by (destruct Hx as (m1 & e1 & -> & _); reflexivity).
      assert (Hden : sf_pos_finite
                (SFadd (prec f) (emax f) (SFadd (prec f) (emax f) x x)
                   (sf_of_int f 1)) = true).
      { apply (normal_pos_finite f 1 9). apply evi2_denominator_normal;
          eapply normal_weaken; try eassumption; lia. }
      destruct (evi2_formula_zero f x Hnn Hden) as [-> ->].
      destruct (sf_lit f 2.4) as [| | | [] mc ec]; try discriminate Pc.
      destruct (sf_lit f 1.2) as [| | | [] md ed]; try discriminate Pd.
      repeat split; reflexivity.
Qed.

(** C2, as the code has it.  The index is not clipped.  For every pair of
    16-bit raw band values whose scaled reflectances are valid, in
    binary32 and in binary64 and for either way of writing the two-band
    formula, the two-band index is a number strictly between -2.4 and
    2.4, and strictly between -1.2 and 1.2 when both raw values are
    within the reflectance range (at most 10000); it does leave [-1, 1]
    there: raw near-infrared 10000 and red 1 give a value above 1.  The
    three-band index has no such range: raw near-infrared 9000, red 8000
    and blue 9000 are valid and give a value below -2.4, and in binary64
    raw 1400, 100 and 1600 give an infinity. *)
Theorem index_range (raw_nir raw_red : Z) :
  (-32768 <= raw_nir <= 32767)%Z ->
  (-32768 <= raw_red <= 32767)%Z ->
  isnan (HLS.scale_offset (of_int raw_nir)) = false ->
  isnan (HLS.scale_offset (of_int raw_red)) = false ->
  ((lit 2.4 > HLS.calculate_evi2 (of_int raw_nir) (of_int raw_red)) = true /\
   (HLS.calculate_evi2 (of_int raw_nir) (of_int raw_red) > lit (-2.4))
   = true /\
   (lit 2.4 > HLSRaster.calculate_evi2 (of_int raw_nir) (of_int raw_red))
   = true /\
   (HLSRaster.calculate_evi2 (of_int raw_nir) (of_int raw_red) > lit (-2.4))
   = true) /\
  ((raw_nir <= 10000)%Z -> (raw_red <= 10000)%Z ->
   (lit 1.2 > HLS.calculate_evi2 (of_int raw_nir) (of_int raw_red)) = true /\
   (HLS.calculate_evi2 (of_int raw_nir) (of_int raw_red) > lit (-1.2))
   = true /\
   (lit 1.2 > HLSRaster.calculate_evi2 (of_int raw_nir) (of_int raw_red))
   = true /\
   (HLSRaster.calculate_evi2 (of_int raw_nir) (of_int raw_red) > lit (-1.2))
   = true) /\
  ((HLS.calculate_evi2 (of_int 10000) (of_int 1) > of_int 1) = true /\
   (HLSRaster.calculate_evi2 (of_int 10000) (of_int 1) > of_int 1) = true) /\
  (isnan (HLS.scale_offset (of_int 9000)) = false /\
   isnan (HLS.scale_offset (of_int 8000)) = false /\
   (lit (-2.4)
    > HLS.calculate_evi (of_int 9000) (of_int 8000) (of_int 9000)) = true) /\
  sf_isinf (HLS.calculate_evi (D := float64)
              (of_int 1400) (of_int 100) (of_int 1600)) = true.
Proof.
  intros Hn Hr Vn Vr.
  destruct (hls_scale_offset_spec f raw_nir Hn) as [Hsn _].
  destruct (hls_scale_offset_spec f raw_red Hr) as [Hsr _].
  fold D in Hsn, Hsr.
  assert (Hn0 : (0 < raw_nir)%Z).
  { destruct (0 <? raw_nir)%Z eqn:E; [apply Z.ltb_lt; exact E |].
    rewrite Hsn in Vn. discriminate Vn. }
  assert (Hr0 : (0 < raw_red)%Z).
  { destruct (0 <? raw_red)%Z eqn:E; [apply Z.ltb_lt; exact E |].
    rewrite Hsr in Vr. discriminate Vr. }
  destruct (hls_scaled_close f raw_nir ltac:(lia)) as [Hx _].
  destruct (hls_scaled_close f raw_red ltac:(lia)) as [Hy _].
  fold D in Hx, Hy.
  destruct (evi2_formula_within _ _ Hx Hy) as [H24 H12].
  destruct (sf_lit_negative f) as [N24 N12].
  unfold HLS.calculate_evi2, HLSRaster.calculate_evi2.
  change (HLSRaster.scale_offset) with (@HLS.scale_offset D).
  change (@lit D) with (sf_lit f). change (@gtb D) with (fun x y => SFltb y x).
  cbv beta. rewrite N24, N12.
  split; [exact H24 |]. split; [| split; [| split]].
  - intros Hn1 Hr1.
    destruct (hls_scaled_reflectance f raw_nir ltac:(lia)) as [X1 X2].
    destruct (hls_scaled_reflectance f raw_red ltac:(lia)) as [Y1 Y2].
    fold D in X1, X2, Y1, Y2.
    exact (H12 X1 X2 Y1 Y2).
  - subst D. destruct f; vm_compute; split; reflexivity.
  - subst D. destruct f; vm_compute; repeat split; reflexivity.
  - vm_compute. reflexivity.
Qed.
End IndexRange.

(** Raw near-infrared 10000 and red 1 in binary32: the index is above 1
    (1.1998...) and below 1.2. *)
Lemma index_range_witness :
  (@gtb float32 (@lit float32 1.2)
     (HLS.calculate_evi2 (@of_int float32 10000) (@of_int float32 1))
   = true /\
   @gtb float32
     (HLS.calculate_evi2 (@of_int float32 10000) (@of_int float32 1))
     (@of_int float32 1) = true).
Proof.
  split.
  - refine (proj1 (proj1 (proj2 (index_range binary32 10000 1 _ _ _ _))
                     _ _)); try reflexivity; lia.
  - vm_compute. reflexivity.
Defined.

(** ** Area Summary *)

Lemma scaled_mantissa_val (E : Z) (x : spec_float) :
  sf_finite_or_zero x = true ->
  (forall s m e, x = S754_finite s m e -> E <= e) ->
  (inject_Z (scaled_mantissa E x) * 2 ^ E == sf_val x)%Q.
Proof.
  intros Hx HE. destruct x as [s | s | | s m e]; try discriminate Hx.
  - simpl. ring.
  - specialize (HE s m e eq_refl). unfold scaled_mantissa, sf_val.
    rewrite (pow2_split e E).
    destruct s; simpl cond_Zopp.
    + rewrite inject_Z_opp, inject_Z_mult, pow2_Z by lia. ring.
    + rewrite inject_Z_mult, pow2_Z by lia. ring.
Qed.

Lemma min_exponent_le (xs : list spec_float) (s : bool) (m : positive)
    (e : Z) :
  In (S754_finite s m e) xs -> min_exponent xs <= e.
Proof.
  induction xs as [| x xs IH]; simpl; [intros [] |].
  intros [-> | H].
  - lia.
  - specialize (IH H). destruct x; lia.
Qed.

Lemma scaled_sum_val (E : Z) (xs : list spec_float) :
  (forall x, In x xs -> sf_finite_or_zero x = true) ->
  (forall s m e, In (S754_finite s m e) xs -> E <= e) ->
  (inject_Z (foldr (fun x acc => (scaled_mantissa E x + acc)%Z) 0%Z xs) * 2 ^ E
   == sum_values xs)%Q.
Proof.
  induction xs as [| x xs IH]; intros Hf HE.
  - simpl. ring.
  - cbn [foldr sum_values]. rewrite inject_Z_plus, Qmult_plus_distr_l.
    rewrite IH.
    + rewrite scaled_mantissa_val; [reflexivity | |].
      * apply Hf. left. reflexivity.
      * intros s m e ->. apply (HE s m e). left. reflexivity.
    + intros y Hy. apply Hf. right. exact Hy.
    + intros s m e Hy. apply (HE s m e). right. exact Hy.
Qed.

(** The exact sum stands for the sum of the values. *)
Lemma exact_sum_val (xs : list spec_float) :
  (forall x, In x xs -> sf_finite_or_zero x = true) ->
  (inject_Z (exact_sum xs).1 * 2 ^ (exact_sum xs).2 == sum_values xs)%Q.
Proof.
  intros Hf. unfold exact_sum. cbn [fst snd].
  apply scaled_sum_val; [exact Hf |].
  intros s m e H. apply (min_exponent_le xs s m e H).
Qed.

Section ExactQuotient.
Variable f : float_format.

(** A quotient that is a float of the format is computed exactly,
    whatever the sizes of the integer mantissas of the operands. *)
Lemma SFdiv_exact (s : bool) (M n mv : positive) (E ev : Z) :
  Zpos (digits2_pos mv) = prec f ->
  3 - emax f - prec f <= ev <= emax f - prec f ->
  (inject_Z (Zpos M) * 2 ^ E
   == inject_Z (Zpos n) * (inject_Z (Zpos mv) * 2 ^ ev))%Q ->
  SFdiv (prec f) (emax f) (S754_finite s M E) (S754_finite false n 0)
  = S754_finite s mv ev.
Proof.
  intros Hd Hev Hq. pose proof (format_bounds f) as Hf.
  assert (HZ : forall E0, E0 <= E -> E0 <= ev ->
             Zpos M * 2 ^ (E - E0) = Zpos n * (Zpos mv * 2 ^ (ev - E0))).
  { intros E0 H1 H2. apply inject_Z_injective.
    rewrite !inject_Z_mult, !pow2_Z by lia.
    rewrite (pow2_split E E0), (pow2_split ev E0) in Hq.
    rewrite !Qmult_assoc in Hq. apply Qmult_inj_r in Hq.
    - rewrite Hq. ring.
    - pose proof (pow2_pos E0) as P. intros Heq. rewrite Heq in P.
      apply (Qlt_irrefl 0). exact P. }
  set (d1 := Zpos (digits2_pos M)). set (d2 := Zpos (digits2_pos n)).
  assert (Hdig : d1 + E
                 = Zpos (digits2_pos (n * mv)) + ev).
  { pose proof (HZ (Z.min E ev) ltac:(lia) ltac:(lia)) as H.
    apply (f_equal Z.log2) in H.
    rewrite Z.mul_assoc in H.
    rewrite !Z.log2_mul_pow2 in H by lia.
    unfold d1. rewrite !digits2_pos_log2, Pos2Z.inj_mul.
    revert H. generalize (Z.log2 (Zpos M)) (Z.log2 (Zpos n * Zpos mv)).
    intros a b H. lia. }
  pose proof (digits2_pos_mul n mv) as Hnm. rewrite Hd in Hnm. fold d2 in Hnm.
  unfold SFdiv, SFdiv_core_binary, Zdigits2. fold d1 d2.
  unfold fexp, emin. rewrite xorb_false_r.
  set (e' := Z.min (Z.max (d1 + E - (d2 + 0) - prec f)
                      (3 - emax f - prec f)) (E - 0)).
  assert (He1 : e' <= ev) by (unfold e'; lia).
  assert (He2 : e' <= E) by (unfold e'; lia).
  assert (Hm' : match E - 0 - e' with
                | 0 => Zpos M
                | Zpos _ => Z.shiftl (Zpos M) (E - 0 - e')
                | Zneg _ => 0
                end = Zpos n * Zpos (shl mv (ev - e'))).
  { rewrite shl_spec by lia. rewrite <- (HZ e' He2 He1).
    replace (E - 0 - e') with (E - e') by lia.
    destruct (E - e') as [| p | p] eqn:Es; [| | lia].
    - rewrite Z.mul_1_r. reflexivity.
    - rewrite Z.shiftl_mul_pow2 by lia. reflexivity. }
  rewrite Hm'.
  pose proof (Z.div_eucl_eq (Zpos n * Zpos (shl mv (ev - e'))) (Zpos n)
                ltac:(lia)) as Heq.
  pose proof (Z.mod_pos_bound (Zpos n * Zpos (shl mv (ev - e'))) (Zpos n)
                ltac:(lia)) as Hr.
  unfold Z.modulo in Hr.
  change (IntDef.Z.div_eucl (Zpos n * Zpos (shl mv (ev - e'))) (Zpos n))
    with (Z.div_eucl (Zpos n * Zpos (shl mv (ev - e'))) (Zpos n)).
  destruct (Z.div_eucl (Zpos n * Zpos (shl mv (ev - e'))) (Zpos n))
    as [q r].
  assert (Hq0 : q = Zpos (shl mv (ev - e'))).
  { destruct (Z_lt_le_dec q (Zpos (shl mv (ev - e')))) as [Hlt | Hge].
    - pose proof (Z.mul_le_mono_nonneg_l (q + 1) (Zpos (shl mv (ev - e')))
                    (Zpos n) ltac:(lia) ltac:(lia)) as Hmul.
      rewrite Z.mul_add_distr_l in Hmul. lia.
    - destruct (Z_lt_le_dec (Zpos (shl mv (ev - e'))) q) as [Hlt | Hle];
        [| lia].
      pose proof (Z.mul_le_mono_nonneg_l (Zpos (shl mv (ev - e')) + 1) q
                    (Zpos n) ltac:(lia) ltac:(lia)) as Hmul.
      rewrite Z.mul_add_distr_l in Hmul. lia. }
  assert (Hr0 : r = 0) by (subst q; lia).
  subst q r.
  assert (Hl : new_location (Zpos n) 0 = loc_Exact).
  { unfold new_location. destruct (Z.even (Zpos n)); reflexivity. }
  rewrite Hl.
  rewrite binary_round_aux_exact by lia.
  f_equal. lia.
Qed.
End ExactQuotient.

Lemma mean_xy_lookup (f : float_format)
    (periods : list (period * list spec_float)) (k : nat) (t : period)
    (raster : list spec_float) :
  periods !! k = Some (t, raster) ->
  mean_xy f periods !! k = Some (t, nanmean f raster).
Proof.
  intros H. unfold mean_xy. rewrite list_lookup_fmap, H. reflexivity.
Qed.

Section AreaSummary.
Variable f : float_format.
Let D : dtype := ieee f.
Local Existing Instance D.
Local Open Scope dt_scope.

Lemma filter_valid_idem (xs : list elt) :
  List.filter valid (List.filter valid xs) = List.filter valid xs.
Proof.
  induction xs as [| x xs IH]; [reflexivity |]. cbn [List.filter].
  destruct (valid x) eqn:E; [| exact IH].
  cbn [List.filter]. rewrite E, IH. reflexivity.
Qed.

Lemma filter_valid_none (xs : list elt) :
  (forall x, In x xs -> isnan x = true) -> List.filter valid xs = [].
Proof.
  induction xs as [| x xs IH]; intros H; [reflexivity |].
  cbn [List.filter]. unfold valid at 1.
  rewrite (H x (or_introl eq_refl)). cbn [negb].
  apply IH. intros y Hy. apply H. right. exact Hy.
Qed.

(** The mean looks at the valid entries only. *)
Lemma nanmean_filter (xs xs' : list elt) :
  List.filter valid xs = List.filter valid xs' ->
  nanmean f xs = nanmean f xs'.
Proof. unfold nanmean. fold D. intros ->. reflexivity. Qed.

Lemma has_infinity_false (s : bool) (xs : list elt) :
  (forall x, In x xs -> sf_isinf x = false) -> has_infinity s xs = false.
Proof.
  intros H. unfold has_infinity.
  induction xs as [| x xs IH]; [reflexivity |]. simpl.
  rewrite IH by (intros y Hy; apply H; right; exact Hy).
  pose proof (H x (or_introl eq_refl)) as Hx.
  destruct x; try reflexivity. discriminate Hx.
Qed.

(** Without infinities the mean is one division, rounded as any
    division is, of the exact sum of the valid entries by their
    number. *)
Lemma nanmean_quotient (raster : list elt) :
  List.filter valid raster <> [] ->
  (forall x, In x raster -> sf_isinf x = false) ->
  exists M E : Z,
    (inject_Z M * 2 ^ E == sum_values (List.filter valid raster))%Q /\
    nanmean f raster
    = SFdiv (prec f) (emax f) (sf_of_scaled M E)
        (S754_finite false
           (Pos.of_nat (length (List.filter valid raster))) 0).
Proof.
  intros Hne Hinf. unfold nanmean. fold D.
  assert (Hys : forall x, In x (List.filter valid raster) ->
                  sf_isinf x = false /\ sf_finite_or_zero x = true).
  { intros x Hx. apply filter_In in Hx. destruct Hx as [Hx Hv].
    pose proof (Hinf x Hx) as Hi.
    destruct x; try discriminate; split; reflexivity. }
  pose proof (exact_sum_val (List.filter valid raster)
                (fun x Hx => proj2 (Hys x Hx))) as HM.
  rewrite !(has_infinity_false _ _ (fun x Hx => proj1 (Hys x Hx))).
  destruct (List.filter valid raster) as [| y ys] eqn:Eys;
    [contradiction |].
  destruct (exact_sum (y :: ys)) as [M E]. cbn [fst snd] in HM.
  exists M, E. split; [exact HM | reflexivity].
Qed.

(** Where the arithmetic mean of the valid entries is a float [v] of the
    format, the mean is [v]. *)
Lemma nanmean_exact (raster : list elt) (s : bool) (mv : positive)
    (ev : Z) :
  List.filter valid raster <> [] ->
  (forall x, In x raster -> sf_isinf x = false) ->
  Zpos (digits2_pos mv) = prec f ->
  3 - emax f - prec f <= ev <= emax f - prec f ->
  (sum_values (List.filter valid raster)
   == inject_Z (Z.of_nat (length (List.filter valid raster)))
      * sf_val (S754_finite s mv ev))%Q ->
  nanmean f raster = S754_finite s mv ev.
Proof.
  intros Hne Hinf Hd Hev Hsum.
  destruct (nanmean_quotient raster Hne Hinf) as (M & E & HM & ->).
  rewrite Hsum in HM. clear Hsum.
  destruct (List.filter valid raster) as [| y ys] eqn:Eys;
    [contradiction |].
  assert (Hn : Zpos (Pos.of_nat (length (y :: ys)))
               = Z.of_nat (length (y :: ys))).
  { cbn [length].
    rewrite <- Pos.of_nat_succ, Zpos_P_of_succ_nat, Nat2Z.inj_succ.
    reflexivity. }
  rewrite <- Hn in HM.
  set (n := Pos.of_nat (length (y :: ys))) in *.
  assert (Pn : (0 < inject_Z (Zpos n))%Q).
  { change 0%Q with (inject_Z 0). rewrite <- Zlt_Qlt. lia. }
  assert (Pw : (0 < inject_Z (Zpos mv) * 2 ^ ev)%Q).
  { apply Qmult_lt_0_compat; [| apply pow2_pos].
    change 0%Q with (inject_Z 0). rewrite <- Zlt_Qlt. lia. }
  pose proof (Qmult_lt_0_compat _ _ Pn Pw) as Pnw.
  pose proof (pow2_pos E) as PE.
  unfold sf_val in HM.
  destruct M as [| M | M]; unfold sf_of_scaled.
  - exfalso. change (inject_Z 0) with 0%Q in HM.
    destruct s; lra.
  - assert (PM : (0 < inject_Z (Zpos M) * 2 ^ E)%Q).
    { apply Qmult_lt_0_compat; [| exact PE].
      change 0%Q with (inject_Z 0). rewrite <- Zlt_Qlt. lia. }
    destruct s; [exfalso; lra |].
    apply SFdiv_exact; [exact Hd | exact Hev |]. rewrite HM. ring.
  - assert (PM : (0 < inject_Z (Zpos M) * 2 ^ E)%Q).
    { apply Qmult_lt_0_compat; [| exact PE].
      change 0%Q with (inject_Z 0). rewrite <- Zlt_Qlt. lia. }
    change (Zneg M) with (- Zpos M) in HM. rewrite inject_Z_opp in HM.
    destruct s; [| exfalso; lra].
    apply SFdiv_exact; [exact Hd | exact Hev |]. lra.
Qed.

Lemma sum_values_ones (xs : list elt) :
  (forall x, In x xs -> x = sf_of_int f 1) ->
  (sum_values xs == inject_Z (Z.of_nat (length xs)))%Q.
Proof.
  induction xs as [| x xs IH]; intros H; [reflexivity |].
  cbn [sum_values foldr length].
  rewrite (H x (or_introl eq_refl)), sf_val_one.
  fold (sum_values xs). rewrite IH by (intros y Hy; apply H; right; exact Hy).
  rewrite Nat2Z.inj_succ. unfold Z.succ. rewrite inject_Z_plus. ring.
Qed.

(** C7. The summary of every period of a period aggregate, in binary32
    and in binary64.  [mean_xy] gives one scalar per period, under the
    period's label.  Pixels that are "no value" contribute nothing, to
    the sum or to the count: the summary is the summary of the valid
    pixels alone, and stays the same when a "no value" pixel is taken out
    of the raster.  When every pixel is "no value" the summary is "no
    value".  Otherwise (infinite pixels apart) the summary is the
    arithmetic mean of the valid pixels: the quotient, rounded to the
    format as every division is, of their sum by their number; so
    whenever the sum divided by the number is a float of the format, the
    summary is that float.  In particular, when the valid pixels (at
    least one) are all 1.0 the summary is exactly 1.0, however many
    pixels there are and however many of them are "no value" (half of
    them, for instance). *)
Theorem area_summary_spec (periods : list (period * list elt))
    (k : nat) (t : period) (raster : list elt) :
  periods !! k = Some (t, raster) ->
  length (mean_xy f periods) = length periods /\
  exists m : elt,
    mean_xy f periods !! k = Some (t, m) /\
    m = nanmean f (List.filter valid raster) /\
    (forall r1 r2 : list elt,
       raster = r1 ++ nan :: r2 -> m = nanmean f (r1 ++ r2)) /\
    ((forall x, In x raster -> isnan x = true) -> m = nan) /\
    ((exists x, In x raster /\ isnan x = false) ->
     (forall x, In x raster -> sf_isinf x = false) ->
     exists M E : Z,
       (inject_Z M * 2 ^ E == sum_values (List.filter valid raster))%Q /\
       m = sf_of_scaled M E
           / S754_finite false
               (Pos.of_nat (length (List.filter valid raster))) 0) /\
    (forall (s : bool) (mv : positive) (ev : Z),
       (exists x, In x raster /\ isnan x = false) ->
       (forall x, In x raster -> sf_isinf x = false) ->
       Zpos (digits2_pos mv) = prec f ->
       3 - emax f - prec f <= ev <= emax f - prec f ->
       (sum_values (List.filter valid raster)
        == inject_Z (Z.of_nat (length (List.filter valid raster)))
           * sf_val (S754_finite s mv ev))%Q ->
       m = S754_finite s mv ev) /\
    ((exists x, In x raster /\ isnan x = false) ->
     (forall x, In x raster -> isnan x = true \/ x = of_int 1) ->
     m = of_int 1).
Proof.
  intros Hk. split; [unfold mean_xy; apply length_map |].
  exists (nanmean f raster). split.
  { exact (mean_xy_lookup f periods k t raster Hk). }
  assert (Hsome : (exists x, In x raster /\ isnan x = false) ->
                  List.filter valid raster <> []).
  { intros (x & Hx & Hv) Hnil.
    assert (Hin : In x (List.filter valid raster)).
    { apply filter_In. split; [exact Hx |]. unfold valid. rewrite Hv.
      reflexivity. }
    rewrite Hnil in Hin. destruct Hin. }
  split; [| split; [| split; [| split; [| split]]]].
  - apply nanmean_filter. symmetry. apply filter_valid_idem.
  - intros r1 r2 ->. apply nanmean_filter.
    rewrite !List.filter_app. reflexivity.
  - intros Hall. unfold nanmean. fold D.
    rewrite (filter_valid_none raster Hall). reflexivity.
  - intros Hex Hinf. apply nanmean_quotient; auto.
  - intros s mv ev Hex Hinf Hd Hev Hsum.
    apply nanmean_exact; auto.
  - intros Hex Hones.
    destruct (sf_one_normal f) as (m1 & e1 & H1 & Hd1 & He1).
    change (@of_int D 1) with (sf_of_int f 1) in *. rewrite H1.
    assert (Hv1 : forall x, In x (List.filter valid raster) ->
                    x = sf_of_int f 1).
    { intros x Hx. apply filter_In in Hx. destruct Hx as [Hx Hv].
      destruct (Hones x Hx) as [Hn | Hn]; [| exact Hn].
      unfold valid in Hv. rewrite Hn in Hv. discriminate Hv. }
    apply nanmean_exact; auto.
    + intros x Hx. destruct (Hones x Hx) as [Hn | ->].
      * destruct x; try discriminate Hn; reflexivity.
      * rewrite H1. reflexivity.
    + pose proof (format_bounds f). destruct f; simpl in *; lia.
    + rewrite <- H1, sf_val_one, (sum_values_ones _ Hv1). ring.
Qed.
End AreaSummary.

(** A binary32 period raster of four pixels, half of them "no value" and
    the others 1.0: the summary is 1.0. *)
Lemma area_summary_spec_witness :
  exists m : spec_float,
    mean_xy binary32
      [({| year := 2020; month := 12 |},
        [S754_nan; sf_of_int binary32 1; sf_of_int binary32 1; S754_nan])]
      !! 0%nat
    = Some ({| year := 2020; month := 12 |}, m) /\
    m = sf_of_int binary32 1.
Proof.
  destruct (area_summary_spec binary32
              [({| year := 2020; month := 12 |},
                [S754_nan; sf_of_int binary32 1; sf_of_int binary32 1;
                 S754_nan])]
              0 {| year := 2020; month := 12 |}
              [S754_nan; sf_of_int binary32 1; sf_of_int binary32 1;
               S754_nan] eq_refl)
    as (_ & m & Hm & _ & _ & _ & _ & _ & Hone).
  exists m. split; [exact Hm |]. apply Hone.
  - exists (sf_of_int binary32 1).
    split; [right; left; reflexivity | reflexivity].
  - intros x [<- | [<- | [<- | [<- | []]]]];
      (left; reflexivity) || (right; reflexivity).
Defined.
